(** * Arrow GC interoperability substrate: a shallow embedding

    This development embeds the collector-facing core of the Arrow runtime
    (handles, barrier hooks, the shadow stack, the persistent pool, storage
    descriptors, the type-descriptor registry and the allocation mixin) and
    proves the properties its specification states about them.  It also
    embeds the lexer.

    The file has two parts.  Part I holds the embedding, one module per
    source file.  Part II holds the theorems. *)

From Stdlib Require Import ZArith Lia.
From Stdlib Require String Ascii.
From stdpp Require Import gmap list.

Set Default Proof Using "Type".

(* ===================================================================== *)
(** * Part I: the embedding                                               *)
(* ===================================================================== *)

(** ** base/checks.h *)

(** The result of running a piece of code from a state [S].  [Aborted s]
    is a fatal halt of the process, reached in state [s]; [Undefined] is
    C++ undefined behaviour (reading through a pointer that does not
    point to a constructed object); [OutOfFuel] only arises for the
    fuel-bounded recursion of the registry and of the lexer. *)
Inductive outcome (S A : Type) : Type :=
  | Returned (a : A) (s : S)
  | Aborted (s : S)
  | Undefined
  | OutOfFuel.
Arguments Returned {S A} a s.
Arguments Aborted {S A} s.
Arguments Undefined {S A}.
Arguments OutOfFuel {S A}.

Definition M (S A : Type) : Type := S -> outcome S A.

Definition ret {S A} (a : A) : M S A := fun s => Returned a s.

Definition bind {S A B} (m : M S A) (k : A -> M S B) : M S B :=
  fun s =>
    match m s with
    | Returned a s' => k a s'
    | Aborted s' => Aborted s'
    | Undefined => Undefined
    | OutOfFuel => OutOfFuel
    end.

Notation "x <~ c ;; k" := (bind c (fun x => k))
  (at level 100, c at next level, right associativity).
Notation "c ;;; k" := (bind c (fun _ => k))
  (at level 100, right associativity).

Definition get_state {S} : M S S := fun s => Returned s s.
Definition put_state {S} (s : S) : M S unit := fun _ => Returned tt s.
Definition modify_state {S} (f : S -> S) : M S unit := fun s => Returned tt (f s).
Definition undefined_behaviour {S A} : M S A := fun _ => Undefined.

(** Modelled from the spec: arw::Check, which checks.h declares and whose
    definition (checks.cc) is not among the sources.  The specification
    calls a failed check a fatal condition that halts; the tests expect
    the process to die.  The halt keeps the state it was reached in. *)
Definition Check {S A} : M S A := fun s => Aborted s.

(** [ARW_CHECK(condition)]: [if (!(condition)) ::arw::Check(...)]. *)
Definition ARW_CHECK {S} (condition : bool) : M S unit :=
  if negb condition then Check else ret tt.

(** [ARW_ASSERT(condition)] is [ARW_CHECK(condition)] when the build
    defines [DEBUG] and [((void) 0)] otherwise. *)
Definition ARW_ASSERT {S} (DEBUG : bool) (condition : bool) : M S unit :=
  if DEBUG then ARW_CHECK condition else ret tt.

(** [size_t] arithmetic on a 64-bit target. *)
Definition size_t_modulus : Z := 2 ^ 64.
Definition size_t_wrap (z : Z) : Z := z mod size_t_modulus.

(** ** local_stack.h *)

Module LocalStack.
Section LocalStack.
Context {Descriptor Data : Type}.
Context `{Inhabited Descriptor, Inhabited Data}.

Definition value_type : Type := Descriptor * Data.
(** [typedef size_t ref]. *)
Definition ref : Type := nat.

(** The object state is the private vector [_vec], oldest entry first. *)
Record t : Type := Build { _vec : list value_type }.

(** [LocalStack() {}] *)
Definition new : t := Build [].

Definition top (s : t) : ref := length (_vec s).

Definition empty (s : t) : bool :=
  match _vec s with [] => true | _ :: _ => false end.

Definition clear : M t unit := modify_state (fun _ => Build []).

(** [std::vector::resize(n)]: keeps the first [n] elements and pads
    with value-initialised ones when [n] exceeds the size. *)
Definition vector_resize (n : nat) (v : list value_type) : list value_type :=
  resize n inhabitant v.

Definition popTo (r : ref) : M t unit :=
  s <~ get_state ;;
  ARW_CHECK (bool_decide (r ≤ length (_vec s))) ;;;
  put_state (Build (vector_resize r (_vec s))).

(** [push(const value_type& v)]: [_vec.push_back(v)]. *)
Definition push_value (v : value_type) : M t unit :=
  modify_state (fun s => Build (_vec s ++ [v])).

(** [push(desc, data)] is [push(std::make_pair(desc, data))]. *)
Definition push (desc : Descriptor) (data : Data) : M t unit :=
  push_value (desc, data).

(** [begin()] .. [end()]: the entries in iteration order. *)
Definition entries (s : t) : list value_type := _vec s.

(** The scenario of the specification: [push(a); r1 = top(); push(b);
    popTo(r1)]. *)
Definition push_top_push_popTo (v1 v2 : value_type) : M t unit :=
  push (fst v1) (snd v1) ;;;
  s <~ get_state ;;
  let r1 := top s in
  push (fst v2) (snd v2) ;;;
  popTo r1.

(** A ref that is used after a pop to an older ref: [push(a); r1 = top();
    push(b); r2 = top(); popTo(r1); push(c); push(d); popTo(r2)]. *)
Definition pop_to_stale_ref (a b c d : value_type) : M t unit :=
  push_value a ;;;
  s1 <~ get_state ;;
  let r1 := top s1 in
  push_value b ;;;
  s2 <~ get_state ;;
  let r2 := top s2 in
  popTo r1 ;;;
  push_value c ;;;
  push_value d ;;;
  popTo r2.
End LocalStack.
Arguments t : clear implicits.
End LocalStack.

(** ** persistent_pool.h *)

Module PersistentPool.
Section PersistentPool.
Context {Descriptor Data : Type}.
Context `{EqDecision Descriptor, Countable Data}.

(** [typedef std::map<Data, std::pair<Descriptor, size_t>> Map]; the
    [size_t] is a refcount. *)
Record t : Type := Build { _map : gmap Data (Descriptor * Z) }.

(** [PersistentPool() {}] *)
Definition new : t := Build ∅.

(** [std::map::insert(value)]: inserts only when the key is absent.
    Returns the map, the entry the returned iterator points at and the
    flag telling whether the insertion took place. *)
Definition map_insert (k : Data) (v : Descriptor * Z)
    (m : gmap Data (Descriptor * Z))
    : gmap Data (Descriptor * Z) * (Descriptor * Z) * bool :=
  match m !! k with
  | Some old => (m, old, false)
  | None => (<[k := v]> m, v, true)
  end.

Definition add (data : Data) (desc : Descriptor) : M t unit :=
  p <~ get_state ;;
  let '(m, entry, inserted) := map_insert data (desc, 1%Z) (_map p) in
  put_state (Build m) ;;;
  if negb inserted then
    ARW_CHECK (bool_decide (fst entry = desc)) ;;;
    put_state (Build (<[data := (fst entry, size_t_wrap (snd entry + 1))]> m))
  else ret tt.

Definition remove (data : Data) : M t unit :=
  p <~ get_state ;;
  let i := _map p !! data in
  ARW_CHECK (bool_decide (i ≠ None)) ;;;
  match i with
  | None => undefined_behaviour
  | Some (desc, refcount) =>
      let refcount' := size_t_wrap (refcount - 1) in
      if bool_decide (0 = refcount')%Z
      then put_state (Build (delete data (_map p)))
      else put_state (Build (<[data := (desc, refcount')]> (_map p)))
  end.

Definition empty (p : t) : bool := bool_decide (_map p = ∅).

(** [add(x, d); add(x, d); remove(x)] *)
Definition add_add_remove (x : Data) (d : Descriptor) : M t unit :=
  add x d ;;; add x d ;;; remove x.

(** [add(x, d); remove(x); remove(x)] *)
Definition add_remove_remove (x : Data) (d : Descriptor) : M t unit :=
  add x d ;;; remove x ;;; remove x.
End PersistentPool.
Arguments t Descriptor Data {_ _}.
End PersistentPool.

(** ** handle.h *)

Inductive HandleType : Type := VALUE | REFERENCE | WEAK.

#[global] Instance HandleType_eq_dec : EqDecision HandleType.
Proof. solve_decision. Defined.

(** [internal::HandleTypes<T, Type>::storage_type]: the payload itself for
    a value handle, a raw pointer for a strong or weak reference. *)
Definition storage_type (T Ptr : Type) (Type_ : HandleType) : Type :=
  match Type_ with
  | VALUE => T
  | REFERENCE | WEAK => Ptr
  end.

(** A hook set, as the comment on [arw::Handle] describes it: a family
    [template<typename T, HandleType Type> struct HandleHooks] of four
    static functions.  [W] is whatever state the hooks keep.  A handle is
    passed as its address; [read] and [write] receive the address of the
    stored pointer (which is the handle's address, the pointer being its
    only member) and may change what is stored there:
    [read this stored w = (result, stored', w')] and
    [write this stored value w = (stored', w')]. *)
Record Hooks (T Ptr W : Type) : Type := {
  created : forall Type_ : HandleType, nat -> storage_type T Ptr Type_ -> W -> W;
  destroyed : forall Type_ : HandleType, nat -> storage_type T Ptr Type_ -> W -> W;
  read : nat -> Ptr -> W -> Ptr * Ptr * W;
  write : nat -> Ptr -> Ptr -> W -> Ptr * W
}.
Arguments created {T Ptr W} _ _ _ _ _.
Arguments destroyed {T Ptr W} _ _ _ _ _.
Arguments read {T Ptr W} _ _ _ _.
Arguments write {T Ptr W} _ _ _ _ _.

Module Handle.
Section Handle.
Context {T Ptr W : Type} `{EqDecision Ptr}.
(** The null pointer, and the object a pointer points to, if any. *)
Variable nullptr : Ptr.
Variable pointee : Ptr -> option T.
Variable Type_ : HandleType.
Variable hooks : Hooks T Ptr W.

(** A handle object: [storage_type _data] is its only member. *)
Record t : Type := Build { _data : storage_type T Ptr Type_ }.

(** What [get()] returns: for a value handle the address of the inline
    payload, [&_data], otherwise the pointer the read hook returned. *)
Inductive pointer_type : Type :=
  | payload_of (this : nat)
  | object_at (p : Ptr).

Definition wasCreated (this : nat) (h : t) : M W unit :=
  modify_state (created hooks Type_ this (_data h)).

Definition wasDestroyed (this : nat) (h : t) : M W unit :=
  modify_state (destroyed hooks Type_ this (_data h)).

(** [Handle()]: the payload is default-initialised; [initial] is the
    content the storage has then. *)
Definition construct_default (this : nat)
    (initial : storage_type T Ptr Type_) : M W t :=
  let h := Build initial in
  wasCreated this h ;;; ret h.

(** [Handle(const Handle& other) : _data(other._data)] *)
Definition construct_copy (this : nat) (other : t) : M W t :=
  let h := Build (_data other) in
  wasCreated this h ;;; ret h.

(** [Handle(Handle&& other) : _data(std::move(other._data))]; the
    new payload has the value the source had. *)
Definition construct_move (this : nat) (other : t) : M W t :=
  let h := Build (_data other) in
  wasCreated this h ;;; ret h.

(** [explicit Handle(argument_type other) : _data(other)] *)
Definition construct_from_value (this : nat)
    (other : storage_type T Ptr Type_) : M W t :=
  let h := Build other in
  wasCreated this h ;;; ret h.

(** [explicit Handle(storage_type&& other) : _data(std::move(other))] *)
Definition construct_from_rvalue (this : nat)
    (other : storage_type T Ptr Type_) : M W t :=
  let h := Build other in
  wasCreated this h ;;; ret h.

(** [~Handle()] *)
Definition destruct (this : nat) (h : t) : M W unit :=
  wasDestroyed this h.

(** The three private [write] overloads: plain replacement of the
    payload when [VALUE == Type], [Hooks::write(&_data, val)]
    otherwise.  The handle is returned with its new content. *)
Definition write (this : nat) (h : t)
    (val : storage_type T Ptr Type_) : M W t :=
  d <~ match Type_ as ty
         return storage_type T Ptr ty -> storage_type T Ptr ty ->
                M W (storage_type T Ptr ty) with
       | VALUE => fun _ v => ret v
       | REFERENCE | WEAK => fun stored v w =>
           let '(stored', w') := write hooks this stored v w in
           Returned stored' w'
       end (_data h) val ;;
  ret (Build d).

Definition assign_copy (this : nat) (h other : t) : M W t :=
  write this h (_data other).

Definition assign_move (this : nat) (h other : t) : M W t :=
  write this h (_data other).

Definition assign_value (this : nat) (h : t)
    (other : storage_type T Ptr Type_) : M W t :=
  write this h other.

Definition assign_rvalue (this : nat) (h : t)
    (other : storage_type T Ptr Type_) : M W t :=
  write this h other.

(** [get()], const or not: [&_data] when [VALUE == Type],
    [Hooks::read(&_data)] otherwise. *)
Definition get (this : nat) (h : t) : M W (pointer_type * t) :=
  r <~ match Type_ as ty
         return storage_type T Ptr ty ->
                M W (pointer_type * storage_type T Ptr ty) with
       | VALUE => fun v => ret (payload_of this, v)
       | REFERENCE | WEAK => fun stored w =>
           let '(result, stored', w') := read hooks this stored w in
           Returned (object_at result, stored') w'
       end (_data h) ;;
  ret (fst r, Build (snd r)).

(** [operator->()] is [return get();] *)
Definition operator_arrow (this : nat) (h : t) : M W (pointer_type * t) :=
  get this h.

(** The object [*p] denotes: the payload of the handle for [&_data],
    the pointee otherwise; [None] when the pointer does not point to an
    object (the reference must then not be used). *)
Definition dereference (h : t) (p : pointer_type) : option T :=
  match p with
  | payload_of _ =>
      match Type_ as ty return storage_type T Ptr ty -> option T with
      | VALUE => fun v => Some v
      | REFERENCE | WEAK => fun _ => None
      end (_data h)
  | object_at q => pointee q
  end.

(** [operator*()] is [return *get();] *)
Definition operator_star (this : nat) (h : t) : M W (option T * t) :=
  r <~ get this h ;;
  ret (dereference (snd r) (fst r), snd r).

(** [explicit operator bool() const] is [return !!get();] and carries
    [static_assert(HandleType::WEAK == Type, ...)]: it only exists for
    weak handles. *)
Definition operator_bool (weak : WEAK = Type_) (this : nat) (h : t)
    : M W (bool * t) :=
  r <~ get this h ;;
  ret (match fst r with
       | payload_of _ => true
       | object_at p => bool_decide (p <> nullptr)
       end, snd r).

(** The scenario of the specification: create a handle on [p], read it
    twice, write [v] to it once. *)
Definition create_read_read_write (this : nat)
    (p v : storage_type T Ptr Type_) : M W t :=
  h <~ construct_from_value this p ;;
  r1 <~ get this h ;;
  r2 <~ get this (snd r1) ;;
  assign_value this (snd r2) v.
End Handle.
Arguments t : clear implicits.
Arguments Build {T Ptr Type_} _data.
Arguments _data {T Ptr Type_} _.
Arguments pointer_type : clear implicits.
Arguments payload_of {Ptr} this.
Arguments object_at {Ptr} p.

#[global] Instance pointer_type_eq_dec {Ptr} `{EqDecision Ptr}
: EqDecision (pointer_type Ptr).
Proof. solve_decision. Defined.
End Handle.

(** ** The collector's hooks, and storage/member_handle_hooks.h *)

(** The collector, as the core calls into it: [void* read(void** ptr)],
    [void write(void** ptr, void* value)] and [void* allocate(size_t)],
    over whatever state [G] the collector keeps.  [gc_read] and
    [gc_write] receive the address [ptr] and the pointer stored there and
    produce the pointer stored there afterwards. *)
Record GCHooks (Ptr G : Type) : Type := {
  gc_read : nat -> Ptr -> G -> Ptr * Ptr * G;
  gc_write : nat -> Ptr -> Ptr -> G -> Ptr * G;
  gc_allocate : Z -> G -> Ptr * G
}.
Arguments gc_read {Ptr G} _ _ _ _.
Arguments gc_write {Ptr G} _ _ _ _ _.
Arguments gc_allocate {Ptr G} _ _ _.

(** [internal::MemberHandleHooks<T, Type, GCHooks>]: [created] and
    [destroyed] have empty bodies, [read] and [write] forward to the
    collector. *)
Definition MemberHandleHooks {T Ptr G} (gc : GCHooks Ptr G) : Hooks T Ptr G := {|
  created := fun _ _ _ g => g;
  destroyed := fun _ _ _ g => g;
  read := fun ptr stored g => gc_read gc ptr stored g;
  write := fun ptr stored value g => gc_write gc ptr stored value g
|}.

(** [internal::LocalHandleHooks<T, Type, GCHooks>] (storage/local.h)
    inherits [read] and [write] from [GCHooks]; its [created] and
    [destroyed] have empty bodies. *)
Definition LocalHandleHooks {T Ptr G} (gc : GCHooks Ptr G) : Hooks T Ptr G := {|
  created := fun _ _ _ g => g;
  destroyed := fun _ _ _ g => g;
  read := fun ptr stored g => gc_read gc ptr stored g;
  write := fun ptr stored value g => gc_write gc ptr stored value g
|}.

(** The [MockGCHooks] of the tests: [read] returns [*ptr], [write] does
    [*ptr = value], [allocate] returns a fixed pointer. *)
Definition MockGCHooks {Ptr} (allocated : Ptr) : GCHooks Ptr unit := {|
  gc_read := fun _ stored g => (stored, stored, g);
  gc_write := fun _ _ value g => (value, g);
  gc_allocate := fun _ g => (allocated, g)
|}.

(** A read barrier that hands out the stored pointer and leaves it in
    place, as [MockGCHooks::read] does. *)
Definition transparent_read {Ptr G} (gc : GCHooks Ptr G) : Prop :=
  forall ptr stored g, exists g', gc_read gc ptr stored g = (stored, stored, g').

(** A read barrier need not be like that: the comment on [arw::Handle]
    lets [read] update the reference and return anything.  A collector
    without state whose [read] returns [answer stored] and leaves
    [update stored] in the reference, and whose [write] stores the value
    it is given.  With [answer] always null and [update] the identity
    this is the [MockGCHooks] of the member-hook tests when
    [_readNull] is set; with [answer] and [update] the same function it
    is a barrier that forwards references to objects the collector has
    moved. *)
Definition BarrierGCHooks {Ptr} (answer update : Ptr -> Ptr) (null : Ptr)
    : GCHooks Ptr unit := {|
  gc_read := fun _ stored g => (answer stored, update stored, g);
  gc_write := fun _ _ value g => (value, g);
  gc_allocate := fun _ g => (null, g)
|}.

(** ** Recording hook sets (test/cc/test-handle.cc, [TestHandleHooks])

    The test harness counts hook invocations per handle address.  The
    same instrumentation, around an arbitrary hook set: every invocation
    is appended to a log and then forwarded. *)
Inductive HookCall : Type :=
  | CreatedCall (handle : nat)
  | DestroyedCall (handle : nat)
  | ReadCall (handle : nat)
  | WriteCall (handle : nat).

#[global] Instance HookCall_eq_dec : EqDecision HookCall.
Proof. solve_decision. Defined.

Definition RecordingHooks {T Ptr W} (hooks : Hooks T Ptr W)
    : Hooks T Ptr (W * list HookCall) := {|
  created := fun ty handle d '(w, log) =>
    (created hooks ty handle d w, log ++ [CreatedCall handle]);
  destroyed := fun ty handle d '(w, log) =>
    (destroyed hooks ty handle d w, log ++ [DestroyedCall handle]);
  read := fun ptr stored '(w, log) =>
    let '(r, stored', w') := read hooks ptr stored w in
    (r, stored', (w', log ++ [ReadCall ptr]));
  write := fun ptr stored value '(w, log) =>
    let '(stored', w') := write hooks ptr stored value w in
    (stored', (w', log ++ [WriteCall ptr]))
|}.

(** [timesRead], [timesWritten] and the like: how often a call occurs
    in a log. *)
Definition times (c : HookCall) (log : list HookCall) : nat :=
  length (filter (fun c' => c' = c) log).

(** Running [m] with a recording hook set invokes exactly the hooks
    [calls], in that order, and returns. *)
Definition invokes {W A} (m : M (W * list HookCall) A) (calls : list HookCall)
    : Prop :=
  forall w log, exists a w', m (w, log) = Returned a (w', log ++ calls).

(** The same for the collector: every [allocate(size)] is logged. *)
Definition RecordingGC {Ptr G} (gc : GCHooks Ptr G)
    : GCHooks Ptr (G * list Z) := {|
  gc_read := fun ptr stored '(g, log) =>
    let '(r, stored', g') := gc_read gc ptr stored g in (r, stored', (g', log));
  gc_write := fun ptr stored value '(g, log) =>
    let '(stored', g') := gc_write gc ptr stored value g in (stored', (g', log));
  gc_allocate := fun size '(g, log) =>
    let '(p, g') := gc_allocate gc size g in (p, (g', log ++ [size]))
|}.

(** ** storage/newable.h *)

Module Newable.
Section Newable.
Context {Ptr G : Type}.
Variable gc : GCHooks Ptr G.
(** [sizeof(ChildClass)] *)
Variable sizeof_ChildClass : Z.

(** [operator new(std::size_t sz)] is
    [return GCHooks::allocate(sizeof(ChildClass) * sz);] *)
Definition operator_new (sz : Z) : M G Ptr :=
  fun g =>
    let '(p, g') := gc_allocate gc (size_t_wrap (sizeof_ChildClass * sz)) g in
    Returned p g'.

(** [operator delete(void* ptr, std::size_t sz)] has an empty body. *)
Definition operator_delete (ptr : Ptr) (sz : Z) : M G unit := ret tt.

(** The allocation step of the expression [new T], for a class [T]
    that inherits these operators: the language calls [operator new]
    with the size of the object in bytes, [sizeof(T)], and the
    expression's pointer is the one that call returns. *)
Definition new_expression (sizeof_T : Z) : M G Ptr := operator_new sizeof_T.

(** The deallocation step of [delete obj]. *)
Definition delete_expression (sizeof_T : Z) (obj : Ptr) : M G unit :=
  operator_delete obj sizeof_T.
End Newable.
End Newable.

(** ** storage_descriptor.h *)

(** A [const StorageDescriptor*]: null, the address of the static
    sentinel [StorageDescriptor::boxed], or the address of a block
    obtained from [new char[...]]. *)
Inductive SDPtr : Type :=
  | SDNull
  | SDBoxed
  | SDAt (block : nat).

#[global] Instance SDPtr_eq_dec : EqDecision SDPtr.
Proof. solve_decision. Defined.

Module StorageDescriptor.

(** [struct Slot].  The member [storageDescriptor] is a
    [const MemberRef<const SD, GCHooks>]; the field holds that handle's
    storage, a raw [const SD*]. *)
Record Slot : Type := BuildSlot {
  storageDescriptor : SDPtr;
  type : HandleType;
  offset : Z
}.

(** The data members of [StorageDescriptor].  [_values], declared as a
    [MemberVal<Slot[0], GCHooks>], stands for the storage behind the
    object: the field holds the [Slot] objects that were constructed
    there, by index.  An index without one is memory as
    [new char[...]] left it. *)
Record SD : Type := BuildSD {
  _sizeWithEmptyArray : Z;
  _hasArray : bool;
  _array : Slot;
  _numValues : nat;
  _values : gmap nat Slot
}.

(** [Slot::empty], constructed as [Slot(NULL, HandleType::REFERENCE, 0)]. *)
Definition Slot_empty : Slot := BuildSlot SDBoxed REFERENCE 0.

(** The sentinel [boxed], constructed with [sizeWithEmptyArray] 0,
    [hasArray] false, the array slot [Slot(NULL, REFERENCE, 0)] and no
    values. *)
Definition boxed : SD := BuildSD 0 false (BuildSlot SDBoxed REFERENCE 0) 0 ∅.

(** [sizeof(Slot[0])]: an array of no elements has size 0. *)
Definition sizeof_Slot_0 : nat := 0.

(** Where [_values.get()[numValues]] is, as an index into the storage
    behind the object.  [_values.get()] is [&_data] and has the type
    [Slot ( * )[0]], so that [[numValues]] steps over [numValues] arrays
    of no elements and not over [numValues] slots. *)
Definition values_index (numValues : nat) : nat := numValues * sizeof_Slot_0.

(** The loop of the private constructor,
    [for (; valuesBegin != valuesEnd; numValues++, valuesBegin++)
       ::new(const_cast<Slot*>(_values.get()[numValues])) Slot( *valuesBegin);]
    from the count [numValues] and the slots [stored] constructed so
    far; a slot constructed where one is already replaces it.  Copying
    a slot copies its member handle, whose [created] hook has an empty
    body. *)
Fixpoint copy_values (values : list Slot) (numValues : nat)
    (stored : gmap nat Slot) : nat * gmap nat Slot :=
  match values with
  | [] => (numValues, stored)
  | value :: values' =>
      copy_values values' (S numValues)
        (<[values_index numValues := value]> stored)
  end.

(** What that leaves of the slots [values]: the last of them, at index
    0. *)
Definition surviving (values : list Slot) : gmap nat Slot :=
  match last values with
  | Some value => {[ 0 := value ]}
  | None => ∅
  end.

(** A block of raw memory is either still uninitialised (with the size
    it was requested with) or holds a constructed descriptor. *)
Inductive cell : Type :=
  | Raw (size : Z)
  | Constructed (sd : SD).

(** The state descriptor code runs in: the collector's state and the
    blocks obtained from [new char[...]]. *)
Record Memory (G : Type) : Type := BuildMemory {
  gc_state : G;
  blocks : gmap nat cell
}.
Arguments BuildMemory {G} _ _.
Arguments gc_state {G} _.
Arguments blocks {G} _.

Section StorageDescriptor.
Context {G : Type}.
Variable gc : GCHooks SDPtr G.
(** Whether the build defines [DEBUG]. *)
Variable DEBUG : bool.
(** [sizeof(SD)] and [sizeof(Slot)]. *)
Variables sizeof_SD sizeof_Slot : Z.

(** Handle code only touches the collector's state. *)
Definition with_gc {A} (m : M G A) : M (Memory G) A :=
  fun mem =>
    match m (gc_state mem) with
    | Returned a g' => Returned a (BuildMemory g' (blocks mem))
    | Aborted g' => Aborted (BuildMemory g' (blocks mem))
    | Undefined => Undefined
    | OutOfFuel => OutOfFuel
    end.

(** Reading the object a [const SD*] points to. *)
Definition load (p : SDPtr) : M (Memory G) SD :=
  fun mem =>
    match p with
    | SDNull => Undefined
    | SDBoxed => Returned boxed mem
    | SDAt b =>
        match blocks mem !! b with
        | Some (Constructed sd) => Returned sd mem
        | Some (Raw _) | None => Undefined
        end
    end.

(** [SD::hasArray()] and [SD::isBoxed()]. *)
Definition hasArray (sd : SD) : bool := _hasArray sd.
Definition isBoxed (this : SDPtr) : bool := bool_decide (this = SDBoxed).

(** [p->hasArray()] for the result [p] of a handle's [operator->]. *)
Definition arrow_hasArray (p : Handle.pointer_type SDPtr) : M (Memory G) bool :=
  match p with
  | Handle.object_at q => sd <~ load q ;; ret (hasArray sd)
  | Handle.payload_of _ => undefined_behaviour
  end.

(** The member handle of a slot is a [MemberRef<const SD, GCHooks>]: a
    [Handle] with the hooks [MemberHandleHooks<const SD, REFERENCE, GCHooks>]. *)
Definition member_hooks : Hooks SD SDPtr G := MemberHandleHooks gc.

(** [storageDescriptor_ ?: &boxed] *)
Definition descriptor_or_boxed (storageDescriptor_ : SDPtr) : SDPtr :=
  if bool_decide (storageDescriptor_ <> SDNull) then storageDescriptor_
  else SDBoxed.

(** [Slot(const SD* storageDescriptor_, HandleType type_, size_t offset_)],
    constructing at address [this].  The member initialiser is
    [storageDescriptor(storageDescriptor_ ?: &boxed)]; the two checks
    read the member through the handle, the second only when the first
    operand of its [||] is false. *)
Definition Slot_new (this : nat) (storageDescriptor_ : SDPtr)
    (type_ : HandleType) (offset_ : Z) : M (Memory G) Slot :=
  h <~ with_gc (Handle.construct_from_value REFERENCE member_hooks this
                  (descriptor_or_boxed storageDescriptor_)) ;;
  r <~ with_gc (Handle.get REFERENCE member_hooks this h) ;;
  ARW_CHECK (negb (bool_decide (fst r = Handle.object_at SDBoxed))
             || negb (bool_decide (VALUE = type_))) ;;;
  h' <~ (if negb (bool_decide (VALUE = type_)) then ret (snd r)
         else
           r' <~ with_gc (Handle.operator_arrow REFERENCE member_hooks
                            this (snd r)) ;;
           a <~ arrow_hasArray (fst r') ;;
           ARW_CHECK (negb a) ;;;
           ret (snd r')) ;;
  ret (BuildSlot (Handle._data h') type_ offset_).

(** [objectSize(numValues)] is [sizeof(SD)+sizeof(Slot)*numValues]. *)
Definition objectSize (numValues : Z) : Z :=
  size_t_wrap (sizeof_SD + sizeof_Slot * numValues).

(** [new char[size]]: a fresh block of raw memory. *)
Definition new_char_array (size : Z) : M (Memory G) SDPtr :=
  fun mem =>
    let b := fresh (dom (blocks mem)) in
    Returned (SDAt b) (BuildMemory (gc_state mem) (<[b := Raw size]> (blocks mem))).

(** Constructing a descriptor in the block [this] points to.  Only
    memory obtained from [new char[...]] can be constructed in. *)
Definition place (this : SDPtr) (sd : SD) : M (Memory G) unit :=
  fun mem =>
    match this with
    | SDAt b =>
        match blocks mem !! b with
        | Some _ => Returned tt (BuildMemory (gc_state mem)
                                   (<[b := Constructed sd]> (blocks mem)))
        | None => Undefined
        end
    | SDNull | SDBoxed => Undefined
    end.

(** The private constructor.  The members are initialised, the loop
    copies the slots, and the count is stored; then the consistency
    assertion runs. *)
Definition construct (this : SDPtr) (sizeWithEmptyArray : Z)
    (hasArray_ : bool) (array : Slot) (values : list Slot)
    : M (Memory G) unit :=
  let '(numValues, stored) := copy_values values 0 ∅ in
  place this (BuildSD sizeWithEmptyArray hasArray_ array numValues stored) ;;;
  ARW_ASSERT DEBUG
    (negb (sizeWithEmptyArray =? 0)%Z
     || (negb hasArray_ && (0 =? numValues)%nat)).

(** [init(obj, sizeWithEmptyArray, hasArray, array, values)]:
    [::new(obj) SD(...); return obj;] *)
Definition init (obj : SDPtr) (sizeWithEmptyArray : Z) (hasArray_ : bool)
    (array : Slot) (values : list Slot) : M (Memory G) SDPtr :=
  construct obj sizeWithEmptyArray hasArray_ array values ;;;
  ret obj.

(** [makeSD] of the descriptor tests: allocate [objectSize(n)] bytes
    for [n] slots and [init] there. *)
Definition makeSD (sizeWithEmptyArray : Z) (hasArray_ : bool)
    (array : Slot) (values : list Slot) : M (Memory G) SDPtr :=
  obj <~ new_char_array (objectSize (Z.of_nat (length values))) ;;
  init obj sizeWithEmptyArray hasArray_ array values.

(** The collector's state after the reads of a slot's construction. *)
Definition after_read (this : nat) (p : SDPtr) (mem : Memory G) : Memory G :=
  BuildMemory (snd (gc_read gc this p (gc_state mem))) (blocks mem).

(** The memory after a descriptor was constructed in block [b]. *)
Definition constructed_in (b : nat) (sd : SD) (mem : Memory G) : Memory G :=
  BuildMemory (gc_state mem) (<[b := Constructed sd]> (blocks mem)).
End StorageDescriptor.
End StorageDescriptor.

(** ** type_storage.h: the type-descriptor registry *)

Module TypeStorage.
Import StorageDescriptor.

(** A C++ class that takes part in the storage system. *)
Definition klass : Type := nat.

(** What [slot] and [arraySlot] take from a member pointer [V U::*member]:
    the class whose descriptor is looked up ([V::value_type], for
    [arraySlot] [V::storage_type]), the handle type, and the offset of
    the member in [U]. *)
Record Member : Type := BuildMember {
  member_class : klass;
  member_handleType : HandleType;
  member_offset : Z
}.

(** The [array] argument of [ARW_DEFINE_STORAGE_BEGIN]. *)
Inductive ArrayArgument : Type :=
  | SlotEmpty
  | ArraySlot (array : Member).

(** One use of [ARW_DEFINE_STORAGE_BEGIN(n, klass, hasArray, array)
    { values } ARW_DEFINE_STORAGE_END], with [sizeof(klass)], which
    like the size of every class is at least one. *)
Record StorageDefinition : Type := BuildDefinition {
  def_n : Z;
  def_sizeof : positive;
  def_hasArray : bool;
  def_array : ArrayArgument;
  def_values : list Member
}.

(** The macros native code uses. *)
Definition ARW_DEFINE_STORAGE_0 (sizeof_klass : positive) : StorageDefinition :=
  BuildDefinition 1 sizeof_klass false SlotEmpty [].
Definition ARW_DEFINE_STORAGE_ARR_0 (sizeof_klass : positive) (array : Member)
    : StorageDefinition :=
  BuildDefinition 1 sizeof_klass true (ArraySlot array) [].
Definition ARW_DEFINE_STORAGE_1 (sizeof_klass : positive) (member1 : Member)
    : StorageDefinition :=
  BuildDefinition 1 sizeof_klass false SlotEmpty [member1].
Definition ARW_DEFINE_STORAGE_ARR_1 (sizeof_klass : positive) (array member1 : Member)
    : StorageDefinition :=
  BuildDefinition 1 sizeof_klass true (ArraySlot array) [member1].
Definition ARW_DEFINE_STORAGE_2 (sizeof_klass : positive) (member1 member2 : Member)
    : StorageDefinition :=
  BuildDefinition 2 sizeof_klass false SlotEmpty [member1; member2].
Definition ARW_DEFINE_STORAGE_ARR_2 (sizeof_klass : positive)
    (array member1 member2 : Member) : StorageDefinition :=
  BuildDefinition 2 sizeof_klass true (ArraySlot array) [member1; member2].

(** The state of the registry: memory, the function-local statics
    [_arw_macro_storage] of the specialisations of
    [ArwInternalGetStorageDescriptor] (a class without an entry still
    has the initial [nullptr]), and, for the record, the classes for
    which [new char[...]] ran, in order. *)
Record World (G : Type) : Type := BuildWorld {
  memory : Memory G;
  _arw_macro_storage : gmap klass SDPtr;
  allocations : list klass
}.
Arguments BuildWorld {G} _ _ _.
Arguments memory {G} _.
Arguments _arw_macro_storage {G} _.
Arguments allocations {G} _.

(** The state at program start. *)
Definition initial {G} (g : G) : World G :=
  BuildWorld (BuildMemory g ∅) ∅ [].

Section TypeStorage.
Context {G : Type}.
Variable gc : GCHooks SDPtr G.
Variable DEBUG : bool.
Variables sizeof_SD sizeof_Slot : Z.
(** The storage definitions of the program.  A class without one has
    no specialisation of [ArwInternalGetStorageDescriptor]: its [get]
    is declared and never defined. *)
Variable definitions : klass -> option StorageDefinition.
(** Where the temporary [Slot] that [slot] and [arraySlot] return is
    built. *)
Variable temporary : nat.

Definition with_memory {A} (m : M (Memory G) A) : M (World G) A :=
  fun w =>
    match m (memory w) with
    | Returned a mem => Returned a (BuildWorld mem (_arw_macro_storage w) (allocations w))
    | Aborted mem => Aborted (BuildWorld mem (_arw_macro_storage w) (allocations w))
    | Undefined => Undefined
    | OutOfFuel => OutOfFuel
    end.

(** [_arw_macro_storage.get()] for the static of class [k]. *)
Definition static_storage (w : World G) (k : klass) : SDPtr :=
  default SDNull (_arw_macro_storage w !! k).

(** [_arw_macro_storage = std::unique_ptr<SD>(reinterpret_cast<SD*>(
    new char[size]))] in the specialisation for class [k]. *)
Definition allocate_storage (k : klass) (size : Z) : M (World G) unit :=
  p <~ with_memory (new_char_array size) ;;
  modify_state (fun w =>
    BuildWorld (memory w) (<[k := p]> (_arw_macro_storage w))
               (allocations w ++ [k])).

(** Running the elements of an initialiser list in order. *)
Fixpoint sequence {S A B} (f : A -> M S B) (l : list A) : M S (list B) :=
  match l with
  | [] => ret []
  | a :: l' => b <~ f a ;; bs <~ sequence f l' ;; ret (b :: bs)
  end.

(** [ArwInternalGetStorageDescriptor<GCHooks, k>::get()], with
    [TypeStorage::slot] and [TypeStorage::arraySlot] inlined where they
    call back into [get].  The recursion follows the member classes and
    is bounded by [fuel].  The arguments of [SD::init] are evaluated
    from left to right. *)
Fixpoint get (fuel : nat) (k : klass) : M (World G) SDPtr :=
  match fuel with
  | O => fun _ => OutOfFuel
  | S fuel' =>
      match definitions k with
      | None => undefined_behaviour
      | Some d =>
          w <~ get_state ;;
          if bool_decide (static_storage w k <> SDNull)
          then ret (static_storage w k)
          else
            allocate_storage k (objectSize sizeof_SD sizeof_Slot (def_n d)) ;;;
            w1 <~ get_state ;;
            let slot (m : Member) : M (World G) Slot :=
              sd <~ get fuel' (member_class m) ;;
              with_memory (Slot_new gc temporary sd
                             (member_handleType m) (member_offset m)) in
            array <~ match def_array d with
                     | SlotEmpty => ret Slot_empty
                     | ArraySlot a => slot a
                     end ;;
            values <~ sequence slot (def_values d) ;;
            with_memory (init DEBUG (static_storage w1 k) (Z.pos (def_sizeof d))
                           (def_hasArray d) array values) ;;;
            w2 <~ get_state ;;
            ret (static_storage w2 k)
      end
  end.

(** [TypeStorage::slot(member)] and [TypeStorage::arraySlot(member)]. *)
Definition slot (fuel : nat) (m : Member) : M (World G) Slot :=
  sd <~ get fuel (member_class m) ;;
  with_memory (Slot_new gc temporary sd (member_handleType m) (member_offset m)).

Definition arraySlot (fuel : nat) (m : Member) : M (World G) Slot :=
  slot fuel m.

(** [arw::storageDescriptor<GCHooks, T>()] *)
Definition storageDescriptor (fuel : nat) (T : klass) : M (World G) SDPtr :=
  get fuel T.

(** Completed lookups, one after the other. *)
Inductive lookups_from : World G -> World G -> Prop :=
  | lookups_none (w : World G) : lookups_from w w
  | lookups_more (w : World G) (fuel : nat) (k : klass) (p : SDPtr)
      (w1 w2 : World G) :
      get fuel k w = Returned p w1 -> lookups_from w1 w2 -> lookups_from w w2.

(** A static that is set stays as it is. *)
Definition statics_kept (w w' : World G) : Prop :=
  forall k : klass, static_storage w k <> SDNull -> static_storage w' k = static_storage w k.

(** The blocks that exist stay as they are. *)
Definition blocks_kept (w w' : World G) : Prop :=
  forall b, b ∈ dom (blocks (memory w)) ->
    blocks (memory w') !! b = blocks (memory w) !! b.

(** The allocation record has no class twice and holds exactly the
    classes whose static is set. *)
Definition accounted (w : World G) : Prop :=
  NoDup (allocations w)
  /\ forall k : klass, k ∈ allocations w <-> static_storage w k <> SDNull.

Definition grows (w w' : World G) : Prop :=
  statics_kept w w' /\ blocks_kept w w' /\ (accounted w -> accounted w').

Definition outcome_grows {A} (Q : A -> World G -> Prop) (w : World G)
    (o : outcome (World G) A) : Prop :=
  match o with
  | Returned a w' => grows w w' /\ Q a w'
  | Aborted w' => grows w w'
  | Undefined | OutOfFuel => True
  end.

(** The world right after [allocate_storage]. *)
Definition allocated (k : klass) (size : Z) (w : World G) : World G :=
  let b := fresh (dom (blocks (memory w))) in
  BuildWorld
    (BuildMemory (gc_state (memory w)) (<[b := Raw size]> (blocks (memory w))))
    (<[k := SDAt b]> (_arw_macro_storage w))
    (allocations w ++ [k]).

(** The world after [init] constructed [sd] in block [b]. *)
Definition constructed (b : nat) (sd : SD) (w : World G) : World G :=
  BuildWorld (constructed_in b sd (memory w)) (_arw_macro_storage w)
             (allocations w).

(** What a returning lookup establishes. *)
Definition published (k : klass) (p : SDPtr) (w : World G) : Prop :=
  static_storage w k = p /\ p <> SDNull.

(** The classes of a list whose static is not set yet. *)
Definition unset (classes : list klass) (w : World G) : list klass :=
  filter (fun k => static_storage w k = SDNull) classes.

(** Every class outside the set [pending] whose static is set has a
    constructed descriptor there.  [pending] holds the classes whose
    lookup is still running. *)
Definition complete (pending : gset klass) (w : World G) : Prop :=
  forall k : klass, k ∉ pending -> static_storage w k <> SDNull ->
    exists b sd, static_storage w k = SDAt b
                 /\ blocks (memory w) !! b = Some (Constructed sd).


End TypeStorage.

(** The classes the type-storage tests register, on a target with
    eight-byte pointers: [Circular] (class 0) with its member [self], a
    [MemberRef<Circular>]; [Members0] (class 1) without members;
    [Members1] (class 2) and [Members2] (class 3) with one and two
    [MemberRef<Members0>].  No other class has a storage definition. *)
Definition Circular : klass := 0.
Definition Members0 : klass := 1.
Definition Members1 : klass := 2.
Definition Members2 : klass := 3.

Definition test_definitions (k : klass) : option StorageDefinition :=
  match k with
  | 0 => Some (ARW_DEFINE_STORAGE_1 8 (BuildMember Circular REFERENCE 0))
  | 1 => Some (ARW_DEFINE_STORAGE_0 1)
  | 2 => Some (ARW_DEFINE_STORAGE_1 8 (BuildMember Members0 REFERENCE 0))
  | 3 => Some (ARW_DEFINE_STORAGE_2 16 (BuildMember Members0 REFERENCE 0)
                 (BuildMember Members0 REFERENCE 8))
  | _ => None
  end.

End TypeStorage.

(** ** Scoped use of the shadow stack *)

Module LocalScope.
Section LocalScope.
Context {Descriptor Data : Type}.
Context `{Inhabited Descriptor, Inhabited Data}.

(** Code that uses the stack the way the class comment prescribes: it
    pushes entries, and it brackets regions with a scope, which takes
    [top()] on entry and calls [popTo] with that ref on exit. *)
Inductive program : Type :=
  | Done
  | Push (v : @LocalStack.value_type Descriptor Data) (rest : program)
  | Scope (body rest : program).

Fixpoint run (p : program) : M (LocalStack.t Descriptor Data) unit :=
  match p with
  | Done => ret tt
  | Push v rest => LocalStack.push_value v ;;; run rest
  | Scope body rest =>
      s <~ get_state ;;
      let r := LocalStack.top s in
      run body ;;;
      LocalStack.popTo r ;;;
      run rest
  end.

(** The entries a program pushes outside of any scope. *)
Fixpoint pushed (p : program) : list (@LocalStack.value_type Descriptor Data) :=
  match p with
  | Done => []
  | Push v rest => v :: pushed rest
  | Scope _ rest => pushed rest
  end.
End LocalScope.
Arguments program : clear implicits.
End LocalScope.

(** ** Sequences of calls on the persistent pool *)

Module PoolTrace.
Section PoolTrace.
Context {Descriptor Data : Type}.
Context `{EqDecision Descriptor, Countable Data}.

(** A call on the pool. *)
Inductive call : Type :=
  | Add (data : Data) (desc : Descriptor)
  | Remove (data : Data).

Definition run_call (c : call) : M (PersistentPool.t Descriptor Data) unit :=
  match c with
  | Add data desc => PersistentPool.add data desc
  | Remove data => PersistentPool.remove data
  end.

(** Calls one after the other. *)
Fixpoint run (calls : list call) : M (PersistentPool.t Descriptor Data) unit :=
  match calls with
  | [] => ret tt
  | c :: calls' => run_call c ;;; run calls'
  end.

(** What a call contributes to the number of references to [x] that
    are outstanding. *)
Definition delta (x : Data) (c : call) : Z :=
  match c with
  | Add data _ => if bool_decide (data = x) then 1 else 0
  | Remove data => if bool_decide (data = x) then -1 else 0
  end.

(** The adds of [x] among the calls minus the removes of [x]. *)
Fixpoint balance (x : Data) (calls : list call) : Z :=
  match calls with
  | [] => 0
  | c :: calls' => delta x c + balance x calls'
  end.

(** The descriptor of the last add of [x] among the calls. *)
Fixpoint last_added (x : Data) (calls : list call) : option Descriptor :=
  match calls with
  | [] => None
  | c :: calls' =>
      match last_added x calls' with
      | Some d => Some d
      | None =>
          match c with
          | Add data d => if bool_decide (data = x) then Some d else None
          | Remove _ => None
          end
      end
  end.

(** The refcount the pool holds for [x]; none is zero. *)
Definition refcount (p : PersistentPool.t Descriptor Data) (x : Data) : Z :=
  match PersistentPool._map p !! x with
  | Some (_, c) => c
  | None => 0
  end.

(** Every entry has a refcount from one to [n]. *)
Definition bounded (n : Z) (p : PersistentPool.t Descriptor Data) : Prop :=
  forall x d c, PersistentPool._map p !! x = Some (d, c) -> (1 <= c <= n)%Z.
End PoolTrace.
Arguments call : clear implicits.
End PoolTrace.

(** ** What the registry's descriptors say *)

Module RegistryContents.
Import StorageDescriptor TypeStorage.
Section RegistryContents.
Context {G : Type}.
Variable definitions : klass -> option StorageDefinition.

(** The slot that describes member [m] once the registry has the
    descriptor of the member's class: it points to that descriptor and
    carries the handle type and the offset of the member. *)
Definition slot_of (w : World G) (m : Member) : Slot :=
  BuildSlot (static_storage w (member_class m)) (member_handleType m)
            (member_offset m).

(** The members a storage definition names, the array member first. *)
Definition members (d : StorageDefinition) : list Member :=
  match def_array d with
  | SlotEmpty => []
  | ArraySlot a => [a]
  end ++ def_values d.

(** Descriptor [sd] says of definition [d] what the registry records:
    the size of the class, whether it has an array, the slot of the
    array member, the number of declared members and, of their slots,
    the one of the last member, which is at index 0; no other index
    holds a slot.  The classes of all members have a descriptor in the
    registry. *)
Definition describes (w : World G) (d : StorageDefinition) (sd : SD) : Prop :=
  _sizeWithEmptyArray sd = Z.pos (def_sizeof d)
  /\ _hasArray sd = def_hasArray d
  /\ _array sd = match def_array d with
                 | SlotEmpty => Slot_empty
                 | ArraySlot a => slot_of w a
                 end
  /\ _numValues sd = length (def_values d)
  /\ _values sd = match last (def_values d) with
                  | Some m => {[ 0 := slot_of w m ]}
                  | None => ∅
                  end
  /\ forall m, m ∈ members d -> static_storage w (member_class m) <> SDNull.

(** Every class outside [pending] whose static is set has a constructed
    descriptor that says what the class's definition declares. *)
Definition faithful (pending : gset klass) (w : World G) : Prop :=
  forall k : klass, k ∉ pending -> static_storage w k <> SDNull ->
    exists d b sd, definitions k = Some d
                   /\ static_storage w k = SDAt b
                   /\ blocks (memory w) !! b = Some (Constructed sd)
                   /\ describes w d sd.
End RegistryContents.
End RegistryContents.

Module ByValue.
Import TypeStorage.
(** Two classes that refer to each other the way [StorageDescriptor]
    and its [Slot] do: [Outer] (class 0) holds an [Inner] by value, in a
    [MemberVal<Inner>] at offset 0, and [Inner] (class 1) holds a
    [MemberRef<Outer>] at offset 0. *)
Definition Outer : klass := 0.
Definition Inner : klass := 1.

Definition definitions (k : klass) : option StorageDefinition :=
  match k with
  | 0 => Some (ARW_DEFINE_STORAGE_1 8 (BuildMember Inner VALUE 0))
  | 1 => Some (ARW_DEFINE_STORAGE_1 8 (BuildMember Outer REFERENCE 0))
  | _ => None
  end.
End ByValue.

(** ** storage/optional.h *)

Module Optional.

(** Which of the three overloads of the private [assign] the traits of
    [T] select: the type is constructible and assignable (by copy, or by
    move), constructible only, or assignable only. *)
Inductive traits : Type :=
  | ConstructAndAssign
  | ConstructOnly
  | AssignOnly.

(** A call of a special member function of [T] on the object in the
    storage of the [Optional] at an address. *)
Inductive Event : Type :=
  | Constructed (optional : nat)
  | Destroyed (optional : nat)
  | Assigned (optional : nat).

#[global] Instance Event_eq_dec : EqDecision Event.
Proof. solve_decision. Defined.

Section Optional.
Context {T : Type}.
(** What the copy and the move overload of [assign] are. *)
Variables copy_traits move_traits : traits.
(** The value of a [T] that was moved from, and of [T()]. *)
Variable moved_from : T -> T.
Variable default_value : T.
(** [operator==] and [operator<] of [T]. *)
Variables T_eq T_lt : T -> T -> bool.

(** The first [sizeof(storage_type)] bytes of [_data], where [memory()]
    points: they hold a [T] object or they do not. *)
Inductive storage : Type :=
  | Indeterminate
  | Object (v : T).

(** [char _data[sizeof(storage_type)+1]]: the storage and the flag in
    the last byte. *)
Record t : Type := Build { _memory : storage; _set : bool }.

(** The [Optional] objects that exist, by address, and the calls of
    [T]'s special member functions so far. *)
Record State : Type := BuildState {
  objects : gmap nat t;
  events : list Event
}.

Definition empty_state : State := BuildState ∅ [].

(** The [Optional] at an address; there has to be one. *)
Definition object (this : nat) : M State t :=
  fun st =>
    match objects st !! this with
    | Some o => Returned o st
    | None => Undefined
    end.

Definition put (this : nat) (o : t) : M State unit :=
  modify_state (fun st => BuildState (<[this := o]> (objects st)) (events st)).

Definition record (e : Event) : M State unit :=
  modify_state (fun st => BuildState (objects st) (events st ++ [e])).

(** A reference to a [T]: to an object of the caller, or to the one in
    the storage of an [Optional]. *)
Inductive T_ref : Type :=
  | External (v : T)
  | Payload (optional : nat).

(** Reading through a pointer to the storage, [*memory()]. *)
Definition memory (this : nat) : M State T :=
  o <~ object this ;;
  match _memory o with
  | Object v => ret v
  | Indeterminate => undefined_behaviour
  end.

Definition read_ref (r : T_ref) : M State T :=
  match r with
  | External v => ret v
  | Payload a => memory a
  end.

(** What a move leaves behind in the object it moved from. *)
Definition leave_moved_from (r : T_ref) : M State unit :=
  match r with
  | External _ => ret tt
  | Payload a =>
      o <~ object a ;;
      match _memory o with
      | Object v => put a (Build (Object (moved_from v)) (_set o))
      | Indeterminate => undefined_behaviour
      end
  end.

Definition isSet (this : nat) : M State bool :=
  o <~ object this ;; ret (_set o).

(** [explicit operator bool() const] is [return isSet();] *)
Definition operator_bool (this : nat) : M State bool := isSet this.

Definition setSet (this : nat) (set : bool) : M State unit :=
  o <~ object this ;; put this (Build (_memory o) set).

(** [memory()->~T()] *)
Definition invokeDestructor (this : nat) : M State unit :=
  o <~ object this ;;
  match _memory o with
  | Object _ => put this (Build Indeterminate (_set o)) ;;; record (Destroyed this)
  | Indeterminate => undefined_behaviour
  end.

(** [::new(memory()) T(val)] *)
Definition copyConstruct (this : nat) (val : T_ref) : M State unit :=
  v <~ read_ref val ;;
  o <~ object this ;;
  put this (Build (Object v) (_set o)) ;;;
  record (Constructed this).

(** [::new(memory()) T(std::move(val))] *)
Definition moveConstruct (this : nat) (val : T_ref) : M State unit :=
  v <~ read_ref val ;;
  o <~ object this ;;
  put this (Build (Object v) (_set o)) ;;;
  record (Constructed this) ;;;
  leave_moved_from val.

(** [::new(memory()) T] *)
Definition defaultConstruct (this : nat) : M State unit :=
  o <~ object this ;;
  put this (Build (Object default_value) (_set o)) ;;;
  record (Constructed this).

(** [*memory() = by_copy]: there has to be an object to assign to. *)
Definition copyAssign (this : nat) (by_copy : T_ref) : M State unit :=
  v <~ read_ref by_copy ;;
  o <~ object this ;;
  match _memory o with
  | Object _ => put this (Build (Object v) (_set o)) ;;; record (Assigned this)
  | Indeterminate => undefined_behaviour
  end.

(** [*memory() = std::move(by_move)] *)
Definition moveAssign (this : nat) (by_move : T_ref) : M State unit :=
  v <~ read_ref by_move ;;
  o <~ object this ;;
  match _memory o with
  | Object _ =>
      put this (Build (Object v) (_set o)) ;;;
      record (Assigned this) ;;;
      leave_moved_from by_move
  | Indeterminate => undefined_behaviour
  end.

Definition clear (this : nat) : M State unit :=
  s <~ isSet this ;;
  if s then invokeDestructor this ;;; setSet this false else ret tt.

(** The three overloads of [assign(argument_type by_copy)]. *)
Definition assign_by_copy (this : nat) (by_copy : T_ref) : M State unit :=
  match copy_traits with
  | ConstructAndAssign =>
      s <~ isSet this ;;
      if s then copyAssign this by_copy
      else copyConstruct this by_copy ;;; setSet this true
  | ConstructOnly =>
      s <~ isSet this ;;
      (if s then clear this else ret tt) ;;;
      copyConstruct this by_copy ;;;
      setSet this true
  | AssignOnly =>
      s <~ isSet this ;;
      (if negb s then defaultConstruct this ;;; setSet this true else ret tt) ;;;
      copyAssign this by_copy
  end.

(** The three overloads of [assign(value_type&& by_move)]. *)
Definition assign_by_move (this : nat) (by_move : T_ref) : M State unit :=
  match move_traits with
  | ConstructAndAssign =>
      s <~ isSet this ;;
      if s then moveAssign this by_move
      else moveConstruct this by_move ;;; setSet this true
  | ConstructOnly =>
      s <~ isSet this ;;
      (if s then clear this else ret tt) ;;;
      moveConstruct this by_move ;;;
      setSet this true
  | AssignOnly =>
      s <~ isSet this ;;
      (if negb s then defaultConstruct this ;;; setSet this true else ret tt) ;;;
      moveAssign this by_move
  end.

(** The storage of a new object at [this]; nothing is in it yet. *)
Definition allocate (this : nat) : M State unit :=
  put this (Build Indeterminate false).

(** [Optional() { setSet(false); }] *)
Definition construct_default (this : nat) : M State unit :=
  allocate this ;;; setSet this false.

(** [Optional(const Optional<T>& other)] *)
Definition construct_copy (this other : nat) : M State unit :=
  allocate this ;;;
  setSet this false ;;;
  s <~ operator_bool other ;;
  if s then assign_by_copy this (Payload other) else ret tt.

(** [Optional(Optional<T>&& other)] *)
Definition construct_move (this other : nat) : M State unit :=
  allocate this ;;;
  setSet this false ;;;
  s <~ operator_bool other ;;
  if s then assign_by_move this (Payload other) ;;; clear other else ret tt.

(** [explicit Optional(argument_type other)] *)
Definition construct_from_value (this : nat) (other : T) : M State unit :=
  allocate this ;;; setSet this false ;;; assign_by_copy this (External other).

(** [explicit Optional(value_type&& other)] *)
Definition construct_from_rvalue (this : nat) (other : T) : M State unit :=
  allocate this ;;; setSet this false ;;; assign_by_move this (External other).

(** [~Optional() { clear(); }]; the object is gone afterwards. *)
Definition destruct (this : nat) : M State unit :=
  clear this ;;;
  modify_state (fun st => BuildState (delete this (objects st)) (events st)).

(** [operator=(const Optional<T>& other)] *)
Definition assign_copy (this other : nat) : M State unit :=
  s <~ operator_bool other ;;
  if s then assign_by_copy this (Payload other) else clear this.

(** [operator=(Optional<T>&& other)] *)
Definition assign_move (this other : nat) : M State unit :=
  s <~ operator_bool other ;;
  if s then assign_by_move this (Payload other) ;;; clear other
  else clear this.

(** [operator=(argument_type other)] *)
Definition assign_value (this : nat) (other : T) : M State unit :=
  assign_by_copy this (External other).

(** [operator=(value_type&& other)] *)
Definition assign_rvalue (this : nat) (other : T) : M State unit :=
  assign_by_move this (External other).

(** [get()]: [isSet() ? memory() : nullptr], a pointer into the storage
    of the [Optional] at the address it returns, or null. *)
Definition get (this : nat) : M State (option nat) :=
  s <~ isSet this ;; ret (if s then Some this else None).

(** [operator*()] is [return *get();] *)
Definition operator_star (this : nat) : M State T :=
  p <~ get this ;;
  match p with
  | Some a => memory a
  | None => undefined_behaviour
  end.

(** [std::swap(T&, T&)] on the objects of two optionals: a temporary is
    move-constructed from the first, the first is move-assigned from the
    second, the second from the temporary. *)
Definition swap_objects (lhs rhs : nat) : M State unit :=
  tmp <~ memory lhs ;;
  leave_moved_from (Payload lhs) ;;;
  moveAssign lhs (Payload rhs) ;;;
  moveAssign rhs (External tmp).

(** [std::swap(arw::Optional<T>& lhs, arw::Optional<T>& rhs)] *)
Definition swap (lhs rhs : nat) : M State unit :=
  l <~ operator_bool lhs ;;
  r <~ operator_bool rhs ;;
  if negb l && negb r then ret tt
  else if negb r then assign_move rhs lhs
  else if negb l then assign_move lhs rhs
  else
    p <~ get lhs ;;
    q <~ get rhs ;;
    match p, q with
    | Some a, Some b => swap_objects a b
    | _, _ => undefined_behaviour
    end.

(** *** The comparison operators

    They take their operands by reference to const and only read them:
    [!x] is the flag, [*x] reads the object when the flag is set (a null
    pointer otherwise).  [None] is undefined behaviour. *)
Definition deref (x : t) : option T :=
  if _set x then
    match _memory x with
    | Object v => Some v
    | Indeterminate => None
    end
  else None.

(** Optional vs Optional *)
Definition eq (x y : t) : option bool :=
  if negb (_set x) && negb (_set y) then Some true
  else if _set x && _set y then
    a ← deref x; b ← deref y; Some (T_eq a b)
  else Some false.

Definition lt (x y : t) : option bool :=
  if negb (_set y) then Some false
  else if negb (_set x) then Some true
  else a ← deref x; b ← deref y; Some (T_lt a b).

Definition ne (x y : t) : option bool := negb <$> eq x y.
Definition gt (x y : t) : option bool := lt y x.
Definition le (x y : t) : option bool := negb <$> gt x y.
Definition ge (x y : t) : option bool := negb <$> lt x y.

(** Optional vs T, which the T vs Optional operators below call. *)
Definition eq_value (x : t) (y : T) : option bool :=
  if _set x then a ← deref x; Some (T_eq a y) else Some false.

Definition lt_value (x : t) (y : T) : option bool :=
  if negb (_set x) then Some true else a ← deref x; Some (T_lt a y).

(** T vs Optional *)
Definition value_eq (x : T) (y : t) : option bool :=
  if _set y then b ← deref y; Some (T_eq x b) else Some false.

Definition value_lt (x : T) (y : t) : option bool :=
  if negb (_set y) then Some false else b ← deref y; Some (T_lt x b).

Definition value_ne (x : T) (y : t) : option bool := negb <$> value_eq x y.
(** [operator>(x, y)] is [return y < x;], Optional vs T. *)
Definition value_gt (x : T) (y : t) : option bool := lt_value y x.
Definition value_le (x : T) (y : t) : option bool := negb <$> value_gt x y.
Definition value_ge (x : T) (y : t) : option bool := negb <$> value_lt x y.

(** Optional vs T, the rest. *)
Definition ne_value (x : t) (y : T) : option bool := negb <$> eq_value x y.
(** [operator>(x, y)] is [return y < x;], T vs Optional. *)
Definition gt_value (x : t) (y : T) : option bool := value_lt y x.
Definition le_value (x : t) (y : T) : option bool := negb <$> gt_value x y.
Definition ge_value (x : t) (y : T) : option bool := negb <$> lt_value x y.

(** *** What the theorems speak of *)

(** Exactly one of three conditions holds. *)
Definition exactly_one (a b c : bool) : Prop :=
  (a && negb b && negb c) || (negb a && b && negb c) || (negb a && negb b && c)
  = true.

(** [operator<] of [T] is a strict total order, with [operator==] as
    its equality. *)
Definition strict_total_order : Prop :=
  (forall a b, exactly_one (T_lt a b) (T_eq a b) (T_lt b a))
  /\ (forall a b c, T_lt a b = true -> T_lt b c = true -> T_lt a c = true).


(** An [Optional] that holds [v], and one that holds nothing. *)
Definition holding (v : T) : t := Build (Object v) true.
Definition nothing : t := Build Indeterminate false.

(** The value an [Optional] holds, if it is set. *)
Definition content (o : t) : option T := deref o.

(** The value the [Optional] at [a] holds; none when it is not set or
    when there is no [Optional]. *)
Definition content_of (st : State) (a : nat) : option T :=
  o ← objects st !! a; content o.

(** The flag says whether the storage holds an object. *)
Definition well_formed (o : t) : Prop :=
  match _memory o with
  | Object _ => _set o = true
  | Indeterminate => _set o = false
  end.

(** How often a call occurs among the events. *)
Definition occurrences (e : Event) (log : list Event) : nat :=
  length (filter (fun e' => e' = e) log).

(** How many objects were constructed in the storage of the optional
    at [a] and not destroyed since. *)
Definition live (log : list Event) (a : nat) : Z :=
  Z.of_nat (occurrences (Constructed a) log)
  - Z.of_nat (occurrences (Destroyed a) log).

(** Every [Optional] that exists is well formed and has one live object
    in its storage when it is set and none when it is not; where no
    [Optional] exists, no object lives. *)
Definition consistent (st : State) : Prop :=
  forall a,
    match objects st !! a with
    | Some o => well_formed o
                /\ live (events st) a = if _set o then 1%Z else 0%Z
    | None => live (events st) a = 0%Z
    end.

(** The operations of the public interface. *)
Inductive call : Type :=
  | New (this : nat)
  | NewCopy (this other : nat)
  | NewMove (this other : nat)
  | NewFromValue (this : nat) (v : T)
  | NewFromRvalue (this : nat) (v : T)
  | Delete (this : nat)
  | AssignCopy (this other : nat)
  | AssignMove (this other : nat)
  | AssignValue (this : nat) (v : T)
  | AssignRvalue (this : nat) (v : T)
  | Clear (this : nat)
  | Swap (lhs rhs : nat).

Definition run_call (c : call) : M State unit :=
  match c with
  | New this => construct_default this
  | NewCopy this other => construct_copy this other
  | NewMove this other => construct_move this other
  | NewFromValue this v => construct_from_value this v
  | NewFromRvalue this v => construct_from_rvalue this v
  | Delete this => destruct this
  | AssignCopy this other => assign_copy this other
  | AssignMove this other => assign_move this other
  | AssignValue this v => assign_value this v
  | AssignRvalue this v => assign_rvalue this v
  | Clear this => clear this
  | Swap lhs rhs => swap lhs rhs
  end.

(** A call is proper when a constructor runs where no [Optional] is
    yet, every other operand is an [Optional] that exists, and no
    object of a type that can be constructed but not assigned is
    assigned to itself. *)
Definition exists_at (st : State) (a : nat) : Prop := is_Some (objects st !! a).

Definition proper (st : State) (c : call) : Prop :=
  match c with
  | New this | NewFromValue this _ | NewFromRvalue this _ =>
      objects st !! this = None
  | NewCopy this other | NewMove this other =>
      objects st !! this = None /\ exists_at st other
  | Delete this | AssignValue this _ | AssignRvalue this _ | Clear this =>
      exists_at st this
  | AssignCopy this other =>
      exists_at st this /\ exists_at st other
      /\ (this = other -> copy_traits <> ConstructOnly)
  | AssignMove this other =>
      exists_at st this /\ exists_at st other
      /\ (this = other -> move_traits <> ConstructOnly)
  | Swap lhs rhs => exists_at st lhs /\ exists_at st rhs
  end.

(** The states a program gets to by proper calls from the state in
    which no [Optional] exists. *)
Inductive reachable : State -> Prop :=
  | reachable_empty : reachable empty_state
  | reachable_call (st st' : State) (c : call) :
      reachable st -> proper st c -> run_call c st = Returned tt st' ->
      reachable st'.
End Optional.

Arguments storage : clear implicits.
Arguments t : clear implicits.
Arguments State : clear implicits.
Arguments T_ref : clear implicits.
Arguments call : clear implicits.
End Optional.

(** ** handle.h: [std::swap] on handles *)

Module HandleSwap.
Section HandleSwap.
Context {T Ptr W : Type} `{Countable Ptr}.
Variable Type_ : HandleType.
Variable hooks : Hooks T Ptr W.

(** The state of the hooks and the objects handles refer to, by
    address. *)
Record Heap : Type := BuildHeap {
  hook_state : W;
  objects : gmap Ptr T
}.

(** Handle code only touches the state of the hooks. *)
Definition with_hooks {A} (m : M W A) : M Heap A :=
  fun heap =>
    match m (hook_state heap) with
    | Returned a w => Returned a (BuildHeap w (objects heap))
    | Aborted w => Aborted (BuildHeap w (objects heap))
    | Undefined => Undefined
    | OutOfFuel => OutOfFuel
    end.

(** [std::swap(T& a, T& b)] on two objects of the heap: each has the
    value of the other afterwards.  Both have to exist. *)
Definition swap_objects (p q : Ptr) : M Heap unit :=
  fun heap =>
    match objects heap !! p, objects heap !! q with
    | Some a, Some b =>
        Returned tt
          (BuildHeap (hook_state heap) (<[q := a]> (<[p := b]> (objects heap))))
    | _, _ => Undefined
    end.

(** [std::swap(arw::Handle& lhs, arw::Handle& rhs)] is
    [std::swap( *lhs, *rhs);].  The two operands [*lhs] and [*rhs] are
    evaluated in an order the language leaves open, [lhs_first] says
    which; when both name one handle the second read finds what the
    first left.  A value handle's [*] is its own payload, so the
    payloads change places; a reference handle's [*] is the object the
    read hook's result points to, so the two objects change values. *)
Definition swap (lhs_first : bool) (lhs rhs : nat)
    (hl hr : Handle.t T Ptr Type_)
    : M Heap (Handle.t T Ptr Type_ * Handle.t T Ptr Type_) :=
  reads <~ (if lhs_first then
              rl <~ with_hooks (Handle.get Type_ hooks lhs hl) ;;
              rr <~ with_hooks (Handle.get Type_ hooks rhs
                                  (if decide (lhs = rhs) then snd rl else hr)) ;;
              ret (rl, rr)
            else
              rr <~ with_hooks (Handle.get Type_ hooks rhs hr) ;;
              rl <~ with_hooks (Handle.get Type_ hooks lhs
                                  (if decide (lhs = rhs) then snd rr else hl)) ;;
              ret (rl, rr)) ;;
  let '((pl, hl'), (pr, hr')) := reads in
  match pl, pr with
  | Handle.payload_of _, Handle.payload_of _ =>
      if decide (lhs = rhs) then ret (hl', hr') else ret (hr', hl')
  | Handle.object_at p, Handle.object_at q =>
      swap_objects p q ;;; ret (hl', hr')
  | _, _ => undefined_behaviour
  end.

(** A read hook that hands out the stored pointer and leaves it in
    place. *)
Definition transparent_hooks : Prop :=
  forall this stored w, exists w', read hooks this stored w = (stored, stored, w').
End HandleSwap.
Arguments Heap : clear implicits.
Arguments Heap T Ptr W {_ _}.
Arguments BuildHeap {T Ptr W _ _} _ _.
End HandleSwap.

(** The hook set the comment on [arw::Handle] shows: [created] and
    [destroyed] do nothing, [read] returns the stored pointer and
    [write] stores the one it is given. *)
Definition HandleHooks {T Ptr : Type} : Hooks T Ptr unit := {|
  created := fun _ _ _ w => w;
  destroyed := fun _ _ _ w => w;
  read := fun _ stored w => (stored, stored, w);
  write := fun _ _ value w => (value, w)
|}.

(** ** lexer.h and lexer.cc *)

Module Lexer.
Import String.StringSyntax Ascii.AsciiSyntax.
Delimit Scope string_scope with string.
Delimit Scope char_scope with char.

Inductive Radix : Type := BINARY | OCTAL | DECIMAL | HEX.

(** The number types as lexer.cc names them; it passes
    [P_UNSPECIFIED] for a number without a type letter. *)
Inductive NumberType : Type :=
  | P_UNSPECIFIED
  | P_SIGNED
  | P_UNSIGNED
  | P_IMPRECISE.

(** [struct Position]; the three fields are [uint64_t]. *)
Record Position : Type := BuildPosition {
  offset : Z;
  line : Z;
  column : Z
}.

(** The methods of [Receiver] the lexer calls, with their arguments
    after the position. *)
Inductive Callback : Type :=
  | error (message : String.string)
  | openBrace
  | closeBrace
  | openBracket
  | closeBracket
  | openParen
  | closeParen
  | semicolon
  | quote
  | greaterThan
  | lessThan
  | at_
  | comma
  | colon
  | doubleColon
  | arrow
  | doubleArrow
  | stringBegin
  | stringEnd
  | regexBegin
  | regexEnd
  | charBegin
  | charEnd
  | commentBegin
  | commentEnd
  | numberBegin (negative : bool) (radix : Radix)
  | numberEnd (type : NumberType) (precision : Z)
  | symbolBegin
  | symbolEnd.
Arguments error message%_string.

(** [enum class State], in the order of the declaration.  lexer.cc has
    no case for the two [UNDERSCORE] states. *)
Inductive State : Type :=
  | ENDED
  | ENDED_REPORTED_ERROR
  | IN_WHITESPACE
  | IN_WHITESPACE_GOT_N
  | IN_WHITESPACE_GOT_R
  | IN_COMMENT
  | IN_COMMENT_GOT_N
  | IN_COMMENT_GOT_R
  | IN_SYMBOL
  | IN_STRING
  | IN_STRING_GOT_ESCAPE
  | IN_STRING_GOT_N
  | IN_STRING_GOT_R
  | IN_REGEX
  | IN_REGEX_GOT_ESCAPE
  | IN_REGEX_GOT_N
  | IN_REGEX_GOT_R
  | IN_CHAR
  | IN_CHAR_GOT_ESCAPE
  | IN_CHAR_GOT_N
  | IN_CHAR_GOT_R
  | IN_NUMBER
  | IN_NUMBER_JUST_GOT_UNDERSCORE
  | IN_NUMBER_JUST_GOT_UNDERSCORE_GOT_DOT
  | IN_NUMBER_JUST_GOT_DOT
  | IN_NUMBER_GOT_DOT
  | GOT_QUOTE
  | GOT_DASH
  | GOT_EQUALS
  | GOT_COLON
  | GOT_ZERO
  | GOT_ZERO_NEGATIVE
  | GOT_NUMBER_TYPE_I
  | GOT_NUMBER_TYPE_U
  | GOT_NUMBER_TYPE_F
  | GOT_NUMBER_PRECISION_I_0
  | GOT_NUMBER_PRECISION_I_1
  | GOT_NUMBER_PRECISION_I_2
  | GOT_NUMBER_PRECISION_I_3
  | GOT_NUMBER_PRECISION_I_4
  | GOT_NUMBER_PRECISION_I_5
  | GOT_NUMBER_PRECISION_I_6
  | GOT_NUMBER_PRECISION_I_7
  | GOT_NUMBER_PRECISION_I_8
  | GOT_NUMBER_PRECISION_I_9
  | GOT_NUMBER_PRECISION_U_0
  | GOT_NUMBER_PRECISION_U_1
  | GOT_NUMBER_PRECISION_U_2
  | GOT_NUMBER_PRECISION_U_3
  | GOT_NUMBER_PRECISION_U_4
  | GOT_NUMBER_PRECISION_U_5
  | GOT_NUMBER_PRECISION_U_6
  | GOT_NUMBER_PRECISION_U_7
  | GOT_NUMBER_PRECISION_U_8
  | GOT_NUMBER_PRECISION_U_9
  | GOT_NUMBER_PRECISION_F_0
  | GOT_NUMBER_PRECISION_F_1
  | GOT_NUMBER_PRECISION_F_2
  | GOT_NUMBER_PRECISION_F_3
  | GOT_NUMBER_PRECISION_F_4
  | GOT_NUMBER_PRECISION_F_5
  | GOT_NUMBER_PRECISION_F_6
  | GOT_NUMBER_PRECISION_F_7
  | GOT_NUMBER_PRECISION_F_8
  | GOT_NUMBER_PRECISION_F_9
  | GOT_NUMBER_PRECISION_2
  | GOT_NUMBER_PRECISION_3.

#[global] Instance State_eq_dec : EqDecision State.
Proof. solve_decision. Defined.

(** The states in the order of the declaration: a state's enumerator
    value is its index in this list. *)
Definition states : list State :=
  [ENDED; ENDED_REPORTED_ERROR; IN_WHITESPACE; IN_WHITESPACE_GOT_N;
   IN_WHITESPACE_GOT_R; IN_COMMENT; IN_COMMENT_GOT_N; IN_COMMENT_GOT_R;
   IN_SYMBOL; IN_STRING; IN_STRING_GOT_ESCAPE; IN_STRING_GOT_N;
   IN_STRING_GOT_R; IN_REGEX; IN_REGEX_GOT_ESCAPE; IN_REGEX_GOT_N;
   IN_REGEX_GOT_R; IN_CHAR; IN_CHAR_GOT_ESCAPE; IN_CHAR_GOT_N; IN_CHAR_GOT_R;
   IN_NUMBER; IN_NUMBER_JUST_GOT_UNDERSCORE;
   IN_NUMBER_JUST_GOT_UNDERSCORE_GOT_DOT; IN_NUMBER_JUST_GOT_DOT;
   IN_NUMBER_GOT_DOT; GOT_QUOTE; GOT_DASH; GOT_EQUALS; GOT_COLON; GOT_ZERO;
   GOT_ZERO_NEGATIVE; GOT_NUMBER_TYPE_I; GOT_NUMBER_TYPE_U; GOT_NUMBER_TYPE_F;
   GOT_NUMBER_PRECISION_I_0; GOT_NUMBER_PRECISION_I_1;
   GOT_NUMBER_PRECISION_I_2; GOT_NUMBER_PRECISION_I_3;
   GOT_NUMBER_PRECISION_I_4; GOT_NUMBER_PRECISION_I_5;
   GOT_NUMBER_PRECISION_I_6; GOT_NUMBER_PRECISION_I_7;
   GOT_NUMBER_PRECISION_I_8; GOT_NUMBER_PRECISION_I_9;
   GOT_NUMBER_PRECISION_U_0; GOT_NUMBER_PRECISION_U_1;
   GOT_NUMBER_PRECISION_U_2; GOT_NUMBER_PRECISION_U_3;
   GOT_NUMBER_PRECISION_U_4; GOT_NUMBER_PRECISION_U_5;
   GOT_NUMBER_PRECISION_U_6; GOT_NUMBER_PRECISION_U_7;
   GOT_NUMBER_PRECISION_U_8; GOT_NUMBER_PRECISION_U_9;
   GOT_NUMBER_PRECISION_F_0; GOT_NUMBER_PRECISION_F_1;
   GOT_NUMBER_PRECISION_F_2; GOT_NUMBER_PRECISION_F_3;
   GOT_NUMBER_PRECISION_F_4; GOT_NUMBER_PRECISION_F_5;
   GOT_NUMBER_PRECISION_F_6; GOT_NUMBER_PRECISION_F_7;
   GOT_NUMBER_PRECISION_F_8; GOT_NUMBER_PRECISION_F_9;
   GOT_NUMBER_PRECISION_2; GOT_NUMBER_PRECISION_3].

(** [static_cast<int>(state)] *)
Definition to_int (state : State) : Z :=
  match list_find (fun s => s = state) states with
  | Some (i, _) => Z.of_nat i
  | None => -1
  end.

(** [static_cast<State>(n)]; an [n] that is no enumerator value does not
    arise. *)
Definition of_int (n : Z) : option State :=
  if bool_decide (0 <= n)%Z then states !! Z.to_nat n else None.

(** The lexer object: the calls its receiver [_recv] got so far, each
    with its position, and the four data members. *)
Record t : Type := Build {
  _recv : list (Position * Callback);
  _offset : Z;
  _line : Z;
  _column : Z;
  _state : State
}.

(** [uint64_t] arithmetic. *)
Definition uint64 (z : Z) : Z := z mod 2 ^ 64.

(** The code point of a character literal, and ['a' == chr]. *)
Definition code (a : Ascii.ascii) : Z := Z.of_N (Ascii.N_of_ascii a).
Arguments code a%_char.
Definition eqc (a : Ascii.ascii) (chr : Z) : bool := (code a =? chr)%Z.
Arguments eqc a%_char chr%_Z.

(** ['\n'], ['\r'], ['\t'], ['\0'], the double quote and the
    backslash. *)
Definition LF : Z := 10.
Definition CR : Z := 13.
Definition TAB : Z := 9.
Definition NUL : Z := 0.
Definition DOUBLE_QUOTE : Z := 34.
Definition BACKSLASH : Z := 92.

Definition isLetter (chr : Z) : bool :=
  ((code "a" <=? chr)%Z && (code "z" >=? chr)%Z)
  || ((code "A" <=? chr)%Z && (code "Z" >=? chr)%Z).

Definition isDigit (chr : Z) : bool :=
  (code "0" <=? chr)%Z && (code "9" >=? chr)%Z.

Definition isSymbolChar (chr : Z) : bool :=
  eqc "_" chr || eqc "-" chr || eqc "+" chr || eqc "!" chr || eqc "*" chr
  || eqc "%" chr || isLetter chr || isDigit chr || eqc "/" chr.

Definition isReservedChar (chr : Z) : bool :=
  eqc "$" chr || eqc "&" chr || eqc "|" chr || bool_decide (BACKSLASH = chr) || eqc "?" chr
  || eqc "`" chr || eqc "~" chr || eqc "^" chr.

Section Lexer.
(** Whether the build defines [DEBUG]. *)
Variable DEBUG : bool.

(** [Lexer(Receiver* recv)], on a receiver that is not null: the data
    members have their default member initialisers. *)
Definition new : t := Build [] 0 1 0 IN_WHITESPACE.

Definition set_state (state : State) : M t unit :=
  modify_state (fun lx => Build (_recv lx) (_offset lx) (_line lx) (_column lx) state).

(** A call [_recv->callback(position, ...)]. *)
Definition call (position : Position) (callback : Callback) : M t unit :=
  modify_state (fun lx =>
    Build (_recv lx ++ [(position, callback)]) (_offset lx) (_line lx)
          (_column lx) (_state lx)).

(** [makePosition(int offset)].  In the assertion [_column >= -offset]
    the [int] operand is converted to [uint64_t], as it is in the two
    sums. *)
Definition makePosition (offset : Z) : M t Position :=
  lx <~ get_state ;;
  ARW_ASSERT DEBUG (_column lx >=? uint64 (- offset))%Z ;;;
  ret (BuildPosition (uint64 (_offset lx + offset)) (_line lx)
                     (uint64 (_column lx + offset))).

(** [_recv->callback(makePosition(offset), ...)] *)
Definition report (offset : Z) (callback : Callback) : M t unit :=
  position <~ makePosition offset ;;
  call position callback.

(** [numberPrecisionDigit(State state)] *)
Definition numberPrecisionDigit (state : State) : M t Z :=
  let stateInt := to_int state in
  let in_group (baseState : State) : bool :=
    (to_int baseState <=? stateInt)%Z && (to_int baseState + 9 >=? stateInt)%Z in
  if in_group GOT_NUMBER_PRECISION_I_0
  then ret (stateInt - to_int GOT_NUMBER_PRECISION_I_0)%Z
  else if in_group GOT_NUMBER_PRECISION_U_0
  then ret (stateInt - to_int GOT_NUMBER_PRECISION_U_0)%Z
  else if in_group GOT_NUMBER_PRECISION_F_0
  then ret (stateInt - to_int GOT_NUMBER_PRECISION_F_0)%Z
  else ARW_ASSERT DEBUG false ;;; ret (-1)%Z.

(** [isNumberPrecision(State state, char32_t precision)] *)
Definition isNumberPrecision (state : State) (precision : Z) : M t bool :=
  baseState <~ (if eqc "i" precision then ret (to_int GOT_NUMBER_PRECISION_I_0)
                else if eqc "u" precision then ret (to_int GOT_NUMBER_PRECISION_U_0)
                else if eqc "f" precision then ret (to_int GOT_NUMBER_PRECISION_F_0)
                else ARW_ASSERT DEBUG false ;;;
                     ret (to_int GOT_NUMBER_PRECISION_I_0)) ;;
  ret (existsb (fun i => bool_decide (of_int (baseState + i) = Some state))
               (Z.of_nat <$> seq 0 10)).

(** [handleNewline(chr, lastNewline, nextState)], with the [lexChar] it
    calls. *)
Definition handleNewline (lexChar : Z -> M t unit) (chr lastNewline : Z)
    (nextState : State) : M t unit :=
  modify_state (fun lx =>
    Build (_recv lx) (_offset lx) (uint64 (_line lx + 1)) 0 nextState) ;;;
  if (bool_decide (LF = lastNewline) && negb (bool_decide (CR = chr)))
     || (bool_decide (CR = lastNewline) && negb (bool_decide (LF = chr)))
  then
    modify_state (fun lx =>
      Build (_recv lx) (_offset lx) (_line lx) (uint64 (_column lx + 1))
            (_state lx)) ;;;
    lexChar chr
  else ret tt.

(** [lexEndOfNumber(type, precision, chr)] *)
Definition lexEndOfNumber (type : NumberType) (precision chr : Z) : M t unit :=
  (if isSymbolChar chr
   then report 0 (error "Number immediately followed by symbol character")
   else ret tt) ;;;
  report 0 (numberEnd type precision) ;;;
  set_state IN_WHITESPACE.

(** The number type a state stands for, in the three states after
    [i], [u] and [f]; the [else] branch of the source asserts and
    leaves [type] unset. *)
Definition type_of_number_type_state (state : State) : M t NumberType :=
  if bool_decide (GOT_NUMBER_TYPE_I = state) then ret P_SIGNED
  else if bool_decide (GOT_NUMBER_TYPE_U = state) then ret P_UNSIGNED
  else if bool_decide (GOT_NUMBER_TYPE_F = state) then ret P_IMPRECISE
  else ARW_ASSERT DEBUG false ;;; undefined_behaviour.

(** The same for the thirty states after one precision digit. *)
Definition type_of_precision_state (state : State) : M t NumberType :=
  i <~ isNumberPrecision state (code "i") ;;
  if i then ret P_SIGNED
  else
    u <~ isNumberPrecision state (code "u") ;;
    if u then ret P_UNSIGNED
    else
      f <~ isNumberPrecision state (code "f") ;;
      if f then ret P_IMPRECISE
      else ARW_ASSERT DEBUG false ;;; undefined_behaviour.

(** [lexChar(chr)].  The recursion is bounded by [fuel]. *)
Fixpoint lexChar (fuel : nat) (chr : Z) : M t unit :=
  match fuel with
  | O => fun _ => OutOfFuel
  | S fuel' =>
      lx <~ get_state ;;
      match _state lx with
      | ENDED =>
          set_state ENDED_REPORTED_ERROR ;;;
          report 0 (error "Got stray data after end")
      | ENDED_REPORTED_ERROR => ret tt
      | IN_WHITESPACE =>
          if eqc " " chr then ret tt
          else if bool_decide (LF = chr) then set_state IN_WHITESPACE_GOT_N
          else if bool_decide (CR = chr) then set_state IN_WHITESPACE_GOT_R
          else if bool_decide (TAB = chr)
          then report 0 (error "Got tab in whitespace")
          else if eqc "{" chr then report 0 openBrace
          else if eqc "}" chr then report 0 closeBrace
          else if eqc "[" chr then report 0 openBracket
          else if eqc "]" chr then report 0 closeBracket
          else if eqc "(" chr then report 0 openParen
          else if eqc ")" chr then report 0 closeParen
          else if eqc ";" chr then report 0 semicolon
          else if eqc ">" chr then report 0 greaterThan
          else if eqc "<" chr then report 0 lessThan
          else if eqc "@" chr then report 0 at_
          else if eqc "," chr then report 0 comma
          else if eqc "-" chr then set_state GOT_DASH
          else if eqc "=" chr then set_state GOT_EQUALS
          else if eqc ":" chr then set_state GOT_COLON
          else if eqc "#" chr
          then set_state IN_COMMENT ;;; report 0 commentBegin
          else if bool_decide (DOUBLE_QUOTE = chr)
          then set_state IN_STRING ;;; report 0 stringBegin
          else if eqc "'" chr then set_state GOT_QUOTE
          else if bool_decide (NUL = chr) then set_state ENDED
          else if isSymbolChar chr && negb (isDigit chr)
          then report 0 symbolBegin ;;; set_state IN_SYMBOL
          else if eqc "0" chr then set_state GOT_ZERO
          else if isDigit chr
          then report 0 (numberBegin false DECIMAL) ;;; set_state IN_NUMBER
          else if eqc "." chr then report 0 (error "Encountered stray dot")
          else if isReservedChar chr
          then report 0 (error "Encountered reserved character")
          else report 0 (error "Encountered invalid character")
      | IN_WHITESPACE_GOT_N | IN_WHITESPACE_GOT_R =>
          handleNewline (lexChar fuel') chr
            (if bool_decide (IN_WHITESPACE_GOT_N = _state lx) then LF else CR)
            IN_WHITESPACE
      | IN_COMMENT =>
          if bool_decide (LF = chr) then set_state IN_COMMENT_GOT_N
          else if bool_decide (CR = chr) then set_state IN_COMMENT_GOT_R
          else if bool_decide (NUL = chr)
          then report 0 commentEnd ;;; set_state ENDED
          else ret tt
      | IN_COMMENT_GOT_N | IN_COMMENT_GOT_R =>
          report (-1) commentEnd ;;;
          handleNewline (lexChar fuel') chr
            (if bool_decide (IN_COMMENT_GOT_N = _state lx) then LF else CR)
            IN_WHITESPACE
      | IN_SYMBOL =>
          if isSymbolChar chr then ret tt
          else
            report 0 symbolEnd ;;;
            set_state IN_WHITESPACE ;;;
            lexChar fuel' chr
      | IN_STRING =>
          if bool_decide (LF = chr) then set_state IN_STRING_GOT_N
          else if bool_decide (CR = chr) then set_state IN_STRING_GOT_R
          else if bool_decide (BACKSLASH = chr) then set_state IN_STRING_GOT_ESCAPE
          else if bool_decide (DOUBLE_QUOTE = chr)
          then report 0 stringEnd ;;; set_state IN_WHITESPACE
          else if bool_decide (NUL = chr)
          then report 0 (error "Got end in string literal") ;;; set_state ENDED
          else ret tt
      | IN_STRING_GOT_ESCAPE =>
          if bool_decide (LF = chr) then set_state IN_STRING_GOT_N
          else if bool_decide (CR = chr) then set_state IN_STRING_GOT_R
          else if bool_decide (NUL = chr)
          then report 0 (error "Got end in string literal") ;;; set_state ENDED
          else set_state IN_STRING
      | IN_STRING_GOT_N | IN_STRING_GOT_R =>
          report 0 (error "Got newline in string literal") ;;;
          if bool_decide (NUL = chr)
          then report 0 (error "Got end in string literal") ;;; set_state ENDED
          else
            handleNewline (lexChar fuel') chr
              (if bool_decide (IN_STRING_GOT_N = _state lx) then LF else CR)
              IN_STRING
      | IN_REGEX =>
          if bool_decide (LF = chr) then set_state IN_REGEX_GOT_N
          else if bool_decide (CR = chr) then set_state IN_REGEX_GOT_R
          else if bool_decide (BACKSLASH = chr) then set_state IN_REGEX_GOT_ESCAPE
          else if eqc "/" chr
          then report 0 regexEnd ;;; set_state IN_WHITESPACE
          else if bool_decide (NUL = chr)
          then report 0 (error "Got end in regex literal") ;;; set_state ENDED
          else ret tt
      | IN_REGEX_GOT_ESCAPE =>
          if bool_decide (LF = chr) then set_state IN_REGEX_GOT_N
          else if bool_decide (CR = chr) then set_state IN_REGEX_GOT_R
          else if bool_decide (NUL = chr)
          then report 0 (error "Got end in regex literal") ;;; set_state ENDED
          else set_state IN_REGEX
      | IN_REGEX_GOT_N | IN_REGEX_GOT_R =>
          report 0 (error "Got newline in regex literal") ;;;
          if bool_decide (NUL = chr)
          then report 0 (error "Got end in regex literal") ;;; set_state ENDED
          else
            handleNewline (lexChar fuel') chr
              (if bool_decide (IN_REGEX_GOT_N = _state lx) then LF else CR)
              IN_REGEX
      | IN_CHAR =>
          if bool_decide (LF = chr) then set_state IN_CHAR_GOT_N
          else if bool_decide (CR = chr) then set_state IN_CHAR_GOT_R
          else if bool_decide (BACKSLASH = chr) then set_state IN_CHAR_GOT_ESCAPE
          else report 1 charEnd ;;; set_state IN_WHITESPACE
      | IN_CHAR_GOT_ESCAPE =>
          if bool_decide (LF = chr) then set_state IN_CHAR_GOT_N
          else if bool_decide (CR = chr) then set_state IN_CHAR_GOT_R
          else report 1 charEnd ;;; set_state IN_WHITESPACE
      | IN_CHAR_GOT_N | IN_CHAR_GOT_R =>
          report 0 (error "Got newline in character literal") ;;;
          handleNewline (lexChar fuel') chr
            (if bool_decide (IN_CHAR_GOT_N = _state lx) then LF else CR)
            IN_CHAR
      | IN_NUMBER | IN_NUMBER_JUST_GOT_DOT | IN_NUMBER_GOT_DOT =>
          (if bool_decide (IN_NUMBER_JUST_GOT_DOT = _state lx)
              && negb (isDigit chr)
           then report 0 (error "Got non-digit after decimal dot")
           else if bool_decide (IN_NUMBER_GOT_DOT = _state lx) && eqc "." chr
           then report 0 (error "Got two decimal dots in number")
           else ret tt) ;;;
          if isDigit chr then
            if bool_decide (IN_NUMBER_JUST_GOT_DOT = _state lx)
            then set_state IN_NUMBER_GOT_DOT
            else ret tt
          else if eqc "." chr then set_state IN_NUMBER_JUST_GOT_DOT
          else if eqc "i" chr || eqc "I" chr then set_state GOT_NUMBER_TYPE_I
          else if eqc "u" chr || eqc "U" chr then set_state GOT_NUMBER_TYPE_U
          else if eqc "f" chr || eqc "F" chr then set_state GOT_NUMBER_TYPE_F
          else lexEndOfNumber P_UNSPECIFIED (-1) chr
      | GOT_QUOTE =>
          if eqc "/" chr
          then report (-1) regexBegin ;;; set_state IN_REGEX
          else if eqc "'" chr
          then set_state IN_CHAR ;;; report (-1) charBegin
          else
            report (-1) quote ;;;
            set_state IN_WHITESPACE ;;;
            lexChar fuel' chr
      | GOT_DASH =>
          if eqc ">" chr then report (-1) arrow
          else if eqc "0" chr then set_state GOT_ZERO_NEGATIVE
          else if isDigit chr && negb (eqc "0" chr)
          then set_state IN_NUMBER ;;; report (-1) (numberBegin true DECIMAL)
          else
            set_state IN_SYMBOL ;;;
            report (-1) symbolBegin ;;;
            lexChar fuel' chr
      | GOT_EQUALS =>
          if eqc ">" chr then report (-1) doubleArrow
          else set_state IN_SYMBOL ;;; report 0 symbolBegin
      | GOT_COLON =>
          set_state IN_WHITESPACE ;;;
          if eqc ":" chr
          then report (-1) doubleColon ;;; set_state IN_WHITESPACE
          else
            report (-1) colon ;;;
            set_state IN_WHITESPACE ;;;
            lexChar fuel' chr
      | GOT_ZERO | GOT_ZERO_NEGATIVE =>
          let negative := bool_decide (GOT_ZERO_NEGATIVE = _state lx) in
          set_state IN_NUMBER ;;;
          pos <~ makePosition (if negative then -2 else -1) ;;
          if eqc "x" chr || eqc "X" chr then call pos (numberBegin negative HEX)
          else if eqc "b" chr || eqc "B" chr
          then call pos (numberBegin negative BINARY)
          else if eqc "o" chr || eqc "O" chr
          then call pos (numberBegin negative OCTAL)
          else if isDigit chr
          then call pos (numberBegin negative OCTAL) ;;; lexChar fuel' chr
          else call pos (numberBegin negative DECIMAL) ;;; lexChar fuel' chr
      | GOT_NUMBER_TYPE_I | GOT_NUMBER_TYPE_F | GOT_NUMBER_TYPE_U =>
          if isDigit chr then
            (if eqc "0" chr
             then report 0 (error "Number precision must not start with 0")
             else ret tt) ;;;
            let digit := (chr - code "0")%Z in
            stateOffset <~
              (if bool_decide (GOT_NUMBER_TYPE_I = _state lx)
               then ret (to_int GOT_NUMBER_PRECISION_I_0)
               else if bool_decide (GOT_NUMBER_TYPE_U = _state lx)
               then ret (to_int GOT_NUMBER_PRECISION_U_0)
               else if bool_decide (GOT_NUMBER_TYPE_F = _state lx)
               then ret (to_int GOT_NUMBER_PRECISION_F_0)
               else ARW_ASSERT DEBUG false ;;;
                    ret (to_int GOT_NUMBER_PRECISION_I_0)) ;;
            match of_int (stateOffset + digit) with
            | Some state => set_state state
            | None => undefined_behaviour
            end
          else
            type <~ type_of_number_type_state (_state lx) ;;
            lexEndOfNumber type (-1) chr
      | GOT_NUMBER_PRECISION_I_0 | GOT_NUMBER_PRECISION_I_1
      | GOT_NUMBER_PRECISION_I_2 | GOT_NUMBER_PRECISION_I_3
      | GOT_NUMBER_PRECISION_I_4 | GOT_NUMBER_PRECISION_I_5
      | GOT_NUMBER_PRECISION_I_6 | GOT_NUMBER_PRECISION_I_7
      | GOT_NUMBER_PRECISION_I_8 | GOT_NUMBER_PRECISION_I_9
      | GOT_NUMBER_PRECISION_U_0 | GOT_NUMBER_PRECISION_U_1
      | GOT_NUMBER_PRECISION_U_2 | GOT_NUMBER_PRECISION_U_3
      | GOT_NUMBER_PRECISION_U_4 | GOT_NUMBER_PRECISION_U_5
      | GOT_NUMBER_PRECISION_U_6 | GOT_NUMBER_PRECISION_U_7
      | GOT_NUMBER_PRECISION_U_8 | GOT_NUMBER_PRECISION_U_9
      | GOT_NUMBER_PRECISION_F_0 | GOT_NUMBER_PRECISION_F_1
      | GOT_NUMBER_PRECISION_F_2 | GOT_NUMBER_PRECISION_F_3
      | GOT_NUMBER_PRECISION_F_4 | GOT_NUMBER_PRECISION_F_5
      | GOT_NUMBER_PRECISION_F_6 | GOT_NUMBER_PRECISION_F_7
      | GOT_NUMBER_PRECISION_F_8 | GOT_NUMBER_PRECISION_F_9 =>
          type <~ type_of_precision_state (_state lx) ;;
          if isDigit chr then
            d <~ numberPrecisionDigit (_state lx) ;;
            let precision := (d * 10 + (chr - code "0"))%Z in
            report 1 (numberEnd type precision) ;;;
            set_state GOT_NUMBER_PRECISION_2
          else
            d <~ numberPrecisionDigit (_state lx) ;;
            lexEndOfNumber type d chr
      | GOT_NUMBER_PRECISION_2 | GOT_NUMBER_PRECISION_3 =>
          if isDigit chr then
            if bool_decide (GOT_NUMBER_PRECISION_2 = _state lx)
            then report 0 (error "Number precision must be at most 2 digits")
            else ret tt
          else
            (if isSymbolChar chr
             then report 0
                    (error "Number immediately followed by symbol character")
             else ret tt) ;;;
            set_state IN_WHITESPACE ;;;
            lexChar fuel' chr
      | IN_NUMBER_JUST_GOT_UNDERSCORE
      | IN_NUMBER_JUST_GOT_UNDERSCORE_GOT_DOT => ret tt
      end
  end.

(** [lex(begin, end)], on the characters from [begin] to [end]. *)
Fixpoint lex (fuel : nat) (input : list Z) : M t unit :=
  match input with
  | [] => ret tt
  | chr :: rest =>
      modify_state (fun lx =>
        Build (_recv lx) (_offset lx) (_line lx) (uint64 (_column lx + 1))
              (_state lx)) ;;;
      lexChar fuel chr ;;;
      modify_state (fun lx =>
        Build (_recv lx) (uint64 (_offset lx + 1)) (_line lx) (_column lx)
              (_state lx)) ;;;
      lex fuel rest
  end.
End Lexer.
End Lexer.

(** ** What the receiver of a lexer sees *)

Module LexerTrace.
Import Lexer.
Import String.StringSyntax Ascii.AsciiSyntax.

(** The six kinds of token the lexer reports with a begin and an end
    call. *)
Inductive Token : Type := COMMENT | STRING | REGEX | CHAR | NUMBER | SYMBOL.

#[global] Instance Token_eq_dec : EqDecision Token.
Proof. solve_decision. Defined.

Definition begin_ (open : option Token) (token : Token) : option (option Token) :=
  match open with
  | None => Some (Some token)
  | Some _ => None
  end.

Definition end_ (open : option Token) (token : Token) : option (option Token) :=
  if bool_decide (open = Some token) then Some None else None.

(** One call on the receiver, when [open] says which token has begun and
    not ended: a begin call needs that none is open, an end call that
    its own kind is, a call for a token of one or two characters that
    none is; an error can be reported at any time.  [None] is a call
    that breaks this. *)
Definition track (open : option Token) (callback : Callback)
    : option (option Token) :=
  match callback with
  | error _ => Some open
  | commentBegin => begin_ open COMMENT
  | commentEnd => end_ open COMMENT
  | stringBegin => begin_ open STRING
  | stringEnd => end_ open STRING
  | regexBegin => begin_ open REGEX
  | regexEnd => end_ open REGEX
  | charBegin => begin_ open CHAR
  | charEnd => end_ open CHAR
  | numberBegin _ _ => begin_ open NUMBER
  | numberEnd _ _ => end_ open NUMBER
  | symbolBegin => begin_ open SYMBOL
  | symbolEnd => end_ open SYMBOL
  | _ => match open with None => Some None | Some _ => None end
  end.

(** The calls of a log in turn, from no token open. *)
Definition check (log : list (Position * Callback)) : option (option Token) :=
  foldl (fun open call => open ≫= fun open => track open call.2) (Some None) log.

(** The token a state of the lexer is inside of. *)
Definition open_of (state : State) : option Token :=
  match state with
  | IN_COMMENT | IN_COMMENT_GOT_N | IN_COMMENT_GOT_R => Some COMMENT
  | IN_SYMBOL => Some SYMBOL
  | IN_STRING | IN_STRING_GOT_ESCAPE | IN_STRING_GOT_N | IN_STRING_GOT_R =>
      Some STRING
  | IN_REGEX | IN_REGEX_GOT_ESCAPE | IN_REGEX_GOT_N | IN_REGEX_GOT_R =>
      Some REGEX
  | IN_CHAR | IN_CHAR_GOT_ESCAPE | IN_CHAR_GOT_N | IN_CHAR_GOT_R => Some CHAR
  | ENDED | ENDED_REPORTED_ERROR | IN_WHITESPACE | IN_WHITESPACE_GOT_N
  | IN_WHITESPACE_GOT_R | GOT_QUOTE | GOT_DASH | GOT_EQUALS | GOT_COLON
  | GOT_ZERO | GOT_ZERO_NEGATIVE | GOT_NUMBER_PRECISION_2
  | GOT_NUMBER_PRECISION_3 => None
  | _ => Some NUMBER
  end.

Definition ended (state : State) : bool :=
  bool_decide (state = ENDED) || bool_decide (state = ENDED_REPORTED_ERROR).

(** The log of a lexer is in order and, unless the lexer has seen the
    end of the input, its state is inside the token the log leaves
    open. *)
Definition tracked (lx : t) : Prop :=
  exists open,
    check (_recv lx) = Some open
    /\ (ended (_state lx) = false -> open = open_of (_state lx)).

(** An outcome that is a return in a state with [P]. *)
Definition returns {A} (P : t -> Prop) (o : outcome t A) : Prop :=
  match o with
  | Returned _ lx => P lx
  | _ => False
  end.

(** The number type and the digit that a state after the first digit of
    a precision stands for. *)
Definition suffix_of (state : State) : option (NumberType * Z) :=
  match state with
  | GOT_NUMBER_PRECISION_I_0 => Some (P_SIGNED, 0%Z)
  | GOT_NUMBER_PRECISION_I_1 => Some (P_SIGNED, 1%Z)
  | GOT_NUMBER_PRECISION_I_2 => Some (P_SIGNED, 2%Z)
  | GOT_NUMBER_PRECISION_I_3 => Some (P_SIGNED, 3%Z)
  | GOT_NUMBER_PRECISION_I_4 => Some (P_SIGNED, 4%Z)
  | GOT_NUMBER_PRECISION_I_5 => Some (P_SIGNED, 5%Z)
  | GOT_NUMBER_PRECISION_I_6 => Some (P_SIGNED, 6%Z)
  | GOT_NUMBER_PRECISION_I_7 => Some (P_SIGNED, 7%Z)
  | GOT_NUMBER_PRECISION_I_8 => Some (P_SIGNED, 8%Z)
  | GOT_NUMBER_PRECISION_I_9 => Some (P_SIGNED, 9%Z)
  | GOT_NUMBER_PRECISION_U_0 => Some (P_UNSIGNED, 0%Z)
  | GOT_NUMBER_PRECISION_U_1 => Some (P_UNSIGNED, 1%Z)
  | GOT_NUMBER_PRECISION_U_2 => Some (P_UNSIGNED, 2%Z)
  | GOT_NUMBER_PRECISION_U_3 => Some (P_UNSIGNED, 3%Z)
  | GOT_NUMBER_PRECISION_U_4 => Some (P_UNSIGNED, 4%Z)
  | GOT_NUMBER_PRECISION_U_5 => Some (P_UNSIGNED, 5%Z)
  | GOT_NUMBER_PRECISION_U_6 => Some (P_UNSIGNED, 6%Z)
  | GOT_NUMBER_PRECISION_U_7 => Some (P_UNSIGNED, 7%Z)
  | GOT_NUMBER_PRECISION_U_8 => Some (P_UNSIGNED, 8%Z)
  | GOT_NUMBER_PRECISION_U_9 => Some (P_UNSIGNED, 9%Z)
  | GOT_NUMBER_PRECISION_F_0 => Some (P_IMPRECISE, 0%Z)
  | GOT_NUMBER_PRECISION_F_1 => Some (P_IMPRECISE, 1%Z)
  | GOT_NUMBER_PRECISION_F_2 => Some (P_IMPRECISE, 2%Z)
  | GOT_NUMBER_PRECISION_F_3 => Some (P_IMPRECISE, 3%Z)
  | GOT_NUMBER_PRECISION_F_4 => Some (P_IMPRECISE, 4%Z)
  | GOT_NUMBER_PRECISION_F_5 => Some (P_IMPRECISE, 5%Z)
  | GOT_NUMBER_PRECISION_F_6 => Some (P_IMPRECISE, 6%Z)
  | GOT_NUMBER_PRECISION_F_7 => Some (P_IMPRECISE, 7%Z)
  | GOT_NUMBER_PRECISION_F_8 => Some (P_IMPRECISE, 8%Z)
  | GOT_NUMBER_PRECISION_F_9 => Some (P_IMPRECISE, 9%Z)
  | _ => None
  end.

(** The state after a type letter, for a number type. *)
Definition type_state (type : NumberType) : State :=
  match type with
  | P_SIGNED | P_UNSPECIFIED => GOT_NUMBER_TYPE_I
  | P_UNSIGNED => GOT_NUMBER_TYPE_U
  | P_IMPRECISE => GOT_NUMBER_TYPE_F
  end.

(** The letters that select a number type. *)
Definition type_letters (type : NumberType) : list Z :=
  match type with
  | P_UNSPECIFIED => []
  | P_SIGNED => [code "i"; code "I"]
  | P_UNSIGNED => [code "u"; code "U"]
  | P_IMPRECISE => [code "f"; code "F"]
  end.

(** The characters a number goes on with in state [IN_NUMBER]: a digit,
    a dot or a type letter. *)
Definition number_continues (chr : Z) : bool :=
  isDigit chr || eqc "." chr || eqc "i" chr || eqc "I" chr || eqc "u" chr
  || eqc "U" chr || eqc "f" chr || eqc "F" chr.

(** The four line breaks. *)
Definition line_breaks : list (list Z) := [[LF]; [CR]; [LF; CR]; [CR; LF]].

(** Whether [chr] after the line break [break] is the second character
    of a line break of two. *)
Definition completes (break : list Z) (chr : Z) : bool :=
  bool_decide (break = [LF] /\ chr = CR)
  || bool_decide (break = [CR] /\ chr = LF).

(** How deep [lexChar] calls itself in a state. *)
Definition depth (state : State) : nat :=
  match state with
  | GOT_DASH => 3
  | IN_WHITESPACE_GOT_N | IN_WHITESPACE_GOT_R | IN_COMMENT_GOT_N
  | IN_COMMENT_GOT_R | IN_SYMBOL | IN_STRING_GOT_N | IN_STRING_GOT_R
  | IN_REGEX_GOT_N | IN_REGEX_GOT_R | IN_CHAR_GOT_N | IN_CHAR_GOT_R
  | GOT_QUOTE | GOT_COLON | GOT_ZERO | GOT_ZERO_NEGATIVE
  | GOT_NUMBER_PRECISION_2 | GOT_NUMBER_PRECISION_3 => 2
  | _ => 1
  end.
End LexerTrace.

(** ** Proof automation *)

(** Unfolding the plumbing of the monad. *)
Ltac run :=
  unfold bind, ret, get_state, put_state, modify_state, undefined_behaviour,
         ARW_ASSERT, ARW_CHECK, Check in *; simpl in *.

(** Case analysis on what the hooks return. *)
Ltac hook_calls hooks :=
  intros w log; unfold Handle.write, Handle.get; run;
  repeat match goal with
         | |- context [read hooks ?a ?b ?c] => destruct (read hooks a b c) as [[? ?] ?]
         | |- context [write hooks ?a ?b ?c ?d] => destruct (write hooks a b c d) as [? ?]
         end;
  simpl; rewrite ?app_nil_r; eauto.

(* ===================================================================== *)
(** * Part II: the theorems                                               *)
(* ===================================================================== *)


(** ** The shadow stack *)

Section LocalStackFacts.
Context {Descriptor Data : Type} `{Inhabited Descriptor, Inhabited Data}.
Implicit Types (s : LocalStack.t Descriptor Data) (r : LocalStack.ref).
Implicit Types (v : @LocalStack.value_type Descriptor Data).

Lemma push_value_appends s v :
  LocalStack.push_value v s
  = Returned tt (LocalStack.Build (LocalStack.entries s ++ [v])).
Proof. reflexivity. Qed.

Lemma popTo_in_range s r :
  r <= LocalStack.top s ->
  LocalStack.popTo r s
  = Returned tt (LocalStack.Build (take r (LocalStack.entries s))).
Proof.
  intros Hr. unfold LocalStack.popTo, LocalStack.top in *. run.
  rewrite bool_decide_true by done. simpl.
  unfold LocalStack.vector_resize, LocalStack.entries.
  by rewrite resize_le.
Qed.

Lemma popTo_out_of_range s r :
  LocalStack.top s < r -> LocalStack.popTo r s = Aborted s.
Proof.
  intros Hr. unfold LocalStack.popTo, LocalStack.top in *. run.
  rewrite bool_decide_false by lia. reflexivity.
Qed.


(** C4.  [popTo(r)] halts with the fatal check exactly when [r] exceeds
    the number of entries, and the halt leaves the stack as it was;
    otherwise it returns and leaves exactly the first [r] entries, each
    where it was, entries being kept in the order they were pushed.
    From the empty stack, [push(a); r1 = top(); push(b); popTo(r1)]
    leaves the stack holding only [a]. *)
Theorem popTo_checked_truncation s r :
  (LocalStack.popTo r s = Aborted s <-> LocalStack.top s < r)
  /\ (LocalStack.popTo r s
      = Returned tt (LocalStack.Build (take r (LocalStack.entries s)))
      <-> r <= LocalStack.top s)
  /\ (forall s', LocalStack.popTo r s = Returned tt s' ->
        length (LocalStack.entries s') = r
        /\ forall i, i < r ->
             LocalStack.entries s' !! i = LocalStack.entries s !! i)
  /\ (forall v, LocalStack.push_value v s
        = Returned tt (LocalStack.Build (LocalStack.entries s ++ [v])))
  /\ (forall a b : @LocalStack.value_type Descriptor Data,
        LocalStack.push_top_push_popTo a b LocalStack.new
        = Returned tt (LocalStack.Build [a])).
Proof.
  assert (Hscenario : forall a b : @LocalStack.value_type Descriptor Data,
            LocalStack.push_top_push_popTo a b LocalStack.new
            = Returned tt (LocalStack.Build [a])) by (by intros [] []).
  destruct (decide (r <= LocalStack.top s)) as [Hle|Hgt].
  - pose proof (popTo_in_range s r Hle) as Hok. rewrite Hok.
    split; [split; [discriminate | lia] |].
    split; [done |].
    split; [| done].
    intros s' [= <-]. unfold LocalStack.top, LocalStack.entries in *. simpl.
    split; [rewrite length_take; lia |].
    intros i Hi. by rewrite lookup_take_lt.
  - pose proof (popTo_out_of_range s r ltac:(lia)) as Hbad. rewrite Hbad.
    split; [split; [lia | done] |].
    split; [split; [discriminate | lia] |].
    split; [| done].
    intros s' [=].
Qed.

(** [popTo] does not detect every use of an invalidated ref: after
    [popTo(r1)] the younger ref [r2] is stale, yet once the stack has
    grown again [popTo(r2)] passes the check and keeps entries that were
    pushed after [r2] was taken. *)
Theorem stale_ref_goes_undetected (a b c d : @LocalStack.value_type Descriptor Data) :
  LocalStack.pop_to_stale_ref a b c d LocalStack.new
  = Returned tt (LocalStack.Build [a; c]).
Proof. done. Qed.
End LocalStackFacts.

(** ** The persistent pool *)

Lemma size_t_wrap_small z : (0 <= z < size_t_modulus)%Z -> size_t_wrap z = z.
Proof. intros Hz. unfold size_t_wrap. by apply Z.mod_small. Qed.

Section PersistentPoolFacts.
Context {Descriptor Data : Type} `{EqDecision Descriptor, Countable Data}.
Implicit Types (p : PersistentPool.t Descriptor Data).
Implicit Types (x : Data) (d : Descriptor) (c : Z).

Lemma add_absent p x d :
  PersistentPool._map p !! x = None ->
  PersistentPool.add x d p
  = Returned tt (PersistentPool.Build (<[x := (d, 1%Z)]> (PersistentPool._map p))).
Proof.
  intros Hx. unfold PersistentPool.add, PersistentPool.map_insert. run.
  by rewrite Hx.
Qed.

Lemma add_present p x d c :
  PersistentPool._map p !! x = Some (d, c) ->
  PersistentPool.add x d p
  = Returned tt (PersistentPool.Build
                   (<[x := (d, size_t_wrap (c + 1))]> (PersistentPool._map p))).
Proof.
  intros Hx. unfold PersistentPool.add, PersistentPool.map_insert. run.
  rewrite Hx. simpl. by rewrite bool_decide_true.
Qed.

Lemma add_conflict p x d1 d2 c :
  PersistentPool._map p !! x = Some (d1, c) -> d1 <> d2 ->
  PersistentPool.add x d2 p = Aborted p.
Proof.
  intros Hx Hd. unfold PersistentPool.add, PersistentPool.map_insert. run.
  rewrite Hx. simpl. rewrite bool_decide_false by done. by destruct p.
Qed.

Lemma remove_present p x d c :
  PersistentPool._map p !! x = Some (d, c) ->
  PersistentPool.remove x p
  = Returned tt (PersistentPool.Build
      (if bool_decide (0 = size_t_wrap (c - 1))%Z
       then delete x (PersistentPool._map p)
       else <[x := (d, size_t_wrap (c - 1))]> (PersistentPool._map p))).
Proof.
  intros Hx. unfold PersistentPool.remove. run. rewrite Hx.
  rewrite bool_decide_true by done. simpl. by case_bool_decide.
Qed.

Lemma remove_absent p x :
  PersistentPool._map p !! x = None ->
  PersistentPool.remove x p = Aborted p.
Proof.
  intros Hx. unfold PersistentPool.remove. run. rewrite Hx.
  rewrite bool_decide_false by (intros Hne; by apply Hne). done.
Qed.


Lemma add_add_remove_new x d :
  PersistentPool.add_add_remove x d PersistentPool.new
  = Returned tt (PersistentPool.Build {[x := (d, 1%Z)]}).
Proof.
  unfold PersistentPool.add_add_remove, bind. rewrite add_absent by apply lookup_empty.
  erewrite add_present by apply lookup_insert_eq.
  erewrite remove_present by apply lookup_insert_eq.
  change (size_t_wrap (size_t_wrap (1 + 1) - 1)) with 1%Z.
  rewrite bool_decide_false by done. cbn [PersistentPool._map PersistentPool.new].
  rewrite !insert_insert_eq. by rewrite insert_empty.
Qed.

(** C5.  [add(x, d)] on an absent identity inserts an entry with
    refcount 1; on an identity present with an equal descriptor it
    increments the [size_t] refcount of that one entry, adds no entry
    and touches no other; [remove(x)] on a present identity decrements
    the refcount and erases the entry exactly when the new refcount is
    zero.  From the empty pool, [add(x, d); add(x, d); remove(x)]
    leaves the pool non-empty with [x] present once, and one more
    [remove(x)] empties it. *)
Theorem pool_refcounting p x d :
  (PersistentPool._map p !! x = None ->
     PersistentPool.add x d p
     = Returned tt (PersistentPool.Build
                      (<[x := (d, 1%Z)]> (PersistentPool._map p))))
  /\ (forall c, PersistentPool._map p !! x = Some (d, c) ->
        exists p', PersistentPool.add x d p = Returned tt p'
          /\ PersistentPool._map p' !! x = Some (d, size_t_wrap (c + 1))
          /\ ((0 <= c < size_t_modulus - 1)%Z -> size_t_wrap (c + 1) = (c + 1)%Z)
          /\ dom (PersistentPool._map p') = dom (PersistentPool._map p)
          /\ forall y, y <> x ->
               PersistentPool._map p' !! y = PersistentPool._map p !! y)
  /\ (forall d' c, PersistentPool._map p !! x = Some (d', c) ->
        exists p', PersistentPool.remove x p = Returned tt p'
          /\ (PersistentPool._map p' !! x = None <-> size_t_wrap (c - 1) = 0%Z)
          /\ (size_t_wrap (c - 1) <> 0%Z ->
                PersistentPool._map p' !! x = Some (d', size_t_wrap (c - 1)))
          /\ ((1 <= c < size_t_modulus)%Z -> size_t_wrap (c - 1) = (c - 1)%Z)
          /\ forall y, y <> x ->
               PersistentPool._map p' !! y = PersistentPool._map p !! y)
  /\ (exists p1, PersistentPool.add_add_remove x d PersistentPool.new = Returned tt p1
        /\ PersistentPool.empty p1 = false
        /\ map_to_list (PersistentPool._map p1) = [(x, (d, 1%Z))]
        /\ PersistentPool._map p1 !! x = Some (d, 1%Z)
        /\ exists p2, PersistentPool.remove x p1 = Returned tt p2
             /\ PersistentPool.empty p2 = true).
Proof.
  split; [apply add_absent |].
  split; [| split].
  - intros c Hx. eexists. split; [by apply add_present |]. simpl.
    split; [apply lookup_insert_eq |].
    split; [intros Hc; apply size_t_wrap_small; unfold size_t_modulus in *; lia |].
    split; [| by intros y Hy; rewrite lookup_insert_ne].
    rewrite dom_insert_L. apply elem_of_dom_2 in Hx.
    apply subseteq_union_1_L. by apply singleton_subseteq_l.
  - intros d' c Hx. eexists. split; [by apply remove_present |]. simpl.
    case_bool_decide as Hz.
    + split; [split; [done | intros _; apply lookup_delete_eq] |].
      split; [intros Hne; congruence |].
      split; [intros Hc; apply size_t_wrap_small; unfold size_t_modulus in *; lia |].
      by intros y Hy; rewrite lookup_delete_ne.
    + split; [split; [rewrite lookup_insert_eq; discriminate | intros Hz'; congruence] |].
      split; [intros _; apply lookup_insert_eq |].
      split; [intros Hc; apply size_t_wrap_small; unfold size_t_modulus in *; lia |].
      by intros y Hy; rewrite lookup_insert_ne.
  - eexists. split; [apply add_add_remove_new |]. simpl.
    split; [unfold PersistentPool.empty; simpl; apply bool_decide_false;
            apply insert_non_empty |].
    split; [simpl; by rewrite map_to_list_singleton |].
    split; [apply lookup_singleton_eq |].
    eexists. split; [by erewrite remove_present by apply lookup_singleton_eq |].
    change (size_t_wrap (1 - 1)) with 0%Z.
    rewrite bool_decide_true by done.
    unfold PersistentPool.empty. apply bool_decide_true.
    apply delete_singleton_eq.
Qed.

(** C6.  [add(x, d2)] when [x] is present with a different descriptor
    halts with the fatal check, and so does [remove(x)] when [x] is not
    present, be it never added or already fully removed; in each case
    the pool is in the state it had before the call. *)
Theorem pool_usage_faults p x :
  (forall d1 d2 c, PersistentPool._map p !! x = Some (d1, c) -> d1 <> d2 ->
     PersistentPool.add x d2 p = Aborted p)
  /\ (PersistentPool._map p !! x = None -> PersistentPool.remove x p = Aborted p)
  /\ PersistentPool.remove (Descriptor := Descriptor) x PersistentPool.new
     = Aborted PersistentPool.new
  /\ (forall d, PersistentPool.add_remove_remove x d PersistentPool.new
                = Aborted PersistentPool.new).
Proof.
  split; [intros d1 d2 c; apply add_conflict |].
  split; [apply remove_absent |].
  split; [apply remove_absent, lookup_empty |].
  intros d. unfold PersistentPool.add_remove_remove, bind.
  rewrite add_absent by apply lookup_empty.
  erewrite remove_present by apply lookup_insert_eq.
  change (size_t_wrap (1 - 1)) with 0%Z.
  rewrite bool_decide_true by done. cbn [PersistentPool._map PersistentPool.new].
  rewrite delete_insert_eq, delete_empty.
  apply (remove_absent PersistentPool.new), lookup_empty.
Qed.
End PersistentPoolFacts.

(** ** Handles and their hooks *)


Lemma times_app c log1 log2 :
  times c (log1 ++ log2) = times c log1 + times c log2.
Proof. unfold times. by rewrite filter_app, length_app. Qed.

Lemma times_same c : times c [c] = 1.
Proof. unfold times. by rewrite filter_cons_True. Qed.

Lemma times_other c c' : c' <> c -> times c [c'] = 0.
Proof. intros Hne. unfold times. by rewrite filter_cons_False. Qed.

Section HandleFacts.
Context {T Ptr W : Type} `{EqDecision Ptr}.
Variable nullptr : Ptr.
Variable pointee : Ptr -> option T.
Variable hooks : Hooks T Ptr W.

Abbreviation recording := (RecordingHooks hooks).


Lemma get_invokes Type_ this (h : Handle.t T Ptr Type_) :
  invokes (Handle.get Type_ recording this h)
          (if decide (Type_ = VALUE) then [] else [ReadCall this]).
Proof. destruct Type_; hook_calls hooks. Qed.

Lemma write_invokes Type_ this (h : Handle.t T Ptr Type_) val :
  invokes (Handle.write Type_ recording this h val)
          (if decide (Type_ = VALUE) then [] else [WriteCall this]).
Proof. destruct Type_; hook_calls hooks. Qed.

Lemma operator_star_invokes Type_ this (h : Handle.t T Ptr Type_) :
  invokes (Handle.operator_star pointee Type_ recording this h)
          (if decide (Type_ = VALUE) then [] else [ReadCall this]).
Proof. unfold Handle.operator_star. destruct Type_; hook_calls hooks. Qed.

Lemma operator_bool_invokes Type_ weak this (h : Handle.t T Ptr Type_) :
  invokes (Handle.operator_bool nullptr Type_ recording weak this h)
          [ReadCall this].
Proof. unfold Handle.operator_bool. destruct weak; hook_calls hooks. Qed.

Lemma wasCreated_invokes Type_ this (h : Handle.t T Ptr Type_) :
  invokes (Handle.wasCreated Type_ recording this h) [CreatedCall this].
Proof. intros w log. unfold Handle.wasCreated. run. eauto. Qed.

(** C1.  With any hook set: on a strong or weak reference handle each
    read ([get], [operator->], [operator*], and the liveness test of a
    weak handle) invokes [read] once and no other hook, and each of the
    four assignments invokes [write] once and no other hook; on a value
    handle reads and assignments invoke no hook at all; and for every
    handle type each of the five constructors invokes [created] once
    and nothing else, the destructor [destroyed] once and nothing
    else. *)
Theorem hook_invocations Type_ this (h other : Handle.t T Ptr Type_)
    (val : storage_type T Ptr Type_) :
  (Type_ <> VALUE ->
     invokes (Handle.get Type_ recording this h) [ReadCall this]
     /\ invokes (Handle.operator_arrow Type_ recording this h) [ReadCall this]
     /\ invokes (Handle.operator_star pointee Type_ recording this h)
                [ReadCall this]
     /\ (forall weak : WEAK = Type_,
           invokes (Handle.operator_bool nullptr Type_ recording weak this h)
                   [ReadCall this])
     /\ invokes (Handle.assign_copy Type_ recording this h other) [WriteCall this]
     /\ invokes (Handle.assign_move Type_ recording this h other) [WriteCall this]
     /\ invokes (Handle.assign_value Type_ recording this h val) [WriteCall this]
     /\ invokes (Handle.assign_rvalue Type_ recording this h val)
                [WriteCall this])
  /\ (Type_ = VALUE ->
        invokes (Handle.get Type_ recording this h) []
        /\ invokes (Handle.operator_arrow Type_ recording this h) []
        /\ invokes (Handle.operator_star pointee Type_ recording this h) []
        /\ invokes (Handle.assign_copy Type_ recording this h other) []
        /\ invokes (Handle.assign_move Type_ recording this h other) []
        /\ invokes (Handle.assign_value Type_ recording this h val) []
        /\ invokes (Handle.assign_rvalue Type_ recording this h val) [])
  /\ invokes (Handle.construct_default Type_ recording this val)
             [CreatedCall this]
  /\ invokes (Handle.construct_copy Type_ recording this other)
             [CreatedCall this]
  /\ invokes (Handle.construct_move Type_ recording this other)
             [CreatedCall this]
  /\ invokes (Handle.construct_from_value Type_ recording this val)
             [CreatedCall this]
  /\ invokes (Handle.construct_from_rvalue Type_ recording this val)
             [CreatedCall this]
  /\ invokes (Handle.destruct Type_ recording this h) [DestroyedCall this].
Proof.
  pose proof (get_invokes Type_ this h) as Hget.
  pose proof (operator_star_invokes Type_ this h) as Hstar.
  pose proof (fun v => write_invokes Type_ this h v) as Hwrite.
  unfold Handle.operator_arrow, Handle.assign_copy, Handle.assign_move,
    Handle.assign_value, Handle.assign_rvalue.
  split; [| split].
  - intros Hty. rewrite decide_False in Hget, Hstar by done.
    repeat split; try done.
    + intros weak. apply operator_bool_invokes.
    + specialize (Hwrite (Handle._data other)). by rewrite decide_False in Hwrite.
    + specialize (Hwrite (Handle._data other)). by rewrite decide_False in Hwrite.
    + specialize (Hwrite val). by rewrite decide_False in Hwrite.
    + specialize (Hwrite val). by rewrite decide_False in Hwrite.
  - intros Hty. rewrite decide_True in Hget, Hstar by done.
    repeat split; try done.
    + specialize (Hwrite (Handle._data other)). by rewrite decide_True in Hwrite.
    + specialize (Hwrite (Handle._data other)). by rewrite decide_True in Hwrite.
    + specialize (Hwrite val). by rewrite decide_True in Hwrite.
    + specialize (Hwrite val). by rewrite decide_True in Hwrite.
  - repeat split; intros w log;
      unfold Handle.construct_default, Handle.construct_copy,
        Handle.construct_move, Handle.construct_from_value,
        Handle.construct_from_rvalue, Handle.destruct,
        Handle.wasCreated, Handle.wasDestroyed; run; eauto.
Qed.

(** C10.  Each of the five constructors stores the storage it is given
    as it is (for the default constructor, the default-initialised
    content), and the state of the hooks afterwards is the one [created]
    alone produces: neither [read] nor [write] is invoked.  Copying a
    reference handle thus duplicates the stored raw pointer
    [other._data] without any barrier. *)
Theorem construction_bypasses_barriers Type_ this
    (other : Handle.t T Ptr Type_) (val : storage_type T Ptr Type_) w log :
  Handle.construct_default Type_ recording this val (w, log)
  = Returned (Handle.Build val)
      (created hooks Type_ this val w, log ++ [CreatedCall this])
  /\ Handle.construct_copy Type_ recording this other (w, log)
     = Returned (Handle.Build (Handle._data other))
         (created hooks Type_ this (Handle._data other) w,
          log ++ [CreatedCall this])
  /\ Handle.construct_move Type_ recording this other (w, log)
     = Returned (Handle.Build (Handle._data other))
         (created hooks Type_ this (Handle._data other) w,
          log ++ [CreatedCall this])
  /\ Handle.construct_from_value Type_ recording this val (w, log)
     = Returned (Handle.Build val)
         (created hooks Type_ this val w, log ++ [CreatedCall this])
  /\ Handle.construct_from_rvalue Type_ recording this val (w, log)
     = Returned (Handle.Build val)
         (created hooks Type_ this val w, log ++ [CreatedCall this])
  /\ times (ReadCall this) (log ++ [CreatedCall this]) = times (ReadCall this) log
  /\ times (WriteCall this) (log ++ [CreatedCall this]) = times (WriteCall this) log.
Proof.
  repeat split.
  - rewrite times_app, times_other by discriminate. lia.
  - rewrite times_app, times_other by discriminate. lia.
Qed.

(** The barrier-count scenario: on a strong handle, create, read twice
    and write once invoke [created] once, [read] twice and [write] once,
    in that order, whatever the hooks do. *)
Theorem read_twice_write_once this (p v : Ptr) :
  invokes (Handle.create_read_read_write REFERENCE recording this p v)
          [CreatedCall this; ReadCall this; ReadCall this; WriteCall this]
  /\ times (ReadCall this)
        [CreatedCall this; ReadCall this; ReadCall this; WriteCall this] = 2
  /\ times (WriteCall this)
        [CreatedCall this; ReadCall this; ReadCall this; WriteCall this] = 1.
Proof.
  split; [| split].
  - unfold Handle.create_read_read_write, Handle.construct_from_value,
      Handle.wasCreated, Handle.assign_value.
    hook_calls hooks.
    rewrite <- !app_assoc. simpl. eauto.
  - unfold times. rewrite !filter_cons, filter_nil.
    repeat case_decide; try congruence. done.
  - unfold times. rewrite !filter_cons, filter_nil.
    repeat case_decide; try congruence. done.
Qed.

(** The liveness test of a weak handle is one read through the hook,
    and its answer is whether that read returned a non-null pointer. *)
Theorem operator_bool_is_read_nonnull this (h : Handle.t T Ptr WEAK) w :
  Handle.operator_bool nullptr WEAK hooks eq_refl this h w
  = Returned (bool_decide (fst (fst (read hooks this (Handle._data h) w)) <> nullptr),
              @Handle.Build T Ptr WEAK
                (snd (fst (read hooks this (Handle._data h) w))))
             (snd (read hooks this (Handle._data h) w)).
Proof.
  unfold Handle.operator_bool, Handle.get. run.
  by destruct (read hooks this (Handle._data h) w) as [[r stored'] w'].
Qed.
End HandleFacts.

(** ** The allocation mixin *)

Section NewableFacts.
Context {Ptr G : Type}.
Variable gc : GCHooks Ptr G.

(** What [new T] asks of the collector, for a class [T] deriving from
    [Newable<ChildClass, GCHooks>]: one call of [allocate], whose result
    it returns, with the product of the two sizes as the argument. *)
Lemma new_expression_allocates sizeof_ChildClass sizeof_T g log :
  Newable.new_expression (RecordingGC gc) sizeof_ChildClass sizeof_T (g, log)
  = Returned
      (fst (gc_allocate gc (size_t_wrap (sizeof_ChildClass * sizeof_T)) g))
      (snd (gc_allocate gc (size_t_wrap (sizeof_ChildClass * sizeof_T)) g),
       log ++ [size_t_wrap (sizeof_ChildClass * sizeof_T)]).
Proof.
  unfold Newable.new_expression, Newable.operator_new. simpl.
  by destruct (gc_allocate gc _ g).
Qed.

Lemma delete_expression_is_noop sizeof_T (obj : Ptr) (g : G) (log : list Z) :
  Newable.delete_expression sizeof_T obj (g, log) = Returned tt (g, log).
Proof. reflexivity. Qed.
End NewableFacts.

(** C9, at a class of eight bytes (one pointer member) that derives from
    [Newable] of itself: [new T] calls [allocate] once and returns its
    result, but the size it passes is 64, not the 8 bytes one object
    needs. *)
Theorem new_of_eight_byte_class_requests_64 :
  Newable.new_expression (RecordingGC (MockGCHooks 3735928559%Z)) 8 8 (tt, [])
  = Returned 3735928559%Z (tt, [64%Z]).
Proof. reflexivity. Qed.

(** ** Slots and storage descriptors *)

Section StorageDescriptorFacts.
Import StorageDescriptor.
Context {G : Type}.
Variable gc : GCHooks SDPtr G.
Variables sizeof_SD sizeof_Slot : Z.

Lemma transparent_read_eq ptr stored g :
  transparent_read gc ->
  gc_read gc ptr stored g = (stored, stored, snd (gc_read gc ptr stored g)).
Proof. intros Ht. destruct (Ht ptr stored g) as [g' ->]. reflexivity. Qed.


(** What the constructor of [Slot] does, under a transparent read
    barrier. *)
Lemma Slot_new_transparent this storageDescriptor_ type_ offset_ mem :
  transparent_read gc ->
  let d := descriptor_or_boxed storageDescriptor_ in
  let mem1 := after_read gc this d mem in
  let mem2 := after_read gc this d mem1 in
  Slot_new gc this storageDescriptor_ type_ offset_ mem
  = if bool_decide (type_ <> VALUE) then Returned (BuildSlot d type_ offset_) mem1
    else if bool_decide (d = SDBoxed) then Aborted mem1
    else match load d mem2 with
         | Returned sd _ =>
             if hasArray sd then Aborted mem2
             else Returned (BuildSlot d type_ offset_) mem2
         | _ => Undefined
         end.
Proof.
  intros Ht d mem1 mem2. subst mem1 mem2 d.
  unfold after_read, Slot_new,
    Handle.construct_from_value, Handle.wasCreated, Handle.operator_arrow,
    Handle.get, with_gc, arrow_hasArray, load, descriptor_or_boxed.
  destruct storageDescriptor_ as [| |b], type_; run;
    repeat match goal with
           | |- context [gc_read gc ?a ?p ?g] =>
               let Hg := fresh "Hg" in
               destruct (Ht a p g) as [? Hg]; rewrite !Hg; simpl
           end;
    try reflexivity.
  destruct (blocks mem !! b) as [[size|sd]|]; try reflexivity.
  unfold hasArray. by destruct (_hasArray sd).
Qed.

Lemma load_keeps_memory p (mem mem' : Memory G) sd :
  load p mem = Returned sd mem' -> mem' = mem.
Proof.
  unfold load. destruct p as [| |b]; try done.
  - by intros [= _ <-].
  - destruct (blocks mem !! b) as [[?|?]|]; try done. by intros [= _ <-].
Qed.

(** C7.  Under a transparent read barrier, a constructed [Slot] holds
    the descriptor it was given, the boxed sentinel standing in for a
    null argument, and satisfies both invariants: a boxed slot is not
    [VALUE], and the descriptor of a [VALUE] slot has no trailing array.
    Constructing a [VALUE] slot that is boxed, or whose descriptor has a
    trailing array, halts with the fatal check. *)
Theorem slot_invariants this storageDescriptor_ type_ offset_ mem
    (Htransparent : transparent_read gc) :
  (forall slot mem',
     Slot_new gc this storageDescriptor_ type_ offset_ mem = Returned slot mem' ->
     storageDescriptor slot = descriptor_or_boxed storageDescriptor_
     /\ type slot = type_ /\ offset slot = offset_
     /\ (isBoxed (storageDescriptor slot) = true -> type slot <> VALUE)
     /\ (type slot = VALUE ->
           exists sd, load (storageDescriptor slot) mem' = Returned sd mem'
                      /\ hasArray sd = false))
  /\ (isBoxed (descriptor_or_boxed storageDescriptor_) = true ->
        type_ = VALUE ->
        exists mem', Slot_new gc this storageDescriptor_ type_ offset_ mem
                     = Aborted mem')
  /\ (forall sd,
        type_ = VALUE ->
        load (descriptor_or_boxed storageDescriptor_) mem = Returned sd mem ->
        hasArray sd = true ->
        exists mem', Slot_new gc this storageDescriptor_ type_ offset_ mem
                     = Aborted mem').
Proof.
  pose proof (Slot_new_transparent this storageDescriptor_ type_ offset_ mem
                Htransparent) as Hnew.
  simpl in Hnew. set (d := descriptor_or_boxed storageDescriptor_) in *.
  assert (Hload : forall m1 m2 : Memory G, blocks m1 = blocks m2 ->
            forall sd, load d m1 = Returned sd m1 -> load d m2 = Returned sd m2).
  { intros m1 m2 Hb sd. unfold load. rewrite Hb. destruct d as [| |b]; try done.
    - by intros [= <-].
    - destruct (blocks m2 !! b) as [[?|?]|]; try done. by intros [= <-]. }
  split; [| split].
  - intros slot mem' Hret. rewrite Hret in Hnew.
    case_bool_decide as Hty.
    + injection Hnew as -> ->. simpl. repeat split; try done.
    + assert (type_ = VALUE) as -> by (by destruct type_).
      case_bool_decide as Hboxed; [done |].
      destruct (load d _) as [sd mem2| | |] eqn:Hl; try done.
      destruct (hasArray sd) eqn:Harr; [done |].
      injection Hnew as -> ->. simpl. repeat split; try done.
      * unfold isBoxed. rewrite bool_decide_false by done. done.
      * intros _. exists sd. split; [| done].
        by rewrite <- (load_keeps_memory _ _ _ _ Hl) at 2.
  - intros Hboxed ->. unfold isBoxed in Hboxed.
    apply bool_decide_eq_true in Hboxed.
    rewrite Hnew.
    rewrite (bool_decide_false (VALUE <> VALUE)) by (intros Hne; by apply Hne).
    rewrite (bool_decide_true (d = SDBoxed)) by done. eauto.
  - intros sd -> Hl Harr.
    rewrite Hnew.
    rewrite (bool_decide_false (VALUE <> VALUE)) by (intros Hne; by apply Hne).
    destruct (bool_decide (d = SDBoxed)); [eauto |].
    rewrite (Hload mem (after_read gc this d (after_read gc this d mem)) eq_refl sd Hl).
    rewrite Harr. eauto.
Qed.
End StorageDescriptorFacts.

Section InitFacts.
Import StorageDescriptor.
Context {G : Type}.
Implicit Types (mem : Memory G) (array : Slot) (values : list Slot).


(** The loop of the constructor counts the slots and leaves the last
    of them at index 0. *)
Lemma copy_values_last values : forall numValues stored,
  copy_values values numValues stored
  = (numValues + length values,
     match last values with
     | Some value => <[0 := value]> stored
     | None => stored
     end).
Proof.
  induction values as [|value values IH]; intros numValues stored; simpl.
  { by rewrite Nat.add_0_r. }
  rewrite IH. unfold values_index, sizeof_Slot_0. rewrite Nat.mul_0_r.
  f_equal; [lia |].
  destruct values as [|value' values]; [done |].
  change (last (value :: value' :: values)) with (last (value' :: values)).
  destruct (last (value' :: values)) eqn:Hlast.
  - by rewrite insert_insert_eq.
  - by apply last_None in Hlast.
Qed.

Lemma init_in_block DEBUG mem b c size hasArray_ array values :
  blocks mem !! b = Some c ->
  init DEBUG (SDAt b) size hasArray_ array values mem
  = let mem' := constructed_in b
                  (BuildSD size hasArray_ array (length values)
                     (surviving values)) mem in
    if negb DEBUG
       || negb (size =? 0)%Z || (negb hasArray_ && (0 =? length values)%nat)
    then Returned (SDAt b) mem' else Aborted mem'.
Proof.
  intros Hb. unfold init, construct. rewrite copy_values_last.
  unfold place, constructed_in. run. rewrite Hb.
  replace (match last values with
           | Some value => <[0:=value]> ∅
           | None => ∅
           end)
    with (surviving values) by (unfold surviving; by destruct (last values)).
  destruct DEBUG, (size =? 0)%Z, hasArray_, (length values); reflexivity.
Qed.

(** C8, as the code has it.  When the build defines [DEBUG], [init]
    halts with the fatal assertion when [sizeWithEmptyArray] is zero and
    [hasArray] is true or the slot list is non-empty (so in particular
    for [hasArray] false, size zero and a non-empty slot list), and every
    descriptor it has constructed when it returns has a nonzero size
    unless it has neither a trailing array nor fixed slots.  When the
    build does not define [DEBUG] the assertion is compiled out: [init]
    constructs the descriptor and returns whatever the arguments.  The
    descriptor [sd] that [init] constructs counts all the slots it was
    given and holds the last of them. *)
Theorem init_assertion_needs_DEBUG mem b c size hasArray_ array values
    (Hblock : blocks mem !! b = Some c) :
  let sd := BuildSD size hasArray_ array (length values)
              (match last values with
               | Some value => {[ 0 := value ]}
               | None => ∅
               end) in
  (size = 0%Z -> hasArray_ = true \/ values <> [] ->
     init true (SDAt b) size hasArray_ array values mem
     = Aborted (constructed_in b sd mem))
  /\ (forall obj mem',
        init true (SDAt b) size hasArray_ array values mem = Returned obj mem' ->
        obj = SDAt b
        /\ load obj mem' = Returned sd mem'
        /\ (_sizeWithEmptyArray sd <> 0%Z
            \/ (_hasArray sd = false /\ _numValues sd = 0 /\ _values sd = ∅)))
  /\ init false (SDAt b) size hasArray_ array values mem
     = Returned (SDAt b) (constructed_in b sd mem).
Proof.
  intros sd. rewrite !(init_in_block _ mem b c) by done. cbv zeta. fold sd.
  cbn [negb orb].
  split; [| split; [| done]].
  - intros -> Hne.
    destruct hasArray_; [done |]. destruct Hne as [|Hne]; [done |].
    by destruct values.
  - intros obj mem' Hret.
    destruct (negb (size =? 0)%Z || (negb hasArray_ && (0 =? length values)%nat))
      eqn:Hcond; [| done].
    injection Hret as <- <-.
    split; [done |].
    split; [unfold load, constructed_in; simpl; by rewrite lookup_insert_eq |].
    simpl. apply orb_true_iff in Hcond as [Hsize|Hrest].
    + left. apply negb_true_iff, Z.eqb_neq in Hsize. done.
    + right. apply andb_true_iff in Hrest as [Harr Hlen].
      apply negb_true_iff in Harr. split; [done |].
      apply Nat.eqb_eq in Hlen. by destruct values.
Qed.
End InitFacts.

(** C8 as stated fails in a build without [DEBUG].  There [init], invoked
    with [hasArray] false, size zero and one slot, returns; and
    [makeVariableSizeSD] of the descriptor tests constructs a descriptor of
    size zero that has a trailing array. *)
Lemma init_unchecked_without_DEBUG :
  let mem0 : StorageDescriptor.Memory unit :=
    StorageDescriptor.BuildMemory tt {[ 7 := StorageDescriptor.Raw 72 ]} in
  StorageDescriptor.init false (SDAt 7) 0 false StorageDescriptor.Slot_empty
    [StorageDescriptor.Slot_empty] mem0
  = Returned (SDAt 7)
      (StorageDescriptor.BuildMemory tt
         {[ 7 := StorageDescriptor.Constructed
                   (StorageDescriptor.BuildSD 0 false StorageDescriptor.Slot_empty 1
                      {[ 0 := StorageDescriptor.Slot_empty ]}) ]})
  /\ exists b mem',
       StorageDescriptor.makeSD false 48 24 0 true
         (StorageDescriptor.BuildSlot SDBoxed REFERENCE 0) []
         (StorageDescriptor.BuildMemory tt ∅)
       = Returned (SDAt b) mem'
       /\ StorageDescriptor.load (SDAt b) mem'
          = Returned (StorageDescriptor.BuildSD 0 true
                        (StorageDescriptor.BuildSlot SDBoxed REFERENCE 0) 0 ∅)
              mem'.
Proof.
  split.
  - simpl. erewrite (init_in_block false _ 7) by apply lookup_singleton_eq.
    simpl. unfold StorageDescriptor.constructed_in. simpl. by rewrite insert_singleton_eq.
  - unfold StorageDescriptor.makeSD, StorageDescriptor.new_char_array.
    unfold bind at 1.
    erewrite (init_in_block false) by apply lookup_insert_eq.
    simpl. do 2 eexists. split; [done |].
    unfold StorageDescriptor.load, StorageDescriptor.constructed_in. simpl.
    by rewrite lookup_insert_eq.
Qed.

(** ** The type-descriptor registry *)

Section TypeStorageFacts.
Import StorageDescriptor TypeStorage.
Context {G : Type}.
Variable gc : GCHooks SDPtr G.
Variable DEBUG : bool.
Variables sizeof_SD sizeof_Slot : Z.
Variable definitions : klass -> option StorageDefinition.
Variable temporary : nat.

Abbreviation get_ :=
  (TypeStorage.get gc DEBUG sizeof_SD sizeof_Slot definitions temporary).
Abbreviation slot_ :=
  (TypeStorage.slot gc DEBUG sizeof_SD sizeof_Slot definitions temporary).
Abbreviation lookups_from_ :=
  (TypeStorage.lookups_from gc DEBUG sizeof_SD sizeof_Slot definitions temporary).

Implicit Types (w : World G) (k : klass).


Lemma grows_refl w : grows w w.
Proof. split; [by intros k _ | split; [by intros b _ | by intros Ha]]. Qed.

Lemma grows_trans w1 w2 w3 : grows w1 w2 -> grows w2 w3 -> grows w1 w3.
Proof.
  intros (Hs1 & Hb1 & Ha1) (Hs2 & Hb2 & Ha2).
  split; [| split].
  - intros k Hk. rewrite Hs2, Hs1; try done. by rewrite Hs1.
  - intros b Hb. rewrite Hb2, Hb1; try done.
    apply elem_of_dom. rewrite Hb1 by done. by apply elem_of_dom.
  - intros Ha. by apply Ha2, Ha1.
Qed.

Lemma outcome_grows_bind {A B} (m : M (World G) A) (f : A -> M (World G) B)
    (Q1 : A -> World G -> Prop) (Q2 : B -> World G -> Prop) w :
  outcome_grows Q1 w (m w) ->
  (forall a w1, grows w w1 -> Q1 a w1 ->
     match f a w1 with
     | Returned b w2 => grows w w2 /\ Q2 b w2
     | Aborted w2 => grows w w2
     | Undefined | OutOfFuel => True
     end) ->
  outcome_grows Q2 w (bind m f w).
Proof.
  intros Hm Hf. unfold bind. destruct (m w) as [a w1|w1| |]; try done.
  destruct Hm as [Hg HQ]. apply (Hf a w1 Hg HQ).
Qed.

Lemma outcome_grows_from {A} (Q : A -> World G -> Prop) w w1 o :
  grows w w1 -> outcome_grows Q w1 o ->
  match o with
  | Returned b w2 => grows w w2 /\ Q b w2
  | Aborted w2 => grows w w2
  | Undefined | OutOfFuel => True
  end.
Proof.
  intros Hg. destruct o as [b w2|w2| |]; try done.
  - intros [Hg2 HQ]. split; [by eapply grows_trans | done].
  - intros Hg2. by eapply grows_trans.
Qed.

Lemma Slot_new_blocks this sd type_ offset_ (mem : Memory G) :
  match Slot_new gc this sd type_ offset_ mem with
  | Returned _ mem' | Aborted mem' => blocks mem' = blocks mem
  | Undefined | OutOfFuel => True
  end.
Proof.
  unfold Slot_new, Handle.construct_from_value, Handle.wasCreated,
    Handle.operator_arrow, Handle.get, with_gc, arrow_hasArray, load.
  run.
  repeat match goal with
         | |- context [gc_read gc ?a ?p ?g] =>
             destruct (gc_read gc a p g) as [[? ?] ?]; simpl
         | |- context [bool_decide ?P] => destruct (bool_decide P); simpl
         | |- context [match ?p with SDNull => _ | _ => _ end] =>
             destruct p; simpl
         | |- context [blocks mem !! ?b] =>
             destruct (blocks mem !! b) as [[?|?]|]; simpl
         | |- context [hasArray ?sd] => destruct (hasArray sd); simpl
         end; done.
Qed.

Lemma with_memory_grows {A} (m : M (Memory G) A) w :
  match m (memory w) with
  | Returned _ mem' | Aborted mem' => blocks mem' = blocks (memory w)
  | Undefined | OutOfFuel => True
  end ->
  outcome_grows (fun _ _ => True) w (with_memory m w).
Proof.
  unfold with_memory.
  destruct (m (memory w)) as [a mem'|mem'| |]; simpl; try done.
  - intros Hb. split; [| done].
    split; [by intros k _ | split; [| done]].
    intros b _. simpl. by rewrite Hb.
  - intros Hb. split; [by intros k _ | split; [| done]].
    intros b _. simpl. by rewrite Hb.
Qed.

Lemma get_unfold fuel k :
  get_ (S fuel) k
  = match definitions k with
    | None => undefined_behaviour
    | Some d =>
        w <~ get_state ;;
        if bool_decide (static_storage w k <> SDNull)
        then ret (static_storage w k)
        else
          allocate_storage k (objectSize sizeof_SD sizeof_Slot (def_n d)) ;;;
          w1 <~ get_state ;;
          array <~ match def_array d with
                   | SlotEmpty => ret Slot_empty
                   | ArraySlot a => slot_ fuel a
                   end ;;
          values <~ sequence (slot_ fuel) (def_values d) ;;
          with_memory (init DEBUG (static_storage w1 k) (Z.pos (def_sizeof d))
                         (def_hasArray d) array values) ;;;
          w2 <~ get_state ;;
          ret (static_storage w2 k)
    end.
Proof. reflexivity. Qed.

(** A lookup that finds the static set returns it and changes nothing. *)
Lemma get_cached fuel k w :
  definitions k <> None -> static_storage w k <> SDNull ->
  get_ (S fuel) k w = Returned (static_storage w k) w.
Proof.
  intros Hdef Hset. rewrite get_unfold.
  destruct (definitions k) as [d|]; [| done]. run.
  by rewrite bool_decide_true.
Qed.


Lemma allocate_storage_allocated k size w :
  allocate_storage k size w = Returned tt (allocated k size w).
Proof. reflexivity. Qed.

Lemma allocated_grows k size w :
  static_storage w k = SDNull -> grows w (allocated k size w).
Proof.
  intros Hnull. unfold allocated.
  set (b := fresh (dom (blocks (memory w)))).
  assert (Hfresh : b ∉ dom (blocks (memory w))) by apply is_fresh.
  split; [| split].
  - intros k' Hk'. unfold static_storage. simpl.
    rewrite lookup_insert_ne; [done |]. intros ->. done.
  - intros b' Hb'. simpl. rewrite lookup_insert_ne; [done |]. by intros ->.
  - intros [Hnodup Hiff]. split; simpl.
    + apply NoDup_app. split; [done |].
      split; [| apply NoDup_singleton].
      intros k' Hin ->%list_elem_of_singleton. by apply Hiff in Hin.
    + intros k'. rewrite elem_of_app, list_elem_of_singleton.
      unfold static_storage. simpl.
      destruct (decide (k' = k)) as [->|Hne].
      * rewrite lookup_insert_eq. simpl. split; [done | by right].
      * rewrite lookup_insert_ne by done. rewrite Hiff.
        unfold static_storage. split; [by intros [?|?] | by left].
Qed.

Lemma allocated_static k size w :
  static_storage (allocated k size w) k = SDAt (fresh (dom (blocks (memory w)))).
Proof. unfold static_storage, allocated. simpl. by rewrite lookup_insert_eq. Qed.

Lemma allocated_block k size w :
  blocks (memory (allocated k size w)) !! fresh (dom (blocks (memory w)))
  = Some (Raw size).
Proof. unfold allocated. simpl. by rewrite lookup_insert_eq. Qed.


Lemma slot_grows fuel m w :
  (forall k w, outcome_grows (published k) w (get_ fuel k w)) ->
  outcome_grows (fun _ _ => True) w (slot_ fuel m w).
Proof.
  intros IH. unfold TypeStorage.slot.
  eapply outcome_grows_bind; [apply IH |].
  intros sd w1 Hg _.
  apply (outcome_grows_from (fun _ _ => True) w w1); [done |].
  apply with_memory_grows, Slot_new_blocks.
Qed.

Lemma sequence_grows {A B} (f : A -> M (World G) B) l w :
  (forall a w, outcome_grows (fun _ _ => True) w (f a w)) ->
  outcome_grows (fun _ _ => True) w (sequence f l w).
Proof.
  intros Hf. revert w. induction l as [|a l IH]; intros w; simpl.
  - split; [apply grows_refl | done].
  - eapply outcome_grows_bind; [apply Hf |].
    intros b w1 Hg1 _.
    apply (outcome_grows_from (fun _ _ => True) w w1); [done |].
    eapply outcome_grows_bind; [apply IH |].
    intros bs w2 Hg2 _. split; [done | done].
Qed.


Lemma init_world w b c size hasArray_ array values :
  blocks (memory w) !! b = Some c ->
  with_memory (init DEBUG (SDAt b) size hasArray_ array values) w
  = let w' := constructed b
                (BuildSD size hasArray_ array (length values) (surviving values))
                w in
    if negb DEBUG
       || negb (size =? 0)%Z || (negb hasArray_ && (0 =? length values)%nat)
    then Returned (SDAt b) w' else Aborted w'.
Proof.
  intros Hb. unfold with_memory. rewrite (init_in_block _ _ b c) by done.
  cbv zeta. by destruct (_ || _).
Qed.

(** The tail of a lookup that allocated: build the slots, construct the
    descriptor, return the static. *)
Lemma get_grows fuel : forall k w, outcome_grows (published k) w (get_ fuel k w).
Proof.
  induction fuel as [|fuel IH]; intros k w; [done |].
  rewrite get_unfold. destruct (definitions k) as [d|]; [| done].
  unfold bind at 1, get_state.
  case_bool_decide as Hset.
  { split; [apply grows_refl | done]. }
  assert (static_storage w k = SDNull) as Hnull.
  { destruct (static_storage w k); try done; by destruct Hset. }
  unfold bind at 1. rewrite allocate_storage_allocated.
  set (size := objectSize sizeof_SD sizeof_Slot (def_n d)).
  set (w1 := allocated k size w).
  set (b := fresh (dom (blocks (memory w)))).
  pose proof (allocated_grows k size w Hnull) as Hg1. fold w1 in Hg1.
  pose proof (allocated_static k size w) as Hs1. fold w1 b in Hs1.
  pose proof (allocated_block k size w) as Hb1. fold w1 b in Hb1.
  unfold bind at 1, get_state. rewrite Hs1.
  assert (Hslots : outcome_grows (fun _ _ => True) w1
            ((array <~ match def_array d with
                       | SlotEmpty => ret Slot_empty
                       | ArraySlot a => slot_ fuel a
                       end ;;
              values <~ sequence (slot_ fuel) (def_values d) ;;
              ret (array, values)) w1)).
  { eapply (outcome_grows_bind _ _ (fun _ _ => True)).
    - destruct (def_array d) as [|a].
      + split; [apply grows_refl | done].
      + apply slot_grows, IH.
    - intros array w2 Hg2 _.
      apply (outcome_grows_from (fun _ _ => True) w1 w2); [done |].
      eapply (outcome_grows_bind _ _ (fun _ _ => True)).
      + apply sequence_grows. intros m w'. apply slot_grows, IH.
      + intros values w3 Hg3 _. split; [done | done]. }
  set (array_ := match def_array d with
                 | SlotEmpty => ret Slot_empty
                 | ArraySlot a => slot_ fuel a
                 end) in *.
  unfold bind in Hslots |- *. unfold ret in Hslots.
  destruct (array_ w1) as [array w2|w2| |]; try done.
  - destruct (sequence (slot_ fuel) (def_values d) w2) as [values w3|w3| |];
      try done.
    + destruct Hslots as [Hg3 _].
      assert (Hb3 : blocks (memory w3) !! b = Some (Raw size)).
      { destruct Hg3 as (_ & Hkept & _). rewrite Hkept; [done |].
        apply elem_of_dom. by rewrite Hb1. }
      rewrite (init_world w3 b (Raw size)) by done. cbv zeta.
      set (sd := BuildSD _ _ _ _ _).
      assert (Hg : grows w (constructed b sd w3)).
      { pose proof (grows_trans _ _ _ Hg1 Hg3) as (Hs & Hb & Ha).
        split; [| split]; [done | | done].
        intros b' Hb'. simpl. rewrite lookup_insert_ne; [by apply Hb |].
        intros <-. by apply (is_fresh (dom (blocks (memory w)))). }
      destruct (_ || _); [| done].
      unfold get_state, ret. split; [done |].
      assert (static_storage (constructed b sd w3) k = SDAt b) as Hs3.
      { destruct Hg3 as (Hkept & _).
        change (static_storage w3 k = SDAt b).
        rewrite <- Hs1. apply Hkept. by rewrite Hs1. }
      rewrite Hs3. by split.
    + by eapply grows_trans.
  - by eapply grows_trans.
Qed.

Lemma lookups_grows w w' : lookups_from_ w w' -> grows w w'.
Proof.
  induction 1 as [w|w fuel k p w1 w2 Hget _ IH]; [apply grows_refl |].
  pose proof (get_grows fuel k w) as Hg. rewrite Hget in Hg.
  destruct Hg as [Hg _]. by eapply grows_trans.
Qed.

Lemma lookups_trans w1 w2 w3 :
  lookups_from_ w1 w2 -> lookups_from_ w2 w3 -> lookups_from_ w1 w3.
Proof.
  induction 1 as [w|w fuel k p w1 w2 Hget _ IH]; [done |].
  intros H3. eapply lookups_more; [done | by apply IH].
Qed.

Lemma initial_accounted (g : G) : accounted (initial g).
Proof.
  split; simpl; [apply NoDup_nil_2 |].
  intros k. unfold static_storage. simpl. rewrite lookup_empty. simpl.
  split; [by intros ?%not_elem_of_nil | done].
Qed.

Lemma get_defined fuel k w p w' :
  get_ fuel k w = Returned p w' -> definitions k <> None.
Proof.
  destruct fuel as [|fuel]; [done |]. rewrite get_unfold.
  by destruct (definitions k).
Qed.

Lemma later_lookup_same fuel k w p w1 w2 fuel' :
  get_ fuel k w = Returned p w1 -> lookups_from_ w1 w2 ->
  get_ (S fuel') k w2 = Returned p w2.
Proof.
  intros Hfirst Hlater.
  pose proof (get_grows fuel k w) as Hg. rewrite Hfirst in Hg.
  destruct Hg as [Hg [Hp Hnonnull]].
  destruct (lookups_grows _ _ Hlater) as (Hkept & _).
  specialize (Hkept k). rewrite Hp in Hkept. specialize (Hkept Hnonnull).
  rewrite <- Hkept. apply get_cached; [by eapply get_defined |].
  by rewrite Hkept.
Qed.

(** C3.  Once a lookup for a class has returned a pointer, every later
    lookup for that class, after any number of other completed lookups,
    returns the identical pointer and changes nothing (so allocates
    nothing).  In every state reached from program start by completed
    lookups the record of allocations has no class twice and holds
    exactly the classes that have a descriptor: one allocation per
    class. *)
Theorem registry_lookup_is_singleton fuel k w p w1
    (Hfirst : get_ fuel k w = Returned p w1) :
  p <> SDNull
  /\ (forall w2 fuel', lookups_from_ w1 w2 ->
        get_ (S fuel') k w2 = Returned p w2)
  /\ (forall g w2, lookups_from_ (initial g) w -> lookups_from_ w1 w2 ->
        NoDup (allocations w2)
        /\ forall k', k' ∈ allocations w2 <-> static_storage w2 k' <> SDNull).
Proof.
  pose proof (get_grows fuel k w) as Hg. rewrite Hfirst in Hg.
  destruct Hg as [Hg [Hp Hnonnull]].
  split; [done |]. split.
  - intros w2 fuel' Hlater. by eapply later_lookup_same.
  - intros g w2 Hbefore Hlater.
    assert (lookups_from_ (initial g) w2) as Hall.
    { eapply lookups_trans; [done |]. by eapply lookups_more. }
    apply lookups_grows in Hall as (_ & _ & Hacc).
    apply Hacc, initial_accounted.
Qed.

Lemma complete_kept pending w w' :
  complete pending w ->
  (forall k, static_storage w' k = static_storage w k) ->
  blocks_kept w w' -> complete pending w'.
Proof.
  intros Hc Hstatic Hblocks k Hk Hset. rewrite Hstatic in Hset |- *.
  destruct (Hc k Hk Hset) as (b & sd & Hs & Hb).
  exists b, sd. split; [done |]. rewrite Hblocks; [done |].
  apply elem_of_dom. by rewrite Hb.
Qed.

Lemma with_memory_statics {A} (m : M (Memory G) A) w a w' :
  with_memory m w = Returned a w' ->
  forall k, static_storage w' k = static_storage w k.
Proof.
  unfold with_memory. destruct (m (memory w)); try done.
  by intros [= _ <-] k.
Qed.

Lemma slot_complete fuel pending m w s w' :
  (forall pending k w p w', complete pending w ->
     get_ fuel k w = Returned p w' -> complete pending w') ->
  complete pending w -> slot_ fuel m w = Returned s w' -> complete pending w'.
Proof.
  intros IH Hc. unfold TypeStorage.slot, bind.
  destruct (get_ fuel (member_class m) w) as [sd w1| | |] eqn:Hget; try done.
  intros Hret. apply (complete_kept pending w1); [by eapply IH | |].
  - by eapply with_memory_statics.
  - pose proof (with_memory_grows _ w1
                  (Slot_new_blocks temporary sd (member_handleType m)
                     (member_offset m) (memory w1))) as Hg.
    rewrite Hret in Hg. apply Hg.
Qed.

Lemma sequence_complete fuel pending l : forall w ss w',
  (forall pending k w p w', complete pending w ->
     get_ fuel k w = Returned p w' -> complete pending w') ->
  complete pending w -> sequence (slot_ fuel) l w = Returned ss w' ->
  complete pending w'.
Proof.
  induction l as [|m l IHl]; intros w ss w' IH Hc; simpl.
  - by intros [= _ <-].
  - unfold bind.
    destruct (slot_ fuel m w) as [s w1| | |] eqn:Hslot; try done.
    destruct (sequence (slot_ fuel) l w1) as [ss' w2| | |] eqn:Hseq; try done.
    intros [= _ <-]. eapply IHl; [done | | done].
    by eapply slot_complete.
Qed.

(** A lookup that returns has constructed the descriptor of every class
    it set the static of; only the classes whose lookup is still running
    further up may be left unconstructed. *)
Lemma get_complete fuel : forall pending k w p w',
  complete pending w -> get_ fuel k w = Returned p w' -> complete pending w'.
Proof.
  induction fuel as [|fuel IH]; intros pending k w p w' Hc; [done |].
  rewrite get_unfold. destruct (definitions k) as [d|]; [| done].
  unfold bind at 1, get_state. case_bool_decide as Hset.
  { by intros [= _ <-]. }
  assert (static_storage w k = SDNull) as Hnull.
  { destruct (static_storage w k); try done; by destruct Hset. }
  unfold bind at 1. rewrite allocate_storage_allocated.
  set (size := objectSize sizeof_SD sizeof_Slot (def_n d)).
  set (w1 := allocated k size w).
  set (b := fresh (dom (blocks (memory w)))).
  pose proof (allocated_grows k size w Hnull) as Hg1. fold w1 in Hg1.
  pose proof (allocated_static k size w) as Hs1. fold w1 b in Hs1.
  pose proof (allocated_block k size w) as Hb1. fold w1 b in Hb1.
  assert (Hc1 : complete ({[k]} ∪ pending) w1).
  { intros k' Hk' Hset'.
    apply not_elem_of_union in Hk' as [Hne%not_elem_of_singleton Hpending].
    assert (static_storage w1 k' = static_storage w k') as Hsame.
    { unfold static_storage, w1, allocated. simpl. by rewrite lookup_insert_ne. }
    rewrite Hsame in Hset' |- *.
    destruct (Hc k' Hpending Hset') as (b' & sd' & Hs' & Hb').
    exists b', sd'. split; [done |].
    destruct Hg1 as (_ & Hblocks & _). rewrite Hblocks; [done |].
    apply elem_of_dom. by rewrite Hb'. }
  unfold bind at 1, get_state. rewrite Hs1.
  set (array_ := match def_array d with
                 | SlotEmpty => ret Slot_empty
                 | ArraySlot a => slot_ fuel a
                 end).
  unfold bind at 1.
  destruct (array_ w1) as [array w2| | |] eqn:Harray; try done.
  assert (grows w1 w2 /\ complete ({[k]} ∪ pending) w2) as [Hg2 Hc2].
  { subst array_. destruct (def_array d) as [|a].
    - injection Harray as _ <-. split; [apply grows_refl | done].
    - pose proof (slot_grows fuel a w1 (get_grows fuel)) as Hg.
      rewrite Harray in Hg. split; [apply Hg |].
      by eapply slot_complete. }
  unfold bind at 1.
  destruct (sequence (slot_ fuel) (def_values d) w2) as [values w3| | |]
    eqn:Hvalues; try done.
  assert (grows w2 w3 /\ complete ({[k]} ∪ pending) w3) as [Hg3 Hc3].
  { pose proof (sequence_grows (slot_ fuel) (def_values d) w2) as Hg.
    rewrite Hvalues in Hg. split.
    - apply Hg. intros m w0. apply slot_grows, get_grows.
    - by eapply sequence_complete. }
  destruct (grows_trans _ _ _ Hg2 Hg3) as (Hstatics & Hkept & _).
  assert (Hb3 : blocks (memory w3) !! b = Some (Raw size)).
  { rewrite Hkept; [done |]. apply elem_of_dom. by rewrite Hb1. }
  assert (Hs3 : static_storage w3 k = SDAt b).
  { rewrite <- Hs1. apply Hstatics. by rewrite Hs1. }
  unfold bind at 1. rewrite (init_world w3 b (Raw size)) by done. cbv zeta.
  destruct (_ || _); [| done].
  unfold bind, get_state, ret. intros [= _ <-].
  intros k' Hk' Hset'.
  change (static_storage (constructed b _ w3) k') with (static_storage w3 k')
    in Hset' |- *.
  destruct (decide (k' = k)) as [->|Hne].
  - eexists b, _. split; [done |]. simpl. by rewrite lookup_insert_eq.
  - assert (k' ∉ ({[k]} : gset klass) ∪ pending) as Hboth.
    { apply not_elem_of_union. by rewrite not_elem_of_singleton. }
    destruct (Hc3 k' Hboth Hset') as (b' & sd' & Hs' & Hb').
    exists b', sd'. split; [done |]. simpl.
    rewrite lookup_insert_ne; [done |]. intros <-. by rewrite Hb3 in Hb'.
Qed.

Lemma reachable_complete (g : G) w : lookups_from_ (initial g) w -> complete ∅ w.
Proof.
  assert (Hstart : complete ∅ (initial g)).
  { intros k _ Hset. unfold static_storage in Hset. simpl in Hset.
    by rewrite lookup_empty in Hset. }
  revert Hstart. generalize (initial g).
  induction 2 as [w0|w0 fuel k p w1 w2 Hget _ IH]; [done |].
  apply IH. by eapply get_complete.
Qed.

(** The contract of the registry: in every state reached from program
    start by completed lookups, a lookup that returns hands its caller a
    pointer to a constructed descriptor, and so is the descriptor of
    every other class whose static is set, whatever cycles the classes
    form. *)
Theorem toplevel_lookup_returns_constructed (g : G) w fuel k p w'
    (Hreached : lookups_from_ (initial g) w)
    (Hget : get_ fuel k w = Returned p w') :
  (exists sd, load p (memory w') = Returned sd (memory w'))
  /\ forall k', static_storage w' k' <> SDNull ->
       exists sd, load (static_storage w' k') (memory w')
                  = Returned sd (memory w').
Proof.
  assert (Hc : complete ∅ w').
  { eapply get_complete; [| done]. by apply (reachable_complete g). }
  assert (Hall : forall k', static_storage w' k' <> SDNull ->
            exists sd, load (static_storage w' k') (memory w')
                       = Returned sd (memory w')).
  { intros k' Hset.
    destruct (Hc k' (not_elem_of_empty k') Hset) as (b & sd & -> & Hb).
    exists sd. unfold load. by rewrite Hb. }
  split; [| done].
  pose proof (get_grows fuel k w) as Hg. rewrite Hget in Hg.
  destruct Hg as [_ [<- Hnonnull]]. by apply Hall.
Qed.

Lemma unset_shrinks classes w w' :
  statics_kept w w' -> length (unset classes w') <= length (unset classes w).
Proof.
  intros Hkept. unfold unset.
  induction classes as [|k classes IH]; [done |].
  rewrite !filter_cons.
  destruct (decide (static_storage w' k = SDNull)) as [Hnull'|Hset'];
    destruct (decide (static_storage w k = SDNull)) as [Hnull|Hset]; simpl; try lia.
  exfalso. rewrite (Hkept k Hset) in Hnull'. done.
Qed.

Lemma unset_allocated classes k size w :
  k ∈ classes -> static_storage w k = SDNull ->
  length (unset classes (allocated k size w)) < length (unset classes w).
Proof.
  intros Hin Hnull. unfold unset.
  pose proof (allocated_grows k size w Hnull) as (Hkept & _).
  induction classes as [|k' classes IH]; [by apply not_elem_of_nil in Hin |].
  rewrite !filter_cons.
  pose proof (unset_shrinks classes w (allocated k size w) Hkept) as Hle.
  unfold unset in Hle.
  destruct (decide (k' = k)) as [->|Hne].
  - rewrite decide_False, decide_True by (by rewrite ?allocated_static).
    simpl. lia.
  - apply elem_of_cons in Hin as [->|Hin]; [done |]. specialize (IH Hin).
    destruct (decide (static_storage (allocated k size w) k' = SDNull))
      as [Hnull'|Hset'];
      destruct (decide (static_storage w k' = SDNull)) as [Hnull0|Hset0];
      simpl; try lia.
    exfalso. rewrite (Hkept k' Hset0) in Hnull'. done.
Qed.

Lemma Slot_new_needs_no_fuel this sd type_ offset_ (mem : Memory G) :
  Slot_new gc this sd type_ offset_ mem <> OutOfFuel.
Proof.
  unfold Slot_new, Handle.construct_from_value, Handle.wasCreated,
    Handle.operator_arrow, Handle.get, with_gc, arrow_hasArray, load.
  run.
  repeat match goal with
         | |- context [gc_read gc ?a ?p ?g] =>
             destruct (gc_read gc a p g) as [[? ?] ?]; simpl
         | |- context [bool_decide ?P] => destruct (bool_decide P); simpl
         | |- context [match ?p with SDNull => _ | _ => _ end] =>
             destruct p; simpl
         | |- context [blocks mem !! ?b] =>
             destruct (blocks mem !! b) as [[?|?]|]; simpl
         | |- context [hasArray ?sd] => destruct (hasArray sd); simpl
         end; done.
Qed.

Lemma slot_terminates classes fuel m w :
  (forall k w, length (unset classes w) < fuel -> get_ fuel k w <> OutOfFuel) ->
  length (unset classes w) < fuel -> slot_ fuel m w <> OutOfFuel.
Proof.
  intros IH Hfuel. unfold TypeStorage.slot, bind.
  pose proof (IH (member_class m) w Hfuel) as Hget.
  destruct (get_ fuel (member_class m) w) as [sd w1| | |]; try done.
  unfold with_memory.
  pose proof (Slot_new_needs_no_fuel temporary sd (member_handleType m)
                (member_offset m) (memory w1)) as Hslot.
  by destruct (Slot_new _ _ _ _ _ _).
Qed.

Lemma sequence_terminates classes fuel l : forall w,
  (forall k w, length (unset classes w) < fuel -> get_ fuel k w <> OutOfFuel) ->
  length (unset classes w) < fuel ->
  sequence (slot_ fuel) l w <> OutOfFuel.
Proof.
  induction l as [|m l IHl]; intros w IH Hfuel; simpl; [done |].
  unfold bind.
  pose proof (slot_terminates classes fuel m w IH Hfuel) as Hslot.
  pose proof (slot_grows fuel m w (get_grows fuel)) as Hg.
  destruct (slot_ fuel m w) as [s w1| | |]; try done.
  destruct Hg as [(Hkept & _) _].
  assert (length (unset classes w1) < fuel) as Hfuel1.
  { pose proof (unset_shrinks classes w w1 Hkept). lia. }
  specialize (IHl w1 IH Hfuel1).
  by destruct (sequence (slot_ fuel) l w1).
Qed.

(** Lookups terminate.  When the classes with a storage definition are
    finitely many, a lookup never runs out of fuel that exceeds the
    number of classes whose static is not set yet: every step of the
    recursion sets one more static before it descends. *)
Theorem lookup_terminates (classes : list klass) fuel k w
    (Hfinite : forall k, definitions k <> None -> k ∈ classes)
    (Hfuel : length (unset classes w) < fuel) :
  get_ fuel k w <> OutOfFuel.
Proof.
  revert k w Hfuel. induction fuel as [|fuel IH]; intros k w Hfuel; [lia |].
  rewrite get_unfold. destruct (definitions k) as [d|] eqn:Hdef; [| done].
  unfold bind at 1, get_state. case_bool_decide as Hset; [done |].
  assert (static_storage w k = SDNull) as Hnull.
  { destruct (static_storage w k); try done; by destruct Hset. }
  unfold bind at 1. rewrite allocate_storage_allocated.
  set (size := objectSize sizeof_SD sizeof_Slot (def_n d)).
  set (w1 := allocated k size w).
  assert (length (unset classes w1) < fuel) as Hfuel1.
  { pose proof (unset_allocated classes k size w) as Hlt. fold w1 in Hlt.
    specialize (Hlt (Hfinite k ltac:(by rewrite Hdef)) Hnull). lia. }
  unfold bind at 1, get_state.
  set (array_ := match def_array d with
                 | SlotEmpty => ret Slot_empty
                 | ArraySlot a => slot_ fuel a
                 end).
  unfold bind at 1.
  assert (array_ w1 <> OutOfFuel
          /\ outcome_grows (fun _ _ => True) w1 (array_ w1)) as [Harray Hg2].
  { subst array_. destruct (def_array d) as [|a].
    - split; [done |]. split; [apply grows_refl | done].
    - split; [by eapply slot_terminates |]. apply slot_grows, get_grows. }
  destruct (array_ w1) as [array w2| | |]; try done.
  destruct Hg2 as [(Hkept2 & _) _].
  assert (length (unset classes w2) < fuel) as Hfuel2.
  { pose proof (unset_shrinks classes w1 w2 Hkept2). lia. }
  unfold bind at 1.
  pose proof (sequence_terminates classes fuel (def_values d) w2 IH Hfuel2)
    as Hvalues.
  destruct (sequence (slot_ fuel) (def_values d) w2) as [values w3| | |];
    try done.
  unfold bind at 1, with_memory, init, construct.
  destruct (copy_values values 0 ∅) as [numValues stored].
  unfold place. run.
  destruct (static_storage w1 k) as [| |b]; try done.
  destruct (blocks (memory w3) !! b); try done.
  by destruct DEBUG, (Z.pos (def_sizeof d) =? 0)%Z, (def_hasArray d), numValues.
Qed.





Section Circular.
Variables (k : klass) (sizeof_k : positive) (offset_ : Z).
Hypothesis Htransparent : transparent_read gc.
Hypothesis Hdef :
  definitions k
  = Some (ARW_DEFINE_STORAGE_1 sizeof_k (BuildMember k REFERENCE offset_)).




End Circular.

End TypeStorageFacts.

(** ** Scopes and call sequences *)

Section LocalScopeFacts.
Context {Descriptor Data : Type} `{Inhabited Descriptor, Inhabited Data}.
Implicit Types (s : LocalStack.t Descriptor Data).
Implicit Types (p : LocalScope.program Descriptor Data).

(** Scopes used in stack discipline never trip the check of [popTo],
    and each scope exit restores exactly the entries the stack had on
    scope entry: running a program appends the entries it pushes
    outside of any scope, and nothing else changes. *)
Theorem scopes_restore_the_stack p s :
  LocalScope.run p s
  = Returned tt (LocalStack.Build (LocalStack.entries s ++ LocalScope.pushed p)).
Proof.
  revert s. induction p as [|v rest IH|body IHbody rest IHrest]; intros s; simpl.
  - unfold ret, LocalStack.entries. rewrite app_nil_r. by destruct s.
  - unfold bind. rewrite push_value_appends, IH. simpl.
    unfold LocalStack.entries. simpl. by rewrite <- app_assoc.
  - unfold bind at 1, get_state. unfold bind at 1. rewrite IHbody.
    unfold bind at 1. rewrite popTo_in_range.
    + rewrite IHrest. unfold LocalStack.entries, LocalStack.top. simpl.
      by rewrite take_app_length.
    + unfold LocalStack.top, LocalStack.entries. simpl. rewrite length_app. lia.
Qed.
End LocalScopeFacts.

Section PoolTraceFacts.
Context {Descriptor Data : Type} `{EqDecision Descriptor, Countable Data}.
Implicit Types (p : PersistentPool.t Descriptor Data).
Implicit Types (x : Data) (d : Descriptor) (c : Z).
Implicit Types (calls : list (PoolTrace.call Descriptor Data)).

Lemma run_call_counts n p call p' :
  PoolTrace.bounded n p -> (0 <= n)%Z -> (n + 1 < size_t_modulus)%Z ->
  PoolTrace.run_call call p = Returned tt p' ->
  PoolTrace.bounded (n + 1) p'
  /\ (forall x, PoolTrace.refcount p' x
                = (PoolTrace.refcount p x + PoolTrace.delta x call)%Z)
  /\ (forall x d c, PersistentPool._map p' !! x = Some (d, c) ->
        PoolTrace.last_added x [call] = Some d
        \/ (PoolTrace.last_added x [call] = None
            /\ exists c0, PersistentPool._map p !! x = Some (d, c0))).
Proof.
  intros Hb Hn0 Hn. destruct call as [y d|y]; simpl.
  - destruct (PersistentPool._map p !! y) as [[d0 c0]|] eqn:Hy.
    + destruct (decide (d0 = d)) as [->|Hne];
        [| by erewrite add_conflict].
      erewrite add_present by done. intros [= <-]. simpl.
      pose proof (Hb y d c0 Hy) as Hc0.
      rewrite size_t_wrap_small by lia.
      split; [| split].
      * intros x d' c'. simpl. destruct (decide (x = y)) as [->|Hxy].
        -- rewrite lookup_insert_eq. intros [= <- <-]. lia.
        -- rewrite lookup_insert_ne by done. intros Hx.
           specialize (Hb x d' c' Hx). lia.
      * intros x. unfold PoolTrace.refcount. simpl.
        case_bool_decide as Hxy.
        -- subst x. rewrite lookup_insert_eq, Hy. done.
        -- rewrite lookup_insert_ne by done. lia.
      * intros x d' c'. simpl. case_bool_decide as Hxy.
        -- subst x. rewrite lookup_insert_eq. intros [= <- <-]. by left.
        -- rewrite lookup_insert_ne by done. intros Hx. right. eauto.
    + rewrite add_absent by done. intros [= <-]. simpl.
      split; [| split].
      * intros x d' c'. simpl. destruct (decide (x = y)) as [->|Hxy].
        -- rewrite lookup_insert_eq. intros [= <- <-]. lia.
        -- rewrite lookup_insert_ne by done. intros Hx.
           specialize (Hb x d' c' Hx). lia.
      * intros x. unfold PoolTrace.refcount. simpl.
        case_bool_decide as Hxy.
        -- subst x. rewrite lookup_insert_eq, Hy. done.
        -- rewrite lookup_insert_ne by done. lia.
      * intros x d' c'. simpl. case_bool_decide as Hxy.
        -- subst x. rewrite lookup_insert_eq. intros [= <- <-]. by left.
        -- rewrite lookup_insert_ne by done. intros Hx. right. eauto.
  - destruct (PersistentPool._map p !! y) as [[d0 c0]|] eqn:Hy;
      [| by rewrite remove_absent].
    erewrite remove_present by done. intros [= <-]. simpl.
    pose proof (Hb y d0 c0 Hy) as Hc0.
    rewrite size_t_wrap_small by lia.
    split; [| split].
    + intros x d' c'. simpl. case_bool_decide as Hz.
      * destruct (decide (x = y)) as [->|Hxy].
        -- by rewrite lookup_delete_eq.
        -- rewrite lookup_delete_ne by done. intros Hx.
           specialize (Hb x d' c' Hx). lia.
      * destruct (decide (x = y)) as [->|Hxy].
        -- rewrite lookup_insert_eq. intros [= <- <-]. lia.
        -- rewrite lookup_insert_ne by done. intros Hx.
           specialize (Hb x d' c' Hx). lia.
    + intros x. unfold PoolTrace.refcount. simpl.
      case_bool_decide as Hz; case_bool_decide as Hxy.
      * subst x. rewrite lookup_delete_eq, Hy. lia.
      * rewrite lookup_delete_ne by done. lia.
      * subst x. rewrite lookup_insert_eq, Hy. lia.
      * rewrite lookup_insert_ne by done. lia.
    + intros x d' c' Hx. simpl in Hx. right. split; [done |].
      case_bool_decide as Hz.
      * destruct (decide (x = y)) as [->|Hxy].
        -- by rewrite lookup_delete_eq in Hx.
        -- rewrite lookup_delete_ne in Hx by done. eauto.
      * destruct (decide (x = y)) as [->|Hxy].
        -- rewrite lookup_insert_eq in Hx. injection Hx as <- <-. eauto.
        -- rewrite lookup_insert_ne in Hx by done. eauto.
Qed.

Lemma run_counts calls : forall n p p',
  PoolTrace.bounded n p -> (0 <= n)%Z ->
  (n + Z.of_nat (length calls) < size_t_modulus)%Z ->
  PoolTrace.run calls p = Returned tt p' ->
  PoolTrace.bounded (n + Z.of_nat (length calls)) p'
  /\ (forall x, PoolTrace.refcount p' x
                = (PoolTrace.refcount p x + PoolTrace.balance x calls)%Z)
  /\ (forall x d c, PersistentPool._map p' !! x = Some (d, c) ->
        PoolTrace.last_added x calls = Some d
        \/ (PoolTrace.last_added x calls = None
            /\ exists c0, PersistentPool._map p !! x = Some (d, c0))).
Proof.
  induction calls as [|call calls IH]; intros n p p' Hb Hn0 Hn.
  - simpl. unfold ret. intros [= <-].
    split; [| split].
    + intros x d c Hx. specialize (Hb x d c Hx). lia.
    + intros x. lia.
    + intros x d c Hx. right. eauto.
  - cbn [PoolTrace.run]. unfold bind.
    destruct (PoolTrace.run_call call p) as [[] p1| | |] eqn:Hcall; try done.
    intros Hrun. cbn [length] in Hn |- *.
    destruct (run_call_counts n p call p1 Hb Hn0 ltac:(lia) Hcall)
      as (Hb1 & Hcount1 & Hdesc1).
    destruct (IH (n + 1)%Z p1 p' Hb1 ltac:(lia) ltac:(lia) Hrun)
      as (Hb' & Hcount' & Hdesc').
    split; [| split].
    + intros x d c Hx. specialize (Hb' x d c Hx). lia.
    + intros x. rewrite Hcount', Hcount1. simpl. lia.
    + intros x d c Hx. cbn [PoolTrace.last_added].
      destruct (Hdesc' x d c Hx) as [->|[-> [c1 Hx1]]]; [by left |].
      apply Hdesc1 in Hx1. simpl in Hx1. done.
Qed.

(** The pool counts the outstanding references.  After any sequence of
    fewer than 2^64 calls of [add] and [remove] on a new pool, none of
    which halted, the pool holds an identity exactly when it was added
    more often than removed, its refcount is the number of adds minus
    the number of removes, and its descriptor is the one of the last
    add. *)
Theorem pool_counts_outstanding_references calls p
    (Hrun : PoolTrace.run calls PersistentPool.new = Returned tt p)
    (Hlen : (Z.of_nat (length calls) < size_t_modulus)%Z) :
  forall x,
    (0 <= PoolTrace.balance x calls)%Z
    /\ (PersistentPool._map p !! x = None <-> PoolTrace.balance x calls = 0%Z)
    /\ forall d c, PersistentPool._map p !! x = Some (d, c) ->
         c = PoolTrace.balance x calls
         /\ PoolTrace.last_added x calls = Some d.
Proof.
  assert (Hb0 : PoolTrace.bounded 0 (PersistentPool.new : PersistentPool.t Descriptor Data)).
  { intros x d c Hx. simpl in Hx. by rewrite lookup_empty in Hx. }
  destruct (run_counts calls 0 PersistentPool.new p Hb0 ltac:(lia) ltac:(lia) Hrun)
    as (Hb & Hcount & Hdesc).
  assert (Hentry : forall x d c, PersistentPool._map p !! x = Some (d, c) ->
            c = PoolTrace.balance x calls /\ (0 < c)%Z
            /\ PoolTrace.last_added x calls = Some d).
  { intros x d c Hx. specialize (Hcount x). unfold PoolTrace.refcount in Hcount.
    rewrite Hx in Hcount. simpl in Hcount. rewrite lookup_empty in Hcount.
    split; [lia |]. split; [specialize (Hb x d c Hx); lia |].
    destruct (Hdesc x d c Hx) as [Hl|[_ [c0 Hc0]]]; [done |].
    simpl in Hc0. by rewrite lookup_empty in Hc0. }
  assert (Hnone : forall x, PersistentPool._map p !! x = None ->
            PoolTrace.balance x calls = 0%Z).
  { intros x Hx. specialize (Hcount x). unfold PoolTrace.refcount in Hcount.
    rewrite Hx in Hcount. simpl in Hcount. rewrite lookup_empty in Hcount. lia. }
  intros x. destruct (PersistentPool._map p !! x) as [[d c]|] eqn:Hx.
  - destruct (Hentry x d c Hx) as (Hc & Hpos & Hlast).
    split; [lia |]. split; [split; [done | lia] |].
    intros d' c' [= <- <-]. done.
  - rewrite (Hnone x Hx). split; [lia |]. split; [done | done].
Qed.
End PoolTraceFacts.

(** ** The contents of the registry *)

Section ReferenceSlotFacts.
Import StorageDescriptor.
Context {G : Type}.
Variable gc : GCHooks SDPtr G.

(** A slot that is not [VALUE] can be built from any pointer.  Its
    constructor reads the member once through the barrier and never
    looks at the memory the pointer points to: it returns, whatever the
    hooks do and whatever is (or is not yet) constructed there.  This is
    what lets a slot hold a forward reference to a descriptor that is
    still raw memory. *)
Theorem reference_slot_needs_no_descriptor this sd type_ offset_
    (mem : Memory G) (Htype : type_ <> VALUE) :
  let d := descriptor_or_boxed sd in
  Slot_new gc this sd type_ offset_ mem
  = Returned
      (BuildSlot (snd (fst (gc_read gc this d (gc_state mem)))) type_ offset_)
      (after_read gc this d mem).
Proof.
  intros d. subst d.
  unfold after_read, Slot_new, Handle.construct_from_value, Handle.wasCreated,
    Handle.get, with_gc. run.
  destruct (gc_read gc this (descriptor_or_boxed sd) (gc_state mem))
    as [[r stored] g'].
  simpl. by destruct type_, (bool_decide (Handle.object_at r = Handle.object_at SDBoxed)).
Qed.
End ReferenceSlotFacts.

Section RegistryContentsFacts.
Import StorageDescriptor TypeStorage RegistryContents.
Context {G : Type}.
Variable gc : GCHooks SDPtr G.
Variable DEBUG : bool.
Variables sizeof_SD sizeof_Slot : Z.
Variable definitions : klass -> option StorageDefinition.
Variable temporary : nat.

Abbreviation get_ :=
  (TypeStorage.get gc DEBUG sizeof_SD sizeof_Slot definitions temporary).
Abbreviation slot_ :=
  (TypeStorage.slot gc DEBUG sizeof_SD sizeof_Slot definitions temporary).
Abbreviation lookups_from_ :=
  (TypeStorage.lookups_from gc DEBUG sizeof_SD sizeof_Slot definitions temporary).
Abbreviation faithful_ := (faithful definitions).
Implicit Types (w : World G) (k : klass).




Lemma descriptor_or_boxed_at b : descriptor_or_boxed (SDAt b) = SDAt b.
Proof. unfold descriptor_or_boxed. by rewrite bool_decide_true. Qed.

(** The first lookup for a class: allocate, set the static, build the
    slots, construct the descriptor, return the static. *)
Lemma get_first fuel k d w :
  definitions k = Some d -> static_storage w k = SDNull ->
  get_ (S fuel) k w
  = (array <~ match def_array d with
              | SlotEmpty => ret Slot_empty
              | ArraySlot a => slot_ fuel a
              end ;;
     values <~ sequence (slot_ fuel) (def_values d) ;;
     with_memory (init DEBUG (SDAt (fresh (dom (blocks (memory w)))))
                    (Z.pos (def_sizeof d)) (def_hasArray d) array values) ;;;
     w2 <~ get_state ;;
     ret (static_storage w2 k))
      (allocated k (objectSize sizeof_SD sizeof_Slot (def_n d)) w).
Proof.
  intros Hdef Hnull. rewrite get_unfold, Hdef. unfold bind at 1, get_state.
  rewrite bool_decide_false by (by rewrite Hnull; intros Hne; apply Hne).
  unfold bind at 1. rewrite allocate_storage_allocated.
  unfold bind at 1, get_state. by rewrite allocated_static.
Qed.

Section Transparent.
Hypothesis Htransparent : transparent_read gc.





End Transparent.


(** A by-value member whose class is still under construction.  Let
    class [A] hold a [B] by value and class [B] hold a reference to
    [A], as [StorageDescriptor] holds its array [Slot] by value and
    [Slot] refers to a [StorageDescriptor].  When neither has a
    descriptor yet, the lookup for [B] has undefined behaviour: it
    descends into the lookup for [A], whose slot for the [B] member is
    built from the cached pointer to the memory of [B]'s descriptor,
    and the constructor of a [VALUE] slot reads [hasArray()] from that
    memory before anything was constructed there.  The lookup for [A]
    in the same state returns, with both descriptors constructed. *)
Theorem value_member_read_before_construction (A B : klass)
    (sizeof_A sizeof_B : positive) (offset_A offset_B : Z) w fuel
    (Htransparent : transparent_read gc)
    (HdefA : definitions A
             = Some (ARW_DEFINE_STORAGE_1 sizeof_A (BuildMember B VALUE offset_A)))
    (HdefB : definitions B
             = Some (ARW_DEFINE_STORAGE_1 sizeof_B
                       (BuildMember A REFERENCE offset_B)))
    (HnullA : static_storage w A = SDNull)
    (HnullB : static_storage w B = SDNull) :
  get_ (S (S (S fuel))) B w = Undefined
  /\ exists a b w',
       get_ (S (S (S fuel))) A w = Returned (SDAt a) w'
       /\ static_storage w' A = SDAt a /\ static_storage w' B = SDAt b
       /\ blocks (memory w') !! a
          = Some (Constructed (BuildSD (Z.pos sizeof_A) false Slot_empty 1
                                 {[ 0 := BuildSlot (SDAt b) VALUE offset_A ]}))
       /\ blocks (memory w') !! b
          = Some (Constructed (BuildSD (Z.pos sizeof_B) false Slot_empty 1
                                 {[ 0 := BuildSlot (SDAt a) REFERENCE offset_B ]})).
Proof.
  assert (HAB : A <> B).
  { intros ->. rewrite HdefA in HdefB. by injection HdefB. }
  assert (Hother : forall k k' size w0, k' <> k ->
            static_storage (allocated k size w0) k' = static_storage w0 k').
  { intros k k' size w0 Hne. unfold static_storage, allocated. simpl.
    by rewrite lookup_insert_ne. }
  split.
  - rewrite (get_first _ _ _ _ HdefB HnullB).
    cbn [ARW_DEFINE_STORAGE_1 def_n def_sizeof def_hasArray def_array def_values].
    set (w1 := allocated B _ w).
    unfold bind at 1, ret. cbn [sequence]. unfold bind at 1. unfold bind at 1.
    unfold TypeStorage.slot at 1. unfold bind at 1.
    cbn [member_class member_handleType member_offset].
    rewrite (get_first _ _ _ w1 HdefA) by (by unfold w1; rewrite Hother).
    cbn [ARW_DEFINE_STORAGE_1 def_n def_sizeof def_hasArray def_array def_values].
    set (w2 := allocated A _ w1).
    unfold bind at 1, ret. cbn [sequence]. unfold bind at 1. unfold bind at 1.
    unfold TypeStorage.slot at 1. unfold bind at 1.
    cbn [member_class member_handleType member_offset].
    assert (Hs2 : static_storage w2 B = SDAt (fresh (dom (blocks (memory w))))).
    { unfold w2. rewrite Hother by done. apply allocated_static. }
    rewrite get_cached; [| by rewrite HdefB | by rewrite Hs2].
    rewrite Hs2. unfold with_memory at 1.
    rewrite Slot_new_transparent by done. cbv zeta.
    rewrite (bool_decide_false (VALUE <> VALUE)) by (intros Hne; by apply Hne).
    rewrite !descriptor_or_boxed_at. rewrite bool_decide_false by done.
    unfold load, after_read. cbn [blocks].
    assert (blocks (memory w2) !! fresh (dom (blocks (memory w)))
            = Some (Raw (objectSize sizeof_SD sizeof_Slot 1))) as ->; [| done].
    unfold w2, allocated. cbn [memory blocks].
    rewrite lookup_insert_ne.
    + apply allocated_block.
    + intros Heq.
      apply (is_fresh (dom (blocks (memory w1)))). rewrite Heq.
      apply elem_of_dom. unfold w1. by rewrite allocated_block.
  - rewrite (get_first _ _ _ _ HdefA HnullA).
    cbn [ARW_DEFINE_STORAGE_1 def_n def_sizeof def_hasArray def_array def_values].
    set (a := fresh (dom (blocks (memory w)))).
    set (w1 := allocated A _ w).
    unfold bind at 1, ret. cbn [sequence]. unfold bind at 1. unfold bind at 1.
    unfold TypeStorage.slot at 1. unfold bind at 1.
    cbn [member_class member_handleType member_offset].
    rewrite (get_first _ _ _ w1 HdefB) by (by unfold w1; rewrite Hother).
    cbn [ARW_DEFINE_STORAGE_1 def_n def_sizeof def_hasArray def_array def_values].
    set (b := fresh (dom (blocks (memory w1)))).
    set (w2 := allocated B _ w1).
    assert (Hab : a <> b).
    { intros Heq. apply (is_fresh (dom (blocks (memory w1)))). fold b.
      rewrite <- Heq. apply elem_of_dom. unfold w1, a.
      by rewrite allocated_block. }
    assert (Hs2 : static_storage w2 A = SDAt a).
    { unfold w2. rewrite Hother by done. apply allocated_static. }
    unfold bind at 1, ret. cbn [sequence]. unfold bind at 1. unfold bind at 1.
    unfold TypeStorage.slot at 1. unfold bind at 1.
    cbn [member_class member_handleType member_offset].
    rewrite get_cached; [| by rewrite HdefA | by rewrite Hs2].
    rewrite Hs2. unfold with_memory at 1.
    rewrite Slot_new_transparent by done. cbv zeta.
    rewrite (bool_decide_true (REFERENCE <> VALUE)) by done.
    rewrite !descriptor_or_boxed_at.
    set (w3 := BuildWorld (after_read gc temporary (SDAt a) (memory w2))
                 (_arw_macro_storage w2) (allocations w2)).
    unfold bind at 1, ret. unfold bind at 1.
    rewrite (init_world DEBUG w3 b (Raw (objectSize sizeof_SD sizeof_Slot 1)))
      by (unfold w3, w2; simpl; by rewrite lookup_insert_eq).
    cbv zeta.
    assert (forall s : Slot,
              (negb DEBUG || negb (Z.pos sizeof_B =? 0)%Z
               || (negb false && (0 =? length [s])%nat)) = true) as Hassert
      by (intros s; by destruct DEBUG).
    rewrite Hassert.
    set (sdB := BuildSD (Z.pos sizeof_B) false Slot_empty _ _).
    set (w4 := constructed b sdB w3).
    unfold bind at 1, get_state, ret.
    assert (Hs4 : static_storage w4 B = SDAt b).
    { change (static_storage w2 B = SDAt b). apply allocated_static. }
    rewrite Hs4. unfold with_memory at 1.
    rewrite Slot_new_transparent by done. cbv zeta.
    rewrite (bool_decide_false (VALUE <> VALUE)) by (intros Hne; by apply Hne).
    rewrite !descriptor_or_boxed_at. rewrite bool_decide_false by done.
    unfold load, after_read. cbn [blocks].
    assert (blocks (memory w4) !! b = Some (Constructed sdB)) as ->
      by (unfold w4; simpl; by rewrite lookup_insert_eq).
    cbn [hasArray _hasArray sdB].
    set (w5 := BuildWorld _ (_arw_macro_storage w4) (allocations w4)).
    unfold bind at 1, ret. unfold bind at 1.
    assert (Hb5 : blocks (memory w5) !! a
                  = Some (Raw (objectSize sizeof_SD sizeof_Slot 1))).
    { unfold w5. cbn [memory blocks]. unfold w4, constructed, constructed_in.
      cbn [memory blocks]. rewrite lookup_insert_ne by done.
      unfold w3, after_read. cbn [memory blocks]. unfold w2, allocated.
      cbn [memory blocks]. rewrite lookup_insert_ne by done.
      apply allocated_block. }
    rewrite (init_world DEBUG w5 a _ _ _ _ _ Hb5). cbv zeta.
    assert (forall s : Slot,
              (negb DEBUG || negb (Z.pos sizeof_A =? 0)%Z
               || (negb false && (0 =? length [s])%nat)) = true) as HassertA
      by (intros s; by destruct DEBUG).
    rewrite HassertA.
    unfold bind, get_state, ret.
    set (sdA := BuildSD (Z.pos sizeof_A) false Slot_empty _ _).
    assert (Hs6 : static_storage (constructed a sdA w5) A = SDAt a) by exact Hs2.
    rewrite Hs6.
    exists a, b, (constructed a sdA w5).
    split; [done |]. split; [done |]. split; [exact Hs4 |].
    split.
    + simpl. by rewrite lookup_insert_eq.
    + simpl. rewrite lookup_insert_ne by done. by rewrite lookup_insert_eq.
Qed.
End RegistryContentsFacts.

(** ** Optionals *)

Ltac optional_unfold :=
  unfold Optional.run_call, Optional.swap, Optional.swap_objects,
    Optional.operator_star, Optional.get,
    Optional.assign_rvalue, Optional.assign_value, Optional.assign_move,
    Optional.assign_copy, Optional.destruct, Optional.construct_from_rvalue,
    Optional.construct_from_value, Optional.construct_move,
    Optional.construct_copy, Optional.construct_default, Optional.allocate,
    Optional.assign_by_move, Optional.assign_by_copy, Optional.clear,
    Optional.moveAssign, Optional.copyAssign, Optional.defaultConstruct,
    Optional.moveConstruct, Optional.copyConstruct, Optional.invokeDestructor,
    Optional.setSet, Optional.operator_bool, Optional.isSet,
    Optional.leave_moved_from, Optional.read_ref, Optional.memory,
    Optional.record, Optional.put, Optional.object,
    bind, ret, modify_state, get_state, undefined_behaviour in *.

Section OptionalFacts.
Context {T : Type}.
Variables copy_traits move_traits : Optional.traits.
Variable moved_from : T -> T.
Variable default_value : T.
Implicit Types (st : Optional.State T) (o : Optional.t T) (a this other : nat).

Abbreviation run_call_ :=
  (Optional.run_call copy_traits move_traits moved_from default_value).
Abbreviation proper_ := (Optional.proper copy_traits move_traits).
Abbreviation reachable_ :=
  (Optional.reachable copy_traits move_traits moved_from default_value).

Lemma live_snoc log e a :
  Optional.live (log ++ [e]) a
  = (Optional.live log a
     + match e with
       | Optional.Constructed b => if bool_decide (b = a) then 1 else 0
       | Optional.Destroyed b => if bool_decide (b = a) then -1 else 0
       | Optional.Assigned _ => 0
       end)%Z.
Proof.
  unfold Optional.live, Optional.occurrences.
  rewrite !filter_app, !length_app, !filter_cons, !filter_nil.
  destruct e as [b|b|b]; repeat case_decide; repeat case_bool_decide;
    simplify_eq; simpl; lia.
Qed.

(** A consistent state holds, at every address, nothing, an unset
    [Optional] or a set one. *)
Lemma consistent_at st a :
  Optional.consistent st ->
  (Optional.objects st !! a = None /\ Optional.live (Optional.events st) a = 0%Z)
  \/ (Optional.objects st !! a = Some Optional.nothing
      /\ Optional.live (Optional.events st) a = 0%Z)
  \/ (exists v, Optional.objects st !! a = Some (Optional.holding v)
                /\ Optional.live (Optional.events st) a = 1%Z).
Proof.
  intros Hc. specialize (Hc a).
  destruct (Optional.objects st !! a) as [[[|v] []]|]; try (by left);
    destruct Hc as [Hwf Hlive]; try done.
  - right. left. done.
  - right. right. by exists v.
Qed.

Ltac optional_step :=
  first [ rewrite lookup_insert_eq
        | rewrite lookup_insert_ne by congruence
        | rewrite lookup_delete_eq
        | rewrite lookup_delete_ne by congruence
        | match goal with
          | H : Optional.objects ?st !! ?a = _
            |- context [Optional.objects ?st !! ?a] => rewrite H
          end
        | progress cbn [Optional.objects Optional.events Optional._memory
                        Optional._set Optional.holding Optional.nothing
                        negb andb orb] ].

Ltac optional_run := optional_unfold; repeat optional_step.

(** The state an operation leaves is consistent again. *)
Ltac optional_lookups :=
  repeat match goal with
         | |- context [<[?b := _]> _ !! ?x] =>
             first [ rewrite lookup_insert_eq
                   | rewrite lookup_insert_ne by congruence
                   | destruct (decide (x = b)) as [->|?] ]
         | |- context [delete ?b _ !! ?x] =>
             first [ rewrite lookup_delete_eq
                   | rewrite lookup_delete_ne by congruence
                   | destruct (decide (x = b)) as [->|?] ]
         | |- context [bool_decide (?b = ?x)] =>
             first [ rewrite (bool_decide_true (b = x)) by done
                   | rewrite (bool_decide_false (b = x)) by congruence
                   | destruct (decide (x = b)) as [->|?] ]
         end.

Ltac optional_consistent Hc :=
  let a := fresh "a" in
  intros a; cbn [Optional.objects Optional.events];
  rewrite ?live_snoc; optional_lookups;
  cbn [Optional.well_formed Optional._memory Optional._set];
  try (split; [done | lia]); try lia;
  try (specialize (Hc a); destruct (Optional.objects _ !! a) as [[? ?]|];
       [destruct Hc as [? ?]; split; [done | lia] | lia]).

(** The cases of a consistent state at an operand. *)
Ltac optional_operand st x Hc Hproper :=
  let Hx := fresh "Hx" in
  let Hl := fresh "Hl" in
  let v := fresh "v" in
  destruct (consistent_at st x Hc) as [[Hx Hl]|[[Hx Hl]|(v & Hx & Hl)]];
  try (exfalso; unfold Optional.exists_at in Hproper; rewrite ?Hx in Hproper;
       repeat match goal with
              | H : _ /\ _ |- _ => destruct H
              end;
       first [ discriminate
             | match goal with
               | H : is_Some None |- _ => by apply is_Some_None in H
               end ]).

Ltac optional_solve Hc :=
  optional_run; eexists; (split; [reflexivity | optional_consistent Hc]).

Lemma call_consistent st c :
  Optional.consistent st -> proper_ st c ->
  exists st', run_call_ c st = Returned tt st' /\ Optional.consistent st'.
Proof.
  intros Hc Hproper.
  destruct c as [this|this other|this other|this v|this v|this|this other
                |this other|this v|this v|this|lhs rhs];
    cbn [Optional.proper] in Hproper.
  - (* New *)
    optional_operand st this Hc Hproper. optional_solve Hc.
  - (* NewCopy *)
    assert (this <> other) by (intros ->; destruct Hproper as [Hn [? Hs]]; congruence).
    optional_operand st this Hc Hproper; optional_operand st other Hc Hproper;
      destruct copy_traits; optional_solve Hc.
  - (* NewMove *)
    assert (this <> other) by (intros ->; destruct Hproper as [Hn [? Hs]]; congruence).
    optional_operand st this Hc Hproper; optional_operand st other Hc Hproper;
      destruct move_traits; optional_solve Hc.
  - optional_operand st this Hc Hproper; destruct copy_traits; optional_solve Hc.
  - optional_operand st this Hc Hproper; destruct move_traits; optional_solve Hc.
  - (* Delete *)
    optional_operand st this Hc Hproper; optional_solve Hc.
  - (* AssignCopy *)
    destruct (decide (this = other)) as [->|Hne].
    + optional_operand st other Hc Hproper;
        destruct copy_traits;
        try (exfalso; destruct Hproper as (_ & _ & Hself); by apply Hself);
        optional_solve Hc.
    + optional_operand st this Hc Hproper; optional_operand st other Hc Hproper;
        destruct copy_traits; optional_solve Hc.
  - (* AssignMove *)
    destruct (decide (this = other)) as [->|Hne].
    + optional_operand st other Hc Hproper;
        destruct move_traits;
        try (exfalso; destruct Hproper as (_ & _ & Hself); by apply Hself);
        optional_solve Hc.
    + optional_operand st this Hc Hproper; optional_operand st other Hc Hproper;
        destruct move_traits; optional_solve Hc.
  - optional_operand st this Hc Hproper; destruct copy_traits; optional_solve Hc.
  - optional_operand st this Hc Hproper; destruct move_traits; optional_solve Hc.
  - (* Clear *)
    optional_operand st this Hc Hproper; optional_solve Hc.
  - (* Swap *)
    destruct (decide (lhs = rhs)) as [->|Hne].
    + optional_operand st rhs Hc Hproper;
        destruct move_traits; optional_solve Hc.
    + optional_operand st lhs Hc Hproper; optional_operand st rhs Hc Hproper;
        destruct move_traits; optional_solve Hc.
Qed.

Lemma reachable_consistent st : reachable_ st -> Optional.consistent st.
Proof.
  induction 1 as [|st st' c _ IH Hproper Hrun].
  - intros a. simpl. by rewrite lookup_empty.
  - destruct (call_consistent st c IH Hproper) as (st'' & Hrun' & Hc).
    rewrite Hrun in Hrun'. by injection Hrun' as ->.
Qed.


Abbreviation assign_copy_ :=
  (Optional.assign_copy copy_traits default_value).
Abbreviation assign_move_ :=
  (Optional.assign_move move_traits moved_from default_value).
Abbreviation assign_value_ :=
  (Optional.assign_value copy_traits default_value).
Abbreviation swap_ := (Optional.swap move_traits moved_from default_value).

Ltac optional_contents :=
  unfold Optional.content_of, Optional.content, Optional.deref;
  cbn [Optional.objects Optional.events];
  repeat first [ rewrite lookup_insert_eq
               | rewrite lookup_insert_ne by congruence
               | match goal with
                 | H : Optional.objects ?st !! ?a = _
                   |- context [Optional.objects ?st !! ?a] => rewrite H
                 end ];
  try reflexivity.


(** Assigning an optional to itself.  Copy assignment of a set optional
    to itself keeps its value, provided [T] is assignable (the object is
    then assigned to itself); move assignment to itself leaves the
    optional empty, since the source is cleared after the move.  When
    [T] can be constructed but not assigned, either self-assignment
    destroys the object and then constructs the new one from the
    destroyed one: undefined behaviour.  [swap] of an optional with
    itself keeps its value. *)
Theorem optional_self_assignment st this v
    (Hconsistent : Optional.consistent st)
    (Hset : Optional.objects st !! this = Some (Optional.holding v)) :
  (copy_traits <> Optional.ConstructOnly ->
     exists st', assign_copy_ this this st = Returned tt st'
       /\ Optional.content_of st' this = Some v)
  /\ (copy_traits = Optional.ConstructOnly ->
        assign_copy_ this this st = Undefined)
  /\ (move_traits <> Optional.ConstructOnly ->
        exists st', assign_move_ this this st = Returned tt st'
          /\ Optional.content_of st' this = None)
  /\ (move_traits = Optional.ConstructOnly ->
        assign_move_ this this st = Undefined)
  /\ (exists st', swap_ this this st = Returned tt st'
        /\ Optional.content_of st' this = Some v).
Proof.
  split; [| split; [| split; [| split]]].
  - intros Hne. destruct copy_traits; [| done |];
      optional_run; eexists; (split; [reflexivity |]); optional_contents.
  - intros ->. by optional_run.
  - intros Hne. destruct move_traits; [| done |];
      optional_run; eexists; (split; [reflexivity |]); optional_contents.
  - intros ->. by optional_run.
  - optional_run. eexists. split; [reflexivity |]. optional_contents.
Qed.
End OptionalFacts.

Section OptionalOrder.
Context {T : Type}.
Variables T_eq T_lt : T -> T -> bool.
Implicit Types (x y z : Optional.t T) (v w : T).

Abbreviation eq_ := (Optional.eq T_eq).
Abbreviation lt_ := (Optional.lt T_lt).

(** The comparison operators order optionals the way [T] is ordered,
    with the empty optional below every value.  When [operator<] of [T]
    is a strict total order, then for well-formed optionals every
    comparison is defined, exactly one of [x < y], [x == y], [x > y]
    holds, [<] is transitive, [<=] is [<] or [==] and [>=] is [>] or
    [==].  Comparing with a plain value gives what comparing with an
    optional holding that value gives, for all twelve mixed
    operators. *)
Theorem optional_order_extends_T x y z v w
    (Hx : Optional.well_formed x) (Hy : Optional.well_formed y)
    (Hz : Optional.well_formed z)
    (Horder : Optional.strict_total_order T_eq T_lt) :
  (exists l e g,
     lt_ x y = Some l /\ eq_ x y = Some e /\ Optional.gt T_lt x y = Some g
     /\ Optional.exactly_one l e g
     /\ Optional.ne T_eq x y = Some (negb e)
     /\ Optional.le T_lt x y = Some (l || e)
     /\ Optional.ge T_lt x y = Some (g || e))
  /\ (lt_ x y = Some true -> lt_ y z = Some true -> lt_ x z = Some true)
  /\ lt_ Optional.nothing (Optional.holding v) = Some true
  /\ lt_ x Optional.nothing = Some false
  /\ eq_ Optional.nothing Optional.nothing = Some true
  /\ eq_ Optional.nothing (Optional.holding v) = Some false
  /\ lt_ (Optional.holding v) (Optional.holding w) = Some (T_lt v w)
  /\ eq_ (Optional.holding v) (Optional.holding w) = Some (T_eq v w)
  /\ Optional.eq_value T_eq x v = eq_ x (Optional.holding v)
  /\ Optional.ne_value T_eq x v = Optional.ne T_eq x (Optional.holding v)
  /\ Optional.lt_value T_lt x v = lt_ x (Optional.holding v)
  /\ Optional.gt_value T_lt x v = Optional.gt T_lt x (Optional.holding v)
  /\ Optional.le_value T_lt x v = Optional.le T_lt x (Optional.holding v)
  /\ Optional.ge_value T_lt x v = Optional.ge T_lt x (Optional.holding v)
  /\ Optional.value_eq T_eq v y = eq_ (Optional.holding v) y
  /\ Optional.value_ne T_eq v y = Optional.ne T_eq (Optional.holding v) y
  /\ Optional.value_lt T_lt v y = lt_ (Optional.holding v) y
  /\ Optional.value_gt T_lt v y = Optional.gt T_lt (Optional.holding v) y
  /\ Optional.value_le T_lt v y = Optional.le T_lt (Optional.holding v) y
  /\ Optional.value_ge T_lt v y = Optional.ge T_lt (Optional.holding v) y.
Proof.
  destruct Horder as [Hone Htrans].
  destruct x as [[|a] []], y as [[|b] []], z as [[|c] []]; try done;
    unfold Optional.well_formed in Hx, Hy, Hz; simpl in Hx, Hy, Hz; try done.
  all: unfold Optional.le_value, Optional.ge_value, Optional.gt_value,
         Optional.ne_value, Optional.value_le, Optional.value_ge,
         Optional.value_gt, Optional.value_ne, Optional.le, Optional.ge,
         Optional.gt, Optional.ne, Optional.eq_value, Optional.lt_value,
         Optional.value_eq, Optional.value_lt, Optional.eq, Optional.lt,
         Optional.deref, Optional.exactly_one, Optional.holding,
         Optional.nothing; simpl.
  all: split; [eexists _, _, _; repeat split;
               try (specialize (Hone a b); unfold Optional.exactly_one in Hone;
                    destruct (T_lt a b), (T_eq a b), (T_lt b a); done) |].
  all: split; [try done; intros [= Hab] [= Hbc]; f_equal; by eapply Htrans |].
  all: repeat split.
Qed.
End OptionalOrder.

(** ** Swapping handles *)

Section HandleSwapFacts.
Context {T Ptr W : Type} `{Countable Ptr}.
Variable hooks : Hooks T Ptr W.

Abbreviation swap_ ty := (HandleSwap.swap ty (RecordingHooks hooks)).
Abbreviation strong p := (@Handle.Build T Ptr REFERENCE p).
Abbreviation weak p := (@Handle.Build T Ptr WEAK p).
Abbreviation value a := (@Handle.Build T Ptr VALUE a).

Ltac swap_reference_proof Ht p q objs :=
  unfold HandleSwap.swap, HandleSwap.with_hooks, HandleSwap.swap_objects,
    Handle.get; run;
  rewrite ?decide_False by done;
  repeat match goal with
         | |- context [read hooks ?a ?b ?c] =>
             let Hr := fresh "Hr" in
             destruct (Ht a b c) as [? Hr]; rewrite Hr; simpl
         end;
  rewrite ?decide_False by done; simpl;
  destruct (objs !! p), (objs !! q); simpl; rewrite <- ?app_assoc; eauto.

Lemma swap_strong lhs_first lhs rhs (p q : Ptr) w log (objs : gmap Ptr T) :
  HandleSwap.transparent_hooks hooks -> lhs <> rhs ->
  exists w',
    swap_ REFERENCE lhs_first lhs rhs (strong p) (strong q)
      (HandleSwap.BuildHeap (w, log) objs)
    = match objs !! p, objs !! q with
      | Some a, Some b =>
          Returned (strong p, strong q)
            (HandleSwap.BuildHeap
               (w', log ++ (if lhs_first then [ReadCall lhs; ReadCall rhs]
                            else [ReadCall rhs; ReadCall lhs]))
               (<[q := a]> (<[p := b]> objs)))
      | _, _ => Undefined
      end.
Proof. intros Ht Hne. destruct lhs_first; swap_reference_proof Ht p q objs. Qed.

Lemma swap_weak lhs_first lhs rhs (p q : Ptr) w log (objs : gmap Ptr T) :
  HandleSwap.transparent_hooks hooks -> lhs <> rhs ->
  exists w',
    swap_ WEAK lhs_first lhs rhs (weak p) (weak q)
      (HandleSwap.BuildHeap (w, log) objs)
    = match objs !! p, objs !! q with
      | Some a, Some b =>
          Returned (weak p, weak q)
            (HandleSwap.BuildHeap
               (w', log ++ (if lhs_first then [ReadCall lhs; ReadCall rhs]
                            else [ReadCall rhs; ReadCall lhs]))
               (<[q := a]> (<[p := b]> objs)))
      | _, _ => Undefined
      end.
Proof. intros Ht Hne. destruct lhs_first; swap_reference_proof Ht p q objs. Qed.

(** [std::swap] on two handles swaps what they refer to, not the
    handles.  On two distinct strong (or two weak) handles that hold
    [p] and [q], with a read hook that hands out the stored pointer and
    leaves it in place: whichever operand is evaluated first, each
    handle is read once through the hook and [write], [created] and
    [destroyed] are never called; both handles hold the pointer they
    held before; the objects at [p] and [q] have exchanged their
    values; and when one of the pointers does not point to an object
    the behaviour is undefined.  On two distinct value handles no hook
    is called and the payloads change places. *)
Theorem handle_swap_exchanges_referents (lhs_first : bool) (lhs rhs : nat)
    (p q : Ptr) (a b : T) (w : W) (log : list HookCall) (objs : gmap Ptr T)
    (Htransparent : HandleSwap.transparent_hooks hooks)
    (Hdistinct : lhs <> rhs) :
  let reads := if lhs_first then [ReadCall lhs; ReadCall rhs]
               else [ReadCall rhs; ReadCall lhs] in
  let heap := HandleSwap.BuildHeap (w, log) objs in
  (forall x y, objs !! p = Some x -> objs !! q = Some y ->
     exists w',
       swap_ REFERENCE lhs_first lhs rhs (strong p) (strong q) heap
       = Returned (strong p, strong q)
           (HandleSwap.BuildHeap (w', log ++ reads) (<[q := x]> (<[p := y]> objs))))
  /\ (forall x y, objs !! p = Some x -> objs !! q = Some y ->
        exists w',
          swap_ WEAK lhs_first lhs rhs (weak p) (weak q) heap
          = Returned (weak p, weak q)
              (HandleSwap.BuildHeap (w', log ++ reads)
                 (<[q := x]> (<[p := y]> objs))))
  /\ (objs !! p = None \/ objs !! q = None ->
        swap_ REFERENCE lhs_first lhs rhs (strong p) (strong q) heap
        = Undefined)
  /\ swap_ VALUE lhs_first lhs rhs (value a) (value b) heap
     = Returned (value b, value a) heap.
Proof.
  intros reads heap. subst reads heap.
  pose proof (swap_strong lhs_first lhs rhs p q w log objs Htransparent Hdistinct)
    as [w1 Href].
  pose proof (swap_weak lhs_first lhs rhs p q w log objs Htransparent Hdistinct)
    as [w2 Hweak].
  split; [| split; [| split]].
  - intros a' b' Hp Hq. rewrite Hp, Hq in Href. eauto.
  - intros a' b' Hp Hq. rewrite Hp, Hq in Hweak. eauto.
  - intros [Hp|Hq]; rewrite Href.
    + by rewrite Hp.
    + rewrite Hq. by destruct (objs !! p).
  - unfold HandleSwap.swap, HandleSwap.with_hooks, Handle.get. run.
    destruct lhs_first, (decide (lhs = rhs)); done.
Qed.
End HandleSwapFacts.

(** ** The lexer *)

Section LexerFacts.
Import Lexer LexerTrace.
Import String.StringSyntax Ascii.AsciiSyntax.

#[local] Arguments to_int : simpl never.
#[local] Arguments of_int : simpl never.

Lemma check_snoc log position callback :
  check (log ++ [(position, callback)])
  = check log ≫= fun open => track open callback.
Proof. unfold check. by rewrite foldl_app. Qed.

Lemma returns_mono {A} (P Q : t -> Prop) (o : outcome t A) :
  (forall lx, P lx -> Q lx) -> returns P o -> returns Q o.
Proof. intros HPQ. destruct o; simpl; auto. Qed.

(** The thirty states after one precision digit encode the type letter
    and the digit, and the two decoders read them back. *)
Lemma suffix_decoded DEBUG state type digit lx :
  suffix_of state = Some (type, digit) ->
  type_of_precision_state DEBUG state lx = Returned type lx
  /\ numberPrecisionDigit DEBUG state lx = Returned digit lx.
Proof.
  destruct state; simpl; intros [= <- <-]; destruct DEBUG; by vm_compute.
Qed.

Lemma suffix_encoded type digit :
  type <> P_UNSPECIFIED -> (0 <= digit <= 9)%Z ->
  exists state,
    of_int (to_int (match type with
                    | P_UNSIGNED => GOT_NUMBER_PRECISION_U_0
                    | P_IMPRECISE => GOT_NUMBER_PRECISION_F_0
                    | _ => GOT_NUMBER_PRECISION_I_0
                    end) + digit) = Some state
    /\ suffix_of state = Some (type, digit).
Proof.
  intros Htype Hdigit.
  assert (Hcases : (digit = 0 \/ digit = 1 \/ digit = 2 \/ digit = 3
                    \/ digit = 4 \/ digit = 5 \/ digit = 6 \/ digit = 7
                    \/ digit = 8 \/ digit = 9)%Z) by lia.
  repeat (destruct Hcases as [->|Hcases]); try subst digit;
    destruct type; try done; eexists; by vm_compute.
Qed.

Lemma suffix_open state suffix :
  suffix_of state = Some suffix ->
  open_of state = Some NUMBER /\ ended state = false /\ depth state = 1.
Proof. by destruct state. Qed.

Lemma isDigit_range chr :
  isDigit chr = true -> (0 <= chr - code "0" <= 9)%Z.
Proof.
  unfold isDigit. intros [H1 H2]%andb_prop.
  change (code "0") with 48%Z in *. change (code "9") with 57%Z in *. lia.
Qed.

Lemma uint64_nonneg z : (uint64 z >=? 0)%Z = true.
Proof. unfold uint64. apply Z.geb_le. apply Z.mod_pos_bound. lia. Qed.

Lemma uint64_add_l a b : uint64 (uint64 a + b) = uint64 (a + b).
Proof. unfold uint64. by rewrite Zplus_mod_idemp_l. Qed.

Lemma uint64_idemp a : uint64 (uint64 a) = uint64 a.
Proof. unfold uint64. by rewrite Z.mod_mod. Qed.

Ltac lex_lazy :=
  lazy beta iota zeta delta
    [bind ret get_state put_state modify_state undefined_behaviour
     ARW_ASSERT ARW_CHECK Check set_state call makePosition report
     handleNewline lexEndOfNumber type_of_number_type_state
     _state _recv _offset _line _column].

(** Evaluation of the lexer's code on a state whose [_state] is known.
    The assertion of [makePosition()] holds on every column. *)
Ltac lex_eval :=
  lex_lazy;
  repeat match goal with
         | |- context [type_of_precision_state ?D ?st ?lx] =>
             rewrite (proj1 (suffix_decoded D st _ _ lx eq_refl))
         | |- context [numberPrecisionDigit ?D ?st ?lx] =>
             rewrite (proj2 (suffix_decoded D st _ _ lx eq_refl))
         end;
  repeat (progress (change (uint64 (- 0)) with 0%Z; rewrite ?uint64_nonneg);
          cbn [andb orb negb]; lex_lazy);
  repeat (match goal with
          | |- context [@bool_decide (?a = ?b) ?d] =>
              first [ rewrite (@bool_decide_true (a = b) d) by done
                    | rewrite (@bool_decide_false (a = b) d) by done ]
          end; cbn [andb orb negb]; lex_lazy).

Ltac lex_absurd H :=
  first [ apply bool_decide_eq_true in H; discriminate H
        | apply bool_decide_eq_false in H; by contradiction H ].

Ltac lex_encoded type :=
  lazymatch goal with
  | Hdigit : isDigit ?chr = true |- context [of_int (to_int _ + ?d)] =>
      let Hstate := fresh "Hstate" in
      let Hsuffix := fresh "Hsuffix" in
      destruct (suffix_encoded type d) as (? & Hstate & Hsuffix);
      [done | by apply isDigit_range |];
      rewrite Hstate;
      destruct (suffix_open _ _ Hsuffix) as (? & ? & ?)
  end.

Ltac lex_if :=
  lazymatch goal with
  | |- returns _ (if ?c then _ else _) =>
      let H := fresh "Hif" in destruct c eqn:H; try lex_absurd H
  | |- returns _ ((if ?c then _ else _) _) =>
      let H := fresh "Hif" in destruct c eqn:H; try lex_absurd H
  | |- returns _ (match (if ?c then _ else _) _ with _ => _ end) =>
      let H := fresh "Hif" in destruct c eqn:H; try lex_absurd H
  | |- context [of_int (to_int GOT_NUMBER_PRECISION_I_0 + _)] =>
      lex_encoded P_SIGNED
  | |- context [of_int (to_int GOT_NUMBER_PRECISION_U_0 + _)] =>
      lex_encoded P_UNSIGNED
  | |- context [of_int (to_int GOT_NUMBER_PRECISION_F_0 + _)] =>
      lex_encoded P_IMPRECISE
  end; lex_eval.

Ltac lex_run := lex_eval; repeat lex_if.

Ltac lex_tracked :=
  cbn [returns];
  lazymatch goal with
  | Hcheck : check _ = Some _ |- tracked _ =>
      unfold tracked; simpl; rewrite ?check_snoc, Hcheck; simpl;
      eexists; split; [reflexivity | first [done | congruence]]
  end.

Lemma lexChar_tracked n chr lx :
  depth (_state lx) <= n -> tracked lx ->
  returns tracked (lexChar false n chr lx).
Proof.
  revert chr lx. induction n as [|n IH]; intros chr lx Hdepth Htracked.
  { destruct (_state lx); simpl in Hdepth; lia. }
  destruct lx as [log off line col st].
  destruct Htracked as (open & Hcheck & Hopen). simpl in Hcheck, Hopen, Hdepth.
  destruct st; simpl in Hdepth.
  1-2: cbn [lexChar]; lex_run; lex_tracked.
  all: specialize (Hopen eq_refl); simpl in Hopen; subst open.
  all: cbn [lexChar].
  all: lex_run.
  all: try lex_tracked.
  all: try (apply IH; [simpl; lia | lex_tracked]).
Qed.

Lemma depth_le_3 state : depth state <= 3.
Proof. destruct state; simpl; lia. Qed.

Lemma lex_tracked_from input lx :
  tracked lx -> returns tracked (lex false 3 input lx).
Proof.
  revert lx. induction input as [|chr rest IH]; intros lx Htracked; [done|].
  cbn [lex]. unfold bind at 1, modify_state at 1.
  unfold bind at 1.
  match goal with
  | |- context [lexChar false 3 chr ?lx1] =>
      pose proof (lexChar_tracked 3 chr lx1 (depth_le_3 _) Htracked) as Hchar;
      destruct (lexChar false 3 chr lx1) as [[] lx2| | |]; try done
  end.
  unfold bind at 1, modify_state at 1. by apply IH.
Qed.

(** Tokens never overlap, and a release build lexes every input to the
    end.  For every input, [lex] on a new lexer returns (no halt, no
    undefined behaviour, [lexChar] never more than three calls deep);
    in the calls the receiver got, every end call closes the begin call
    of its own kind that is the last begin or end before it, and no
    begin call and no token of one or two characters comes while a
    comment, string, regex, character, number or symbol is open; and
    unless the lexer has seen the end of the input, the token left open
    is the one its state is inside of. *)
Theorem lexer_tokens_never_overlap (input : list Z) :
  exists lx open,
    lex false 3 input new = Returned tt lx
    /\ check (_recv lx) = Some open
    /\ (ended (_state lx) = false -> open = open_of (_state lx)).
Proof.
  assert (Hnew : tracked new) by (by exists None).
  pose proof (lex_tracked_from input new Hnew) as Hlex.
  destruct (lex false 3 input new) as [[] lx| | |]; try done.
  destruct Hlex as (open & Hcheck & Hopen). by exists lx, open.
Qed.

Lemma lex_after_error DEBUG fuel input lx :
  _state lx = ENDED_REPORTED_ERROR ->
  exists lx',
    lex DEBUG (S fuel) input lx = Returned tt lx'
    /\ _recv lx' = _recv lx /\ _state lx' = ENDED_REPORTED_ERROR.
Proof.
  revert lx. induction input as [|chr rest IH]; intros lx Hstate.
  { by exists lx. }
  destruct lx as [log off line col st]. simpl in Hstate. subst st.
  cbn [lex lexChar]. lex_eval.
  match goal with
  | |- context [lex DEBUG (S fuel) rest ?lx1] =>
      destruct (IH lx1 eq_refl) as (lx' & -> & Hlog & Hstate)
  end.
  by exists lx'.
Qed.

(** Data after the end of the input is reported once.  In both builds,
    a lexer that has seen the end (state [ENDED] or
    [ENDED_REPORTED_ERROR]) returns on every further input and stays
    ended; if it has not reported stray data yet and the input is not
    empty, the receiver gets exactly one call, the error at the
    position of the first further character, and otherwise none. *)
Theorem stray_data_reported_once (DEBUG : bool) (fuel : nat) (input : list Z)
    (lx : t) (Hended : ended (_state lx) = true) :
  exists lx',
    lex DEBUG (S fuel) input lx = Returned tt lx'
    /\ _recv lx'
       = _recv lx
         ++ (if bool_decide (_state lx = ENDED) && bool_decide (input <> [])
             then [(BuildPosition (uint64 (_offset lx)) (_line lx)
                      (uint64 (_column lx + 1)),
                    error "Got stray data after end")]
             else [])
    /\ ended (_state lx') = true
    /\ (input <> [] -> _state lx' = ENDED_REPORTED_ERROR).
Proof.
  destruct lx as [log off line col st]. simpl in *.
  destruct st; try done; clear Hended.
  - destruct input as [|chr rest].
    { eexists. split; [done|]. simpl. by rewrite app_nil_r. }
    assert (Hstep :
      lex DEBUG (S fuel) (chr :: rest) (Build log off line col ENDED)
      = lex DEBUG (S fuel) rest
          (Build (log ++ [(BuildPosition (uint64 off) line (uint64 (col + 1)),
                           error "Got stray data after end")])
                 (uint64 (off + 1)) line (uint64 (col + 1))
                 ENDED_REPORTED_ERROR)).
    { cbn [lex lexChar].
      by destruct DEBUG; lex_eval; rewrite !Z.add_0_r, uint64_idemp. }
    rewrite Hstep.
    match goal with
    | |- context [lex DEBUG (S fuel) rest ?lx1] =>
        destruct (lex_after_error DEBUG fuel rest lx1 eq_refl)
          as (lx' & Hlex & Hlog & Hstate)
    end.
    exists lx'. by rewrite Hlex, Hlog, Hstate.
  - destruct (lex_after_error DEBUG fuel input
                (Build log off line col ENDED_REPORTED_ERROR) eq_refl)
      as (lx' & Hlex & Hlog & Hstate).
    exists lx'. rewrite Hlex, Hlog, Hstate. simpl. by rewrite app_nil_r.
Qed.

(** What is known of a character, as arithmetic. *)
Ltac chr_fact H :=
  unfold number_continues in H;
  unfold isSymbolChar, isReservedChar in H;
  unfold isLetter, isDigit, eqc, LF, CR, TAB, NUL, DOUBLE_QUOTE, BACKSLASH in H;
  repeat match type of H with
         | context [code ?a] =>
             let v := eval vm_compute in (code a) in
             change (code a) with v in H
         end;
  lazymatch type of H with
  | _ = false => apply not_true_iff_false in H
  | _ => idtac
  end;
  repeat first
    [ rewrite negb_true_iff, <- not_true_iff_false in H
    | rewrite andb_true_iff in H
    | rewrite orb_true_iff in H
    | rewrite bool_decide_eq_true in H
    | rewrite Z.eqb_eq in H
    | rewrite Z.leb_le in H
    | rewrite Z.geb_le in H ].

(** A test of the lexer on a character, decided by what is known. *)
Ltac lex_test :=
  lazymatch goal with
  | |- context [if ?c then _ else _] =>
      let H := fresh "Htest" in
      first
        [ assert (H : c = false)
            by (destruct c eqn:H; [exfalso; chr_fact H; lia | reflexivity]);
          rewrite H; clear H
        | assert (H : c = true)
            by (destruct c eqn:H; [reflexivity | exfalso; chr_fact H; lia]);
          rewrite H; clear H
        | destruct c eqn:H; chr_fact H ]
  end; lex_eval.

(** Two outcomes that differ in how their positions are written. *)
Ltac lex_same :=
  repeat match goal with
         | |- context [if ?c then _ else _] => destruct c
         end;
  repeat first [ rewrite <- Z.add_assoc | rewrite uint64_add_l
               | rewrite uint64_idemp | rewrite Z.add_0_r ];
  rewrite <- ?app_assoc, ?app_nil_r;
  cbn [app];
  repeat match goal with
         | |- uint64 _ = uint64 _ => f_equal; lia
         | |- _ => progress f_equal
         end.

Lemma lexChar_whitespace_fuel DEBUG n m chr lx :
  _state lx = IN_WHITESPACE ->
  lexChar DEBUG (S n) chr lx = lexChar DEBUG (S m) chr lx.
Proof. destruct lx as [log off line col st]. simpl. by intros ->. Qed.

Lemma lex_digits DEBUG fuel digits rest log off line col :
  forallb isDigit digits = true ->
  lex DEBUG (S fuel) (digits ++ rest)
    (Build log (uint64 off) line (uint64 col) IN_NUMBER)
  = lex DEBUG (S fuel) rest
      (Build log (uint64 (off + Z.of_nat (length digits))) line
         (uint64 (col + Z.of_nat (length digits))) IN_NUMBER).
Proof.
  revert off col.
  induction digits as [|digit digits IH]; intros off col Hdigits.
  { simpl. by rewrite !Z.add_0_r. }
  apply andb_prop in Hdigits as [Hdigit Hdigits].
  cbn [app lex lexChar]. lex_eval. rewrite Hdigit. lex_eval.
  rewrite !uint64_add_l, IH by done.
  do 2 f_equal; f_equal; simpl length; lia.
Qed.

(** The character that ends a number is dropped.  In both builds, on a
    lexer in whitespace, a decimal literal (a digit from 1 to 9, then
    digits) followed by a character that is no digit, dot or type
    letter gives the receiver [numberBegin] at the first digit and
    [numberEnd] (no type, precision -1) at that character, with the
    error for a symbol character between them; then the lexer is in
    whitespace again and has made no call for the character itself:
    a brace or a semicolon right after the number is never reported,
    and a [\0] there does not end the input. *)
Theorem number_terminator_is_dropped (DEBUG : bool) (fuel : nat)
    (digit : Z) (digits : list Z) (chr : Z) (lx : t)
    (Hstate : _state lx = IN_WHITESPACE)
    (Hdigit : isDigit digit = true)
    (Hnonzero : digit <> code "0")
    (Hdigits : forallb isDigit digits = true)
    (Hchr : number_continues chr = false) :
  let n := Z.of_nat (length digits) in
  let first :=
    BuildPosition (uint64 (_offset lx)) (_line lx) (uint64 (_column lx + 1)) in
  let last :=
    BuildPosition (uint64 (_offset lx + n + 1)) (_line lx)
      (uint64 (_column lx + n + 2)) in
  lex DEBUG (S fuel) (digit :: digits ++ [chr]) lx
  = Returned tt
      (Build
         (_recv lx
          ++ [(first, numberBegin false DECIMAL)]
          ++ (if isSymbolChar chr
              then [(last,
                     error "Number immediately followed by symbol character")]
              else [])
          ++ [(last, numberEnd P_UNSPECIFIED (-1))])
         (uint64 (_offset lx + n + 2)) (_line lx)
         (uint64 (_column lx + n + 2)) IN_WHITESPACE).
Proof.
  destruct lx as [log off line col st]. simpl in Hstate. subst st.
  cbn [_recv _offset _line _column].
  chr_fact Hdigit. chr_fact Hnonzero. chr_fact Hchr.
  cbn [lex lexChar]. lex_eval. repeat lex_test.
  all: rewrite !Z.add_0_r, uint64_idemp, lex_digits by done.
  all: cbn [lex lexChar]; lex_eval; repeat lex_test.
  all: by lex_same.
Qed.

Lemma lex_symbol_chars DEBUG fuel chars rest log off line col :
  forallb isSymbolChar chars = true ->
  lex DEBUG (S fuel) (chars ++ rest)
    (Build log (uint64 off) line (uint64 col) IN_SYMBOL)
  = lex DEBUG (S fuel) rest
      (Build log (uint64 (off + Z.of_nat (length chars))) line
         (uint64 (col + Z.of_nat (length chars))) IN_SYMBOL).
Proof.
  revert off col.
  induction chars as [|chr chars IH]; intros off col Hchars.
  { simpl. by rewrite !Z.add_0_r. }
  apply andb_prop in Hchars as [Hchr Hchars].
  cbn [app lex lexChar]. lex_eval. rewrite Hchr. lex_eval.
  rewrite !uint64_add_l, IH by done.
  do 2 f_equal; f_equal; simpl length; lia.
Qed.

(** A symbol runs from its first character to the character after its
    last, and that character is lexed.  In both builds, on a lexer in
    whitespace, a symbol character that is no digit and no dash,
    then symbol characters, then a character [chr] that is none: the
    receiver gets [symbolBegin] at the first character and [symbolEnd]
    at [chr], and the lexer goes on as it does in whitespace on [chr]
    and what follows. *)
Theorem symbol_terminator_is_lexed (DEBUG : bool) (fuel : nat)
    (first : Z) (chars : list Z) (chr : Z) (rest : list Z) (lx : t)
    (Hstate : _state lx = IN_WHITESPACE)
    (Hfirst : isSymbolChar first && negb (isDigit first)
              && negb (eqc "-" first) = true)
    (Hchars : forallb isSymbolChar chars = true)
    (Hchr : isSymbolChar chr = false) :
  let n := Z.of_nat (length chars) in
  lex DEBUG (S (S fuel)) (first :: chars ++ chr :: rest) lx
  = lex DEBUG (S (S fuel)) (chr :: rest)
      (Build
         (_recv lx
          ++ [(BuildPosition (uint64 (_offset lx)) (_line lx)
                 (uint64 (_column lx + 1)), symbolBegin);
              (BuildPosition (uint64 (_offset lx + n + 1)) (_line lx)
                 (uint64 (_column lx + n + 2)), symbolEnd)])
         (uint64 (_offset lx + n + 1)) (_line lx)
         (uint64 (_column lx + n + 1)) IN_WHITESPACE).
Proof.
  destruct lx as [log off line col st]. simpl in Hstate. subst st.
  cbn [_recv _offset _line _column].
  chr_fact Hfirst. chr_fact Hchr.
  match goal with |- _ = ?rhs => remember rhs as continued eqn:Hcontinued end.
  remember (S fuel) as n eqn:Hn.
  cbn [lex lexChar]. lex_eval. repeat lex_test.
  all: rewrite !Z.add_0_r, uint64_idemp, lex_symbol_chars by done.
  all: cbn [lex lexChar]; lex_eval; repeat lex_test.
  all: subst continued n; cbn [lex]; lex_lazy.
  all: rewrite (lexChar_whitespace_fuel _ (S fuel) fuel) by done.
  all: match goal with
       | |- match lexChar _ _ _ ?a with _ => _ end
            = match lexChar _ _ _ ?b with _ => _ end =>
           by replace a with b by lex_same
       end.
Qed.

Lemma uint64_small z : (0 <= z < 2 ^ 64)%Z -> uint64 z = z.
Proof. intros Hz. unfold uint64. by apply Z.mod_small. Qed.

(** In the thirty states after one precision digit [lexChar] does what
    the type and the digit the state stands for say. *)
Lemma lexChar_precision DEBUG n chr state type digit log off line col :
  suffix_of state = Some (type, digit) ->
  lexChar DEBUG (S n) chr (Build log off line col state)
  = (if isDigit chr
     then report DEBUG 1 (numberEnd type (digit * 10 + (chr - code "0")));;;
          set_state GOT_NUMBER_PRECISION_2
     else lexEndOfNumber DEBUG type digit chr)
      (Build log off line col state).
Proof.
  intros Hsuffix. cbn [lexChar].
  destruct state; try discriminate; injection Hsuffix as <- <-.
  all: lex_eval; by destruct (isDigit chr).
Qed.

(** One call of [lexChar] on a state that is known. *)
Ltac lex_char :=
  match goal with
  | |- context [lexChar ?D (S ?n) ?c (Build ?l ?o ?li ?co ?st)] =>
      tryif is_var st then fail else
        let call := constr:(lexChar D (S n) c (Build l o li co st)) in
        let body := eval cbn [lexChar] in call in
        change call with body
  end; lex_eval.

Lemma lexChar_type_letter DEBUG n type letter log off line col :
  In letter (type_letters type) ->
  lexChar DEBUG (S n) letter (Build log off line col IN_NUMBER)
  = Returned tt (Build log off line col (type_state type)).
Proof.
  intros Hletter. destruct type; simpl in Hletter; [done | ..].
  all: destruct Hletter as [<-|[<-|[]]].
  all: by cbn [lexChar]; lex_eval; repeat lex_test.
Qed.

Lemma lexEndOfNumber_returns DEBUG type precision chr log off line col state :
  lexEndOfNumber DEBUG type precision chr
    (Build log off line (uint64 col) state)
  = Returned tt
      (Build
         (log
          ++ (if isSymbolChar chr
              then [(BuildPosition (uint64 off) line (uint64 col),
                     error "Number immediately followed by symbol character")]
              else [])
          ++ [(BuildPosition (uint64 off) line (uint64 col),
               numberEnd type precision)])
         off line (uint64 col) IN_WHITESPACE).
Proof.
  lex_eval. destruct DEBUG, (isSymbolChar chr); lex_eval; by lex_same.
Qed.

Lemma lexChar_type_end DEBUG n type chr log off line col :
  type <> P_UNSPECIFIED -> isDigit chr = false ->
  lexChar DEBUG (S n) chr (Build log off line col (type_state type))
  = lexEndOfNumber DEBUG type (-1) chr
      (Build log off line col (type_state type)).
Proof.
  intros Htype Hchr. destruct type; [done | ..].
  all: cbn [lexChar type_state]; lex_eval; rewrite Hchr; by lex_eval.
Qed.

Lemma lexChar_type_digit DEBUG n type digit log off line col :
  type <> P_UNSPECIFIED -> isDigit digit = true ->
  exists state,
    suffix_of state = Some (type, (digit - code "0")%Z)
    /\ lexChar DEBUG (S n) digit
         (Build log off line (uint64 col) (type_state type))
       = Returned tt
           (Build
              (log
               ++ (if eqc "0" digit
                   then [(BuildPosition (uint64 off) line (uint64 col),
                          error "Number precision must not start with 0")]
                   else []))
              off line (uint64 col) state).
Proof.
  intros Htype Hdigit.
  destruct (suffix_encoded type (digit - code "0")) as (state & Hstate & Hsuffix);
    [done | by apply isDigit_range |].
  exists state. split; [done|].
  destruct type; [done | ..].
  all: cbn [lexChar type_state]; lex_eval; rewrite Hdigit; lex_eval.
  all: destruct DEBUG, (eqc "0" digit); lex_eval; rewrite Hstate.
  all: by lex_same.
Qed.

(** The type letter and the first digit of a precision go through the
    state and come back.  On a lexer in state [IN_NUMBER], a type
    letter and then: a character that is no digit ends the number with
    that type and precision -1; a digit and a character that is none
    end it with that type and the digit as precision (in both builds,
    at that character, which is dropped); two digits end it in a
    release build with the type and the two digit precision, at the
    position after the second digit, and halt a [DEBUG] build, whose
    [makePosition(1)] asserts [_column >= -1] on an unsigned column. *)
Theorem number_suffix_is_decoded (fuel : nat) (type : NumberType)
    (letter d1 d2 chr : Z) (lx : t)
    (Hstate : _state lx = IN_NUMBER)
    (Hletter : In letter (type_letters type))
    (Hd1 : isDigit d1 = true)
    (Hd2 : isDigit d2 = true)
    (Hchr : isDigit chr = false)
    (Hcolumn : (0 <= _column lx < 2 ^ 64 - 4)%Z) :
  let position k :=
    BuildPosition (uint64 (_offset lx + k)) (_line lx)
      (uint64 (_column lx + k + 1)) in
  let zero :=
    if eqc "0" d1
    then [(position 1%Z, error "Number precision must not start with 0")]
    else [] in
  let symbol k :=
    if isSymbolChar chr
    then [(position k,
           error "Number immediately followed by symbol character")]
    else [] in
  (forall DEBUG,
     lex DEBUG (S fuel) [letter; chr] lx
     = Returned tt
         (Build (_recv lx ++ symbol 1%Z ++ [(position 1%Z, numberEnd type (-1))])
            (uint64 (_offset lx + 2)) (_line lx) (uint64 (_column lx + 2))
            IN_WHITESPACE))
  /\ (forall DEBUG,
        lex DEBUG (S fuel) [letter; d1; chr] lx
        = Returned tt
            (Build
               (_recv lx ++ zero ++ symbol 2%Z
                ++ [(position 2%Z, numberEnd type (d1 - code "0"))])
               (uint64 (_offset lx + 3)) (_line lx) (uint64 (_column lx + 3))
               IN_WHITESPACE))
  /\ lex false (S fuel) [letter; d1; d2] lx
     = Returned tt
         (Build
            (_recv lx ++ zero
             ++ [(position 3%Z,
                  numberEnd type ((d1 - code "0") * 10 + (d2 - code "0")))])
            (uint64 (_offset lx + 3)) (_line lx) (uint64 (_column lx + 3))
            GOT_NUMBER_PRECISION_2)
  /\ exists lx',
       lex true (S fuel) [letter; d1; d2] lx = Aborted lx'
       /\ _recv lx' = _recv lx ++ zero.
Proof.
  destruct lx as [log off line col st]. simpl in Hstate. subst st.
  cbn [_recv _offset _line _column] in *.
  assert (Htype : type <> P_UNSPECIFIED) by (by intros ->).
  split; [|split; [|split]]; [intros DEBUG | intros DEBUG | |].
  - cbn [lex]. lex_lazy.
    rewrite (lexChar_type_letter _ _ type) by done. lex_lazy.
    rewrite lexChar_type_end, lexEndOfNumber_returns by done.
    by lex_same.
  - cbn [lex]. lex_lazy.
    rewrite (lexChar_type_letter _ _ type) by done. lex_lazy.
    destruct (lexChar_type_digit DEBUG fuel type d1 log (uint64 (off + 1)) line
                (uint64 (col + 1) + 1) Htype Hd1) as (state & Hsuffix & ->).
    lex_lazy.
    rewrite (lexChar_precision _ _ _ _ _ _ _ _ _ _ Hsuffix), Hchr.
    rewrite lexEndOfNumber_returns.
    destruct (eqc "0" d1); by lex_same.
  - cbn [lex]. lex_lazy.
    rewrite (lexChar_type_letter _ _ type) by done. lex_lazy.
    destruct (lexChar_type_digit false fuel type d1 log (uint64 (off + 1)) line
                (uint64 (col + 1) + 1) Htype Hd1) as (state & Hsuffix & ->).
    lex_lazy.
    rewrite (lexChar_precision _ _ _ _ _ _ _ _ _ _ Hsuffix), Hd2.
    lex_eval.
    destruct (eqc "0" d1); by lex_same.
  - cbn [lex]. lex_lazy.
    rewrite (lexChar_type_letter _ _ type) by done. lex_lazy.
    destruct (lexChar_type_digit true fuel type d1 log (uint64 (off + 1)) line
                (uint64 (col + 1) + 1) Htype Hd1) as (state & Hsuffix & ->).
    lex_lazy.
    rewrite (lexChar_precision _ _ _ _ _ _ _ _ _ _ Hsuffix), Hd2.
    lex_eval.
    assert (Hhalt : (uint64 (uint64 (uint64 (col + 1) + 1) + 1)
                     >=? uint64 (- (1)))%Z = false).
    { rewrite (uint64_small (col + 1)) by lia.
      rewrite (uint64_small (col + 1 + 1)) by lia.
      rewrite (uint64_small (col + 1 + 1 + 1)) by lia.
      rewrite Z.geb_leb. apply Z.leb_gt.
      change (uint64 (- (1))) with (2 ^ 64 - 1)%Z. lia. }
    rewrite Hhalt. cbn [negb]. eexists. split; [reflexivity|].
    cbn [_recv]. by rewrite uint64_idemp, uint64_add_l.
Qed.
End LexerFacts.

(** ** The theorems at concrete inputs *)

Lemma MockGCHooks_transparent (allocated : SDPtr) :
  transparent_read (MockGCHooks allocated).
Proof. intros ptr stored g. by exists g. Qed.


(** C7 as stated fails when the read barrier is not transparent.  With
    the hooks of the member-hook tests in their [_readNull] mode,
    [Slot(NULL, HandleType::VALUE, 0)], a boxed [VALUE] slot, does not
    halt with the fatal check: the first check reads [nullptr], which
    is not [&boxed], and the second calls [hasArray()] through that
    null pointer.  With a barrier that answers every read with the
    address of a descriptor without trailing array and leaves the
    reference, the same construction returns: the slot is boxed and
    [VALUE]. *)
Lemma slot_invariants_need_transparent_read :
  StorageDescriptor.Slot_new (BarrierGCHooks (fun _ => SDNull) id SDNull)
    0 SDNull VALUE 0 (StorageDescriptor.BuildMemory tt ∅)
  = Undefined
  /\ let mem : StorageDescriptor.Memory unit :=
       StorageDescriptor.BuildMemory tt
         {[ 7 := StorageDescriptor.Constructed
                   (StorageDescriptor.BuildSD 8 false StorageDescriptor.Slot_empty
                      0 ∅) ]} in
     StorageDescriptor.Slot_new (BarrierGCHooks (fun _ => SDAt 7) id SDNull)
       0 SDNull VALUE 0 mem
     = Returned (StorageDescriptor.BuildSlot SDBoxed VALUE 0) mem
     /\ StorageDescriptor.isBoxed SDBoxed = true.
Proof. split; [by vm_compute |]. split; [by vm_compute | done]. Qed.

(** C7 at the first death test of the descriptor tests,
    [SD::Slot(NULL, HandleType::VALUE, 0)], with the tests' collector
    hooks: the barrier is transparent and the construction halts. *)
Lemma slot_invariants_witness :
  transparent_read (MockGCHooks SDNull)
  /\ exists mem',
       StorageDescriptor.Slot_new (MockGCHooks SDNull) 0 SDNull VALUE 0
         (StorageDescriptor.BuildMemory tt ∅)
       = Aborted mem'.
Proof.
  split; [apply MockGCHooks_transparent |].
  apply (slot_invariants (MockGCHooks SDNull) 0 SDNull VALUE 0
           (StorageDescriptor.BuildMemory tt ∅)
           (MockGCHooks_transparent SDNull));
    reflexivity.
Defined.

(** C8 in a [DEBUG] build, at a block of raw memory and the arguments
    [hasArray] false, size zero, one slot: [init] halts. *)
Lemma init_assertion_needs_DEBUG_witness :
  StorageDescriptor.blocks
    (StorageDescriptor.BuildMemory tt {[ 7 := StorageDescriptor.Raw 72 ]}) !! 7
  = Some (StorageDescriptor.Raw 72)
  /\ StorageDescriptor.init true (SDAt 7) 0 false StorageDescriptor.Slot_empty
       [StorageDescriptor.Slot_empty]
       (StorageDescriptor.BuildMemory tt {[ 7 := StorageDescriptor.Raw 72 ]})
     = Aborted
         (StorageDescriptor.constructed_in 7
            (StorageDescriptor.BuildSD 0 false StorageDescriptor.Slot_empty 1
               {[ 0 := StorageDescriptor.Slot_empty ]})
            (StorageDescriptor.BuildMemory tt {[ 7 := StorageDescriptor.Raw 72 ]})).
Proof.
  split; [reflexivity |].
  destruct (init_assertion_needs_DEBUG
              (StorageDescriptor.BuildMemory tt {[ 7 := StorageDescriptor.Raw 72 ]})
              7 (StorageDescriptor.Raw 72) 0 false StorageDescriptor.Slot_empty
              [StorageDescriptor.Slot_empty]) as (Hhalts & _); [reflexivity |].
  apply Hhalts; [reflexivity | right; discriminate].
Defined.

(** C3 at the tests' registry: the first lookup for [Circular] from
    program start returns a pointer, and the next lookup returns it
    again, leaving the state as it is. *)
Lemma registry_lookup_is_singleton_witness :
  exists p w1,
    TypeStorage.get (MockGCHooks SDNull) true 48 24 TypeStorage.test_definitions 0
      2 TypeStorage.Circular (TypeStorage.initial tt)
    = Returned p w1
    /\ p <> SDNull
    /\ TypeStorage.get (MockGCHooks SDNull) true 48 24 TypeStorage.test_definitions 0
         1 TypeStorage.Circular w1
       = Returned p w1.
Proof.
  destruct (TypeStorage.get (MockGCHooks SDNull) true 48 24
              TypeStorage.test_definitions 0 2 TypeStorage.Circular
              (TypeStorage.initial tt)) as [p w1| | |] eqn:Hfirst;
    [| by vm_compute in Hfirst ..].
  exists p, w1. split; [reflexivity |].
  destruct (registry_lookup_is_singleton (MockGCHooks SDNull) true 48 24
              TypeStorage.test_definitions 0 2 TypeStorage.Circular
              (TypeStorage.initial tt) p w1 Hfirst) as (Hp & Hsame & _).
  split; [exact Hp |]. apply Hsame. apply TypeStorage.lookups_none.
Defined.


(** The registry's contract at the tests' registry: the lookup for
    [Members2] from program start, which looks [Members0] up on the way,
    returns a pointer to a constructed descriptor. *)
Lemma toplevel_lookup_returns_constructed_witness :
  exists p w',
    TypeStorage.get (MockGCHooks SDNull) true 48 24 TypeStorage.test_definitions 0
      3 TypeStorage.Members2 (TypeStorage.initial tt)
    = Returned p w'
    /\ exists sd, StorageDescriptor.load p (TypeStorage.memory w')
                  = Returned sd (TypeStorage.memory w').
Proof.
  destruct (TypeStorage.get (MockGCHooks SDNull) true 48 24
              TypeStorage.test_definitions 0 3 TypeStorage.Members2
              (TypeStorage.initial tt)) as [p w'| | |] eqn:Hget;
    [| by vm_compute in Hget ..].
  exists p, w'. split; [reflexivity |].
  apply (toplevel_lookup_returns_constructed (MockGCHooks SDNull) true 48 24
           TypeStorage.test_definitions 0 tt (TypeStorage.initial tt) 3
           TypeStorage.Members2 p w' (TypeStorage.lookups_none _ _ _ _ _ _ _) Hget).
Defined.

Lemma test_definitions_finite k :
  TypeStorage.test_definitions k <> None -> k ∈ [0; 1; 2; 3].
Proof.
  destruct k as [|[|[|[|k]]]]; intros Hdef; [| | | | done];
    repeat first [apply list_elem_of_here | apply list_elem_of_further].
Qed.

(** Termination at the tests' registry, which has four classes: from
    program start, five units of fuel are enough for any lookup. *)
Lemma lookup_terminates_witness :
  length (TypeStorage.unset [0; 1; 2; 3]
            (TypeStorage.initial tt : TypeStorage.World unit)) < 5
  /\ TypeStorage.get (MockGCHooks SDNull) true 48 24 TypeStorage.test_definitions 0
       5 TypeStorage.Members2 (TypeStorage.initial tt)
     <> OutOfFuel.
Proof.
  assert (Hfuel : length (TypeStorage.unset [0; 1; 2; 3]
                            (TypeStorage.initial tt : TypeStorage.World unit)) < 5)
    by (vm_compute; lia).
  split; [exact Hfuel |].
  apply (lookup_terminates (MockGCHooks SDNull) true 48 24
           TypeStorage.test_definitions 0 [0; 1; 2; 3] 5 TypeStorage.Members2
           (TypeStorage.initial tt) test_definitions_finite Hfuel).
Defined.

(** The pool's bookkeeping at [add(1, 0); add(2, 0); add(1, 0);
    remove(2); remove(1)] on a new pool: reference 1 is outstanding
    once and reference 2 not at all. *)
Lemma pool_counts_outstanding_references_witness :
  let calls := [PoolTrace.Add 1 0; PoolTrace.Add 2 0; PoolTrace.Add 1 0;
                PoolTrace.Remove 2; PoolTrace.Remove 1] in
  exists p : PersistentPool.t nat nat,
    PoolTrace.run calls PersistentPool.new = Returned tt p
    /\ (Z.of_nat (length calls) < size_t_modulus)%Z
    /\ (PersistentPool._map p !! 2 = None <-> PoolTrace.balance 2 calls = 0%Z).
Proof.
  intros calls.
  destruct (PoolTrace.run calls (PersistentPool.new : PersistentPool.t nat nat))
    as [[] p| | |] eqn:Hrun; [| by vm_compute in Hrun ..].
  assert (Hlen : (Z.of_nat (length calls) < size_t_modulus)%Z) by reflexivity.
  exists p. split; [reflexivity |]. split; [exact Hlen |].
  apply (pool_counts_outstanding_references calls p Hrun Hlen 2).
Defined.

(** A reference slot built from a pointer to raw memory, with the
    tests' collector hooks. *)
Lemma reference_slot_needs_no_descriptor_witness :
  REFERENCE <> VALUE
  /\ StorageDescriptor.Slot_new (MockGCHooks SDNull) 0 (SDAt 7) REFERENCE 16
       (StorageDescriptor.BuildMemory tt {[ 7 := StorageDescriptor.Raw 72 ]})
     = Returned (StorageDescriptor.BuildSlot (SDAt 7) REFERENCE 16)
         (StorageDescriptor.BuildMemory tt {[ 7 := StorageDescriptor.Raw 72 ]}).
Proof.
  assert (Htype : REFERENCE <> VALUE) by discriminate.
  split; [exact Htype |].
  exact (reference_slot_needs_no_descriptor (MockGCHooks SDNull) 0 (SDAt 7)
           REFERENCE 16
           (StorageDescriptor.BuildMemory tt {[ 7 := StorageDescriptor.Raw 72 ]})
           Htype).
Defined.


(** The two lookup orders for [Outer] and [Inner] from program start. *)
Lemma value_member_read_before_construction_witness :
  TypeStorage.get (MockGCHooks SDNull) true 48 24 ByValue.definitions 0
    3 ByValue.Inner (TypeStorage.initial tt)
  = Undefined
  /\ exists a w',
       TypeStorage.get (MockGCHooks SDNull) true 48 24 ByValue.definitions 0
         3 ByValue.Outer (TypeStorage.initial tt)
       = Returned (SDAt a) w'.
Proof.
  destruct (value_member_read_before_construction (MockGCHooks SDNull) true
              48 24 ByValue.definitions 0 ByValue.Outer ByValue.Inner 8 8 0 0
              (TypeStorage.initial tt) 0 (MockGCHooks_transparent SDNull)
              eq_refl eq_refl eq_refl eq_refl)
    as (Hub & a & b & w' & Hget & _).
  split; [exact Hub |]. exists a, w'. exact Hget.
Defined.

(** Optionals of integers, which can be constructed and assigned. *)
Lemma optional_holding_five_reachable :
  Optional.reachable Optional.ConstructAndAssign Optional.ConstructAndAssign
    (fun v : Z => v) 0%Z
    (Optional.BuildState {[ 0 := Optional.holding 5%Z ]} [Optional.Constructed 0]).
Proof.
  eapply (Optional.reachable_call _ _ _ _ _ _ (Optional.NewFromValue 0 5%Z));
    [apply Optional.reachable_empty | reflexivity | reflexivity].
Qed.




(** [Optional<int> a(5); a = std::move(a);] *)
Lemma optional_self_assignment_witness :
  exists st',
    Optional.assign_move Optional.ConstructAndAssign (fun v : Z => v) 0%Z 0 0
      (Optional.BuildState {[ 0 := Optional.holding 5%Z ]} [Optional.Constructed 0])
    = Returned tt st'
    /\ Optional.content_of st' 0 = None.
Proof.
  destruct (optional_self_assignment Optional.ConstructAndAssign
              Optional.ConstructAndAssign (fun v : Z => v) 0%Z
              (Optional.BuildState {[ 0 := Optional.holding 5%Z ]}
                 [Optional.Constructed 0]) 0 5%Z
              (reachable_consistent _ _ _ _ _ optional_holding_five_reachable)
              eq_refl)
    as (_ & _ & Hmove & _).
  apply Hmove. discriminate.
Defined.

Lemma Z_strict_total_order : Optional.strict_total_order Z.eqb Z.ltb.
Proof.
  split.
  - intros a b. unfold Optional.exactly_one.
    destruct (Z.ltb_spec a b), (Z.eqb_spec a b), (Z.ltb_spec b a);
      simpl; try reflexivity; lia.
  - intros a b c Hab%Z.ltb_lt Hbc%Z.ltb_lt. apply Z.ltb_lt. lia.
Qed.

(** Optionals of integers: [Optional<int>(1) < Optional<int>(2)], and
    [1 < Optional<int>(2)] says the same. *)
Lemma optional_order_extends_T_witness :
  Optional.lt Z.ltb (Optional.holding 1%Z) (Optional.holding 2%Z) = Some true
  /\ Optional.value_lt Z.ltb 1%Z (Optional.holding 2%Z)
     = Optional.lt Z.ltb (Optional.holding 1%Z) (Optional.holding 2%Z).
Proof.
  pose proof (optional_order_extends_T Z.eqb Z.ltb (Optional.holding 1%Z)
                (Optional.holding 2%Z) Optional.nothing 1%Z 2%Z
                eq_refl eq_refl eq_refl Z_strict_total_order) as H.
  split; [apply H | apply H].
Defined.

Lemma handle_swap_exchanges_referents_witness :
  exists w',
    HandleSwap.swap REFERENCE (RecordingHooks HandleHooks) true 0 1
      (@Handle.Build Z nat REFERENCE 10) (@Handle.Build Z nat REFERENCE 20)
      (HandleSwap.BuildHeap (tt, []) {[ 10 := 1%Z; 20 := 2%Z ]})
    = Returned (@Handle.Build Z nat REFERENCE 10, @Handle.Build Z nat REFERENCE 20)
        (HandleSwap.BuildHeap (w', [ReadCall 0; ReadCall 1])
           (<[20 := 1%Z]> (<[10 := 2%Z]> {[ 10 := 1%Z; 20 := 2%Z ]}))).
Proof.
  assert (Ht : HandleSwap.transparent_hooks (@HandleHooks Z nat))
    by (intros this stored w; by exists w).
  assert (Hne : 0 <> 1) by discriminate.
  destruct (handle_swap_exchanges_referents HandleHooks true 0 1 10 20 0%Z 0%Z
              tt [] {[ 10 := 1%Z; 20 := 2%Z ]} Ht Hne) as (Href & _).
  apply (Href 1%Z 2%Z); reflexivity.
Defined.

Section LexerExamples.
Import String.StringSyntax Ascii.AsciiSyntax.

Lemma stray_data_reported_once_witness :
  exists lx',
    Lexer.lex false 1 [Lexer.code "a"; Lexer.code "b"]
      (Lexer.Build [] 2 1 2 Lexer.ENDED)
    = Returned tt lx'
    /\ Lexer._recv lx'
       = [(Lexer.BuildPosition 2 1 3, Lexer.error "Got stray data after end")]
    /\ Lexer._state lx' = Lexer.ENDED_REPORTED_ERROR.
Proof.
  destruct (stray_data_reported_once false 0 [Lexer.code "a"; Lexer.code "b"]
              (Lexer.Build [] 2 1 2 Lexer.ENDED) eq_refl)
    as (lx' & Hlex & Hrecv & _ & Hstate).
  exists lx'. split; [exact Hlex|]. split; [exact Hrecv|].
  apply Hstate. discriminate.
Defined.

Lemma number_terminator_is_dropped_witness :
  Lexer.lex true 1 [Lexer.code "4"; Lexer.code "2"; Lexer.code ";"] Lexer.new
  = Returned tt
      (Lexer.Build
         [(Lexer.BuildPosition 0 1 1, Lexer.numberBegin false Lexer.DECIMAL);
          (Lexer.BuildPosition 2 1 3,
           Lexer.numberEnd Lexer.P_UNSPECIFIED (-1))]
         3 1 3 Lexer.IN_WHITESPACE).
Proof.
  apply (number_terminator_is_dropped true 0 (Lexer.code "4") [Lexer.code "2"]
           (Lexer.code ";") Lexer.new);
    [reflexivity | reflexivity | discriminate | reflexivity | reflexivity].
Defined.

Lemma symbol_terminator_is_lexed_witness :
  Lexer.lex false 2 [Lexer.code "a"; Lexer.code "b"; Lexer.code ";"] Lexer.new
  = Returned tt
      (Lexer.Build
         [(Lexer.BuildPosition 0 1 1, Lexer.symbolBegin);
          (Lexer.BuildPosition 2 1 3, Lexer.symbolEnd);
          (Lexer.BuildPosition 2 1 3, Lexer.semicolon)]
         3 1 3 Lexer.IN_WHITESPACE).
Proof.
  etransitivity.
  - apply (symbol_terminator_is_lexed false 0 (Lexer.code "a") [Lexer.code "b"]
             (Lexer.code ";") [] Lexer.new); reflexivity.
  - vm_compute. reflexivity.
Defined.

Lemma number_suffix_is_decoded_witness :
  Lexer.lex true 1 [Lexer.code "u"; Lexer.code "8"; Lexer.code " "]
    (Lexer.Build [(Lexer.BuildPosition 0 1 1,
                   Lexer.numberBegin false Lexer.DECIMAL)]
       1 1 1 Lexer.IN_NUMBER)
  = Returned tt
      (Lexer.Build
         [(Lexer.BuildPosition 0 1 1, Lexer.numberBegin false Lexer.DECIMAL);
          (Lexer.BuildPosition 3 1 4, Lexer.numberEnd Lexer.P_UNSIGNED 8)]
         4 1 4 Lexer.IN_WHITESPACE).
Proof.
  assert (Hcolumn : (0 <= 1 < 2 ^ 64 - 4)%Z) by lia.
  destruct (number_suffix_is_decoded 0 Lexer.P_UNSIGNED (Lexer.code "u")
              (Lexer.code "8") (Lexer.code "0") (Lexer.code " ")
              (Lexer.Build [(Lexer.BuildPosition 0 1 1,
                             Lexer.numberBegin false Lexer.DECIMAL)]
                 1 1 1 Lexer.IN_NUMBER)
              eq_refl (or_introl eq_refl) eq_refl eq_refl eq_refl Hcolumn)
    as (_ & Hone & _).
  exact (Hone true).
Defined.
End LexerExamples.
